(** * StreetType: asset resolution and fallback chain

    A shallow embedding of the asset pipeline of StreetType:

    - [AssetManager] (assetManager.js): candidate path enumeration
      ([_buildFallbackPaths]), ordered probing ([_loadWithFallbacks]), the
      memo table and the in-flight table ([get], [clearCache], [getStats]);
    - the helpers of utils.js it calls ([getSystemFontFallbacks],
      [generateFallbackLetterSVG], [checkFileExists]);
    - [LetterDatabase] (database.js): [pathExists], [getLetterPath],
      [tryDecorativePathVariations], [getLetterVariants], [_checkForAssets].

    JavaScript strings are sequences of UTF-16 code units; they are modelled
    as [list N].  The host environment (network, [Math.random], the members
    every object literal inherits, Unicode case mapping) is a record of
    oracles, [Host], over which every statement is quantified. *)

From Stdlib Require Import String Ascii NArith List Lia.
From Stdlib Require Import DecimalString.
From stdpp Require Import base option list gmap.

Open Scope N_scope.

(** ** JavaScript strings *)

Abbreviation jsstring := (list N).

Fixpoint lit (s : string) : jsstring :=
  match s with
  | EmptyString => []
  | String a r => N_of_ascii a :: lit r
  end.
Arguments lit _%_string.

(** The double quote, which a literal cannot hold. *)
Definition dq : jsstring := [34].

(** [String(n)] / [n.toString()] for a non-negative integer. *)
Definition toString (n : N) : jsstring :=
  lit (NilZero.string_of_uint (N.to_uint n)).

(** [s.padStart(n, f)] for a one-unit filler [f]. *)
Definition padStart (n : nat) (f : N) (s : jsstring) : jsstring :=
  replicate (n - length s) f ++ s.

Definition in_range (lo hi c : N) : bool := (lo <=? c) && (c <=? hi).

Definition is_lower_unit (c : N) : bool := in_range 97 122 c.
Definition is_upper_unit (c : N) : bool := in_range 65 90 c.
Definition is_digit_unit (c : N) : bool := in_range 48 57 c.

(** [/^[a-zA-Z]$/.test(s)] *)
Definition test_letter (s : jsstring) : bool :=
  match s with
  | [c] => is_lower_unit c || is_upper_unit c
  | _ => false
  end.

(** [/^[0-9]$/.test(s)] *)
Definition test_digit (s : jsstring) : bool :=
  match s with
  | [c] => is_digit_unit c
  | _ => false
  end.

(** [s] matches [/^[...]$/] for the character class listed in [cls]. *)
Definition test_class (cls : jsstring) (s : jsstring) : bool :=
  match s with
  | [c] => bool_decide (c ∈ cls)
  | _ => false
  end.

Definition ascii_upper_unit (c : N) : N :=
  if is_lower_unit c then c - 32 else c.

(** ** The host environment *)

Record Host := {
  (** outcome of the [n]-th existence probe the page issues, for its path:
      [true] for a load event before the timeout, [false] for an error
      event or the timeout *)
  fileExists : nat -> jsstring -> bool;
  (** [Math.floor(Math.random() * 10000)] at the [n]-th draw *)
  random10000 : nat -> N;
  (** [String(Object.prototype[k])] for the keys every object literal
      inherits ([constructor], [toString], [__proto__], ...), [None] for
      every other key *)
  inherited : jsstring -> option jsstring;
  (** [String.prototype.toUpperCase] on strings with a non-ASCII unit *)
  unicodeUpper : jsstring -> jsstring;
  (** the images that arrive late: the paths of earlier probes, answered by
      their timeout, whose load event fires while the [n]-th probe is
      pending *)
  lateLoads : nat -> list jsstring
}.

(** [s.toUpperCase()] *)
Definition toUpperCase (h : Host) (s : jsstring) : jsstring :=
  if forallb (fun c => c <? 128) s then map ascii_upper_unit s
  else unicodeUpper h s.

(** Own-property lookup in an object literal given as a key/value list. *)
Fixpoint own {A} (tbl : list (jsstring * A)) (k : jsstring) : option A :=
  match tbl with
  | [] => None
  | (k', v) :: tbl' => if bool_decide (k' = k) then Some v else own tbl' k
  end.

(** Exceptions: the only one the modelled code can raise. *)
Inductive exn := URIError.

Inductive result (A : Type) :=
  | Ok (a : A)
  | Throw (e : exn).
Arguments Ok {A} a.
Arguments Throw {A} e.

(** The part of the world the code reads and writes: the existence probes
    issued so far (oldest first), the number of [Math.random] draws, and the
    number of promises of [_loadWithFallbacks] created. *)
Record World := {
  probes : list jsstring;
  draws : nat;
  promises : nat
}.

Definition world0 : World := {| probes := []; draws := 0; promises := 0 |}.

(** An existence probe: an [Image] whose [src] is the path with a
    cache-defeating query, raced against a timeout.  The first of the three
    events decides the outcome. *)
Definition imageProbe (h : Host) (path : jsstring) (w : World) : bool * World :=
  (fileExists h (length (probes w)) path,
   {| probes := probes w ++ [path]; draws := draws w; promises := promises w |}).

(** ** utils.js *)

Module Utils.

(** [checkFileExists(path, timeout)]: the promise only ever resolves, to the
    outcome of the probe. *)
Definition checkFileExists (h : Host) (path : jsstring) (w : World)
  : bool * World :=
  imageProbe h path w.

(** [s.split(sep)[0]] *)
Fixpoint firstSegment (sep : N) (s : jsstring) : jsstring :=
  match s with
  | [] => []
  | c :: r => if c =? sep then [] else c :: firstSegment sep r
  end.

(** [style?.split('-')[0] || style] for a string [style] *)
Definition baseStyleOf (style : jsstring) : jsstring :=
  match firstSegment 45 style with
  | [] => style
  | b => b
  end.

Definition q (s : string) : jsstring := dq ++ lit s ++ dq.
Arguments q _%_string.

Definition getSystemFontFallbacks (style : jsstring) : jsstring :=
  let baseStyle := baseStyleOf style in
  if bool_decide (baseStyle = lit "sans") then
    lit "Arial, Helvetica, sans-serif"
  else if bool_decide (baseStyle = lit "serif") then
    lit "Georgia, " ++ q "Times New Roman" ++ lit ", serif"
  else if bool_decide (baseStyle = lit "mono") then
    q "Courier New" ++ lit ", Courier, monospace"
  else if bool_decide (baseStyle = lit "script") then
    q "Comic Sans MS" ++ lit ", cursive, sans-serif"
  else if bool_decide (baseStyle = lit "decorative") then
    q "Impact" ++ lit ", fantasy"
  else lit "sans-serif".

Record Colors := {
  fill : jsstring;
  background : jsstring;
  stroke : jsstring
}.

Definition mkColors (f b s : string) : Colors :=
  {| fill := lit f; background := lit b; stroke := lit s |}.

Definition styleColorMap : list (jsstring * Colors) :=
  [ (lit "sans", mkColors "#3a7ca5" "#f0f8ff" "#2a5a7a");
    (lit "serif", mkColors "#d63030" "#fff0f0" "#a02020");
    (lit "mono", mkColors "#2d882d" "#f0fff0" "#1d681d");
    (lit "script", mkColors "#aa7c39" "#fff8e6" "#8a5c19");
    (lit "decorative", mkColors "#9933cc" "#f8f0ff" "#7922aa") ].

(** The character class of the symbol test of [generateFallbackLetterSVG]:
    the thirty punctuation marks of [symbolMap] except the backslash. *)
Definition svgSymbolClass : jsstring :=
  lit "!@#$%^&*()_+-=[]{}|;':" ++ dq ++ lit ",./<>?".

Definition selectColors (h : Host) (char baseStyle : jsstring) : Colors :=
  let byStyle :=
    match own styleColorMap baseStyle with
    | Some c => c
    | None =>
        match inherited h baseStyle with
        | Some _ =>
            (* an inherited member is truthy and has none of the three
               properties: each variable becomes [undefined] *)
            mkColors "undefined" "undefined" "undefined"
        | None => mkColors "#333" "#f0f0f0" "#ccc"
        end
    end in
  if test_digit char then mkColors "#6a5acd" "#f5f0ff" "#483d8b"
  else if test_class svgSymbolClass char then
    mkColors "#ff8c00" "#fff8f0" "#cc7000"
  else byStyle.

Definition nl : jsstring := [10].

(** The template literal assigned to [svg], as the sequence of its pieces:
    the literal text between the substitutions, and the substituted values. *)
Definition svgPieces (filterId font char : jsstring) (c : Colors)
  : list jsstring :=
  [ nl;
    lit "    <svg xmlns="; q "http://www.w3.org/2000/svg";
    lit " width="; q "40"; lit " height="; q "60";
    lit " viewBox="; q "0 0 40 60";
    lit " preserveAspectRatio="; q "xMidYMid meet"; lit ">"; nl;
    lit "      <defs>"; nl;
    lit "        <filter id="; dq; filterId; dq; lit ">"; nl;
    lit "          <feDropShadow dx="; q "1"; lit " dy="; q "1";
    lit " stdDeviation="; q "1"; lit " flood-opacity="; q "0.3";
    lit "/>"; nl;
    lit "        </filter>"; nl;
    lit "      </defs>"; nl;
    lit "      <rect width="; q "40"; lit " height="; q "60";
    lit " fill="; dq; background c; dq;
    lit " stroke="; dq; stroke c; dq;
    lit " stroke-width="; q "1"; lit "/>"; nl;
    lit "      <text "; nl;
    lit "        x="; q "20"; lit " "; nl;
    lit "        y="; q "35"; lit " "; nl;
    lit "        font-family="; dq; font; dq; lit " "; nl;
    lit "        font-size="; q "30"; lit " "; nl;
    lit "        fill="; dq; fill c; dq; lit " "; nl;
    lit "        text-anchor="; q "middle"; lit " "; nl;
    lit "        dominant-baseline="; q "middle"; nl;
    lit "        filter="; dq; lit "url(#"; filterId; lit ")"; dq; nl;
    lit "      >"; char; lit "</text>"; nl;
    lit "    </svg>" ].

Definition svgText (filterId font char : jsstring) (c : Colors) : jsstring :=
  concat (svgPieces filterId font char c).

(** *** [encodeURIComponent] *)

Definition uriUnreserved (c : N) : bool :=
  is_lower_unit c || is_upper_unit c || is_digit_unit c
  || bool_decide (c ∈ lit "-_.!~*'()").

Definition isHighSurrogate (c : N) : bool := in_range 55296 56319 c.
Definition isLowSurrogate (c : N) : bool := in_range 56320 57343 c.

Definition hexDigit (n : N) : N := if n <? 10 then 48 + n else 55 + n.

Definition percent (b : N) : jsstring :=
  [37; hexDigit (b / 16); hexDigit (b mod 16)].

Definition utf8 (cp : N) : list N :=
  if cp <? 128 then [cp]
  else if cp <? 2048 then [192 + cp / 64; 128 + cp mod 64]
  else if cp <? 65536 then
    [224 + cp / 4096; 128 + (cp / 64) mod 64; 128 + cp mod 64]
  else
    [240 + cp / 262144; 128 + (cp / 4096) mod 64;
     128 + (cp / 64) mod 64; 128 + cp mod 64].

Definition escapeCodePoint (cp : N) : jsstring := flat_map percent (utf8 cp).

Definition pairCodePoint (hi lo : N) : N :=
  65536 + (hi - 55296) * 1024 + (lo - 56320).

(** [None] stands for the [URIError] raised on an unpaired surrogate. *)
Fixpoint encode (s : jsstring) : option jsstring :=
  match s with
  | [] => Some []
  | c :: rest =>
      if uriUnreserved c then cons c <$> encode rest
      else if isLowSurrogate c then None
      else if isHighSurrogate c then
        match rest with
        | d :: rest' =>
            if isLowSurrogate d
            then app (escapeCodePoint (pairCodePoint c d)) <$> encode rest'
            else None
        | [] => None
        end
      else app (escapeCodePoint c) <$> encode rest
  end.

Definition encodeURIComponent (s : jsstring) : result jsstring :=
  match encode s with
  | Some e => Ok e
  | None => Throw URIError
  end.

(** [s.isWellFormed()]: no unpaired surrogate. *)
Fixpoint isWellFormed (s : jsstring) : bool :=
  match s with
  | [] => true
  | c :: rest =>
      if isLowSurrogate c then false
      else if isHighSurrogate c then
        match rest with
        | d :: rest' => isLowSurrogate d && isWellFormed rest'
        | [] => false
        end
      else isWellFormed rest
  end.

Definition dataUrlPrefix : jsstring := lit "data:image/svg+xml;charset=utf-8,".

(** The value of [filterId] when the draw of [Math.random] gives [n]. *)
Definition filterIdOf (char : jsstring) (n : N) : jsstring :=
  lit "shadow_" ++ char ++ lit "_" ++ toString n.

(** The value of [svg] for that draw. *)
Definition fallbackSVG (h : Host) (char style : jsstring) (n : N) : jsstring :=
  svgText (filterIdOf char n) (getSystemFontFallbacks style) char
    (selectColors h char (baseStyleOf style)).

Definition generateFallbackLetterSVG (h : Host) (char style : jsstring)
    (w : World) : result jsstring * World :=
  let svg := fallbackSVG h char style (random10000 h (draws w)) in
  let w' :=
    {| probes := probes w; draws := S (draws w); promises := promises w |} in
  match encodeURIComponent svg with
  | Ok e => (Ok (dataUrlPrefix ++ e), w')
  | Throw e => (Throw e, w')
  end.

End Utils.

(** ** AssetManager: candidate paths *)

Module AssetManager.

Definition symbolMap : list (jsstring * jsstring) :=
  [ (lit "!", lit "exclamation");
    (lit "?", lit "question");
    (lit ".", lit "period");
    (lit ",", lit "comma");
    (lit ":", lit "colon");
    (lit ";", lit "semicolon");
    (dq, lit "quote");
    (lit "'", lit "apostrophe");
    (lit "(", lit "parenthesis-open");
    (lit ")", lit "parenthesis-close");
    (lit "[", lit "bracket-open");
    (lit "]", lit "bracket-close");
    (lit "{", lit "brace-open");
    (lit "}", lit "brace-close");
    (lit "<", lit "angle-open");
    (lit ">", lit "angle-close");
    (lit "+", lit "plus");
    (lit "-", lit "minus");
    (lit "*", lit "asterisk");
    (lit "/", lit "slash");
    (lit "\", lit "backslash");
    (lit "|", lit "vertical-bar");
    (lit "=", lit "equals");
    (lit "@", lit "at");
    (lit "#", lit "hash");
    (lit "$", lit "dollar");
    (lit "%", lit "percent");
    (lit "^", lit "caret");
    (lit "&", lit "ampersand");
    (lit "_", lit "underscore") ].

(** [symbolMap[symbol] || 'symbol']: own entries are non-empty strings, an
    inherited member is an object, so both are truthy. *)
Definition _mapSymbolToFolderName (h : Host) (symbol : jsstring) : jsstring :=
  match own symbolMap symbol with
  | Some name => name
  | None =>
      match inherited h symbol with
      | Some name => name
      | None => lit "symbol"
      end
  end.

(** The loop [for (let i = 1; i <= 5; i++)] that pushes [mk altVariant] for
    every [i] whose padded form differs from [paddedVariant]. *)
Definition otherVariants (mk : jsstring -> jsstring) (paddedVariant : jsstring)
  : list jsstring :=
  flat_map
    (fun i : N =>
       let altVariant := padStart 2 48 (toString i) in
       if bool_decide (altVariant ≠ paddedVariant) then [mk altVariant] else [])
    [1; 2; 3; 4; 5].

Definition letterPath (city letter styleCase v : jsstring) : jsstring :=
  lit "assets/Alphabet/cities/" ++ city ++ lit "/Alphabet/" ++ letter
    ++ lit "/" ++ styleCase ++ lit "/" ++ v ++ lit ".jpg".

Definition cityFallbackPath (city styleCase v : jsstring) : jsstring :=
  lit "assets/Alphabet/cities/" ++ city ++ lit "/fallback/" ++ styleCase
    ++ lit "/" ++ v ++ lit ".jpg".

Definition numberPath (char v : jsstring) : jsstring :=
  lit "assets/Numbers/" ++ char ++ lit "/" ++ v ++ lit ".jpg".

Definition symbolPath (symbolName v : jsstring) : jsstring :=
  lit "assets/Symbols/" ++ symbolName ++ lit "/" ++ v ++ lit ".jpg".

Definition missingPath : jsstring := lit "assets/missing.png".

(** The candidates pushed before the global fallback. *)
Definition styleVariantPaths (h : Host)
    (char style charCase city variant : jsstring) : list jsstring :=
  let paddedVariant := padStart 2 48 variant in
  if test_letter char then
    let letter := toUpperCase h char in
    let styleCase := style ++ lit "-" ++ charCase in
    [ letterPath city letter styleCase paddedVariant;
      cityFallbackPath city styleCase paddedVariant ]
    ++ otherVariants (letterPath city letter styleCase) paddedVariant
  else if test_digit char then
    [ numberPath char paddedVariant ]
    ++ otherVariants (numberPath char) paddedVariant
  else
    let symbolName := _mapSymbolToFolderName h char in
    [ symbolPath symbolName paddedVariant ]
    ++ otherVariants (symbolPath symbolName) paddedVariant.

Definition _buildFallbackPaths (h : Host)
    (char style charCase city variant : jsstring) : list jsstring :=
  styleVariantPaths h char style charCase city variant ++ [missingPath].

(** *** State *)

Record Stats := {
  requested : nat;
  loaded : nat;
  failed : nat;
  cached : nat;
  fallbacks : nat
}.

(** [loadingPromises] maps a cache key to the promise of the load in
    progress, named by its number. *)
Record t := {
  cache : gmap jsstring jsstring;
  loadingPromises : gmap jsstring nat;
  stats : Stats
}.

(** [new AssetManager()] *)
Definition new : t :=
  {| cache := ∅;
     loadingPromises := ∅;
     stats := {| requested := 0; loaded := 0; failed := 0; cached := 0;
                 fallbacks := 0 |} |}.

Definition with_stats (f : Stats -> Stats) (am : t) : t :=
  {| cache := cache am; loadingPromises := loadingPromises am;
     stats := f (stats am) |}.

Definition with_cache (f : gmap jsstring jsstring -> gmap jsstring jsstring)
    (am : t) : t :=
  {| cache := f (cache am); loadingPromises := loadingPromises am;
     stats := stats am |}.

Definition with_loading (f : gmap jsstring nat -> gmap jsstring nat)
    (am : t) : t :=
  {| cache := cache am; loadingPromises := f (loadingPromises am);
     stats := stats am |}.

Definition incr_requested (s : Stats) : Stats :=
  {| requested := S (requested s); loaded := loaded s; failed := failed s;
     cached := cached s; fallbacks := fallbacks s |}.

Definition incr_loaded (s : Stats) : Stats :=
  {| requested := requested s; loaded := S (loaded s); failed := failed s;
     cached := cached s; fallbacks := fallbacks s |}.

Definition incr_cached (s : Stats) : Stats :=
  {| requested := requested s; loaded := loaded s; failed := failed s;
     cached := S (cached s); fallbacks := fallbacks s |}.

Definition incr_fallbacks (s : Stats) : Stats :=
  {| requested := requested s; loaded := loaded s; failed := failed s;
     cached := cached s; fallbacks := S (fallbacks s) |}.

(** The argument of [get]: [city] and [variant] may be absent. *)
Record Request := {
  char : jsstring;
  style : jsstring;
  charCase : jsstring;
  city : option jsstring;
  variant : option jsstring
}.

Definition cityOf (r : Request) : jsstring := default (lit "NYC") (city r).
Definition variantOf (r : Request) : jsstring := default (lit "01") (variant r).

Definition cacheKey (r : Request) : jsstring :=
  char r ++ lit "_" ++ style r ++ lit "_" ++ charCase r ++ lit "_"
    ++ cityOf r ++ lit "_" ++ variantOf r.

Definition pathsOf (h : Host) (r : Request) : list jsstring :=
  _buildFallbackPaths h (char r) (style r) (charCase r) (cityOf r) (variantOf r).

(** [charCase ? `${style}-${charCase}` : style] *)
Definition fullStyleOf (r : Request) : jsstring :=
  match charCase r with
  | [] => style r
  | _ => style r ++ lit "-" ++ charCase r
  end.

(** *** Sequential semantics

    Each call runs to completion before the next one starts: every [await]
    is followed at once by the event it waits for. *)

(** The loop [for (const path of paths)] of [_loadWithFallbacks]: the first
    path whose probe succeeds, if any. *)
Fixpoint tryPaths (h : Host) (paths : list jsstring) (w : World)
  : option jsstring * World :=
  match paths with
  | [] => (None, w)
  | path :: rest =>
      let '(exists_, w') := Utils.checkFileExists h path w in
      if exists_ then (Some path, w') else tryPaths h rest w'
  end.

Definition _loadWithFallbacks (h : Host) (r : Request) (am : t) (w : World)
  : result jsstring * t * World :=
  let paths := pathsOf h r in
  match tryPaths h paths w with
  | (Some path, w') => (Ok path, with_stats incr_loaded am, w')
  | (None, w') =>
      let am' := with_stats incr_fallbacks am in
      let '(res, w'') :=
        Utils.generateFallbackLetterSVG h (char r) (fullStyleOf r) w' in
      (res, am', w'')
  end.

(** How the promise returned by [get] settles.  [Awaits p]: it settles as
    the promise [p] of a load that an earlier, unfinished call started. *)
Inductive Outcome :=
  | Fulfilled (url : jsstring)
  | Rejected (e : exn)
  | Awaits (p : nat).

Definition newPromise (w : World) : World :=
  {| probes := probes w; draws := draws w; promises := S (promises w) |}.

Definition get (h : Host) (r : Request) (am : t) (w : World)
  : Outcome * t * World :=
  let am := with_stats incr_requested am in
  let key := cacheKey r in
  match cache am !! key with
  | Some url => (Fulfilled url, with_stats incr_cached am, w)
  | None =>
      match loadingPromises am !! key with
      | Some p => (Awaits p, am, w)
      | None =>
          let loadPromise := promises w in
          let '(res, am, w) := _loadWithFallbacks h r am (newPromise w) in
          let am := with_loading (insert key loadPromise) am in
          match res with
          | Ok url =>
              let am := with_cache (insert key url) am in
              let am := with_loading (delete key) am in
              (Fulfilled url, am, w)
          | Throw e =>
              let am := with_loading (delete key) am in
              (Rejected e, am, w)
          end
      end
  end.

Definition clearCache (am : t) : t :=
  {| cache := ∅; loadingPromises := ∅; stats := stats am |}.

(** The snapshot returned by [getStats]. *)
Record Snapshot := {
  s_requested : nat;
  s_loaded : nat;
  s_failed : nat;
  s_cached : nat;
  s_fallbacks : nat;
  cacheSize : nat;
  pendingLoads : nat
}.

Definition getStats (am : t) : Snapshot :=
  {| s_requested := requested (stats am);
     s_loaded := loaded (stats am);
     s_failed := failed (stats am);
     s_cached := cached (stats am);
     s_fallbacks := fallbacks (stats am);
     cacheSize := size (cache am);
     pendingLoads := size (loadingPromises am) |}.

(** A sequence of calls, each awaited before the next. *)
Inductive Call :=
  | CallGet (r : Request)
  | CallClearCache.

Definition call (h : Host) (c : Call) (s : t * World) : t * World :=
  match c with
  | CallGet r => let '(_, am, w) := get h r s.1 s.2 in (am, w)
  | CallClearCache => (clearCache s.1, s.2)
  end.

Definition calls (h : Host) (cs : list Call) (s : t * World) : t * World :=
  foldl (fun s c => call h c s) s cs.

(** *** Interleaved semantics

    [get] and [_loadWithFallbacks] are async functions: they run until an
    [await], and resume when the awaited promise has settled.  Other calls
    run in between.  A state holds the manager, the world, every promise of
    [_loadWithFallbacks] created so far and every call of [get] made so far;
    an event runs one stretch of code between two suspension points. *)

Inductive LoadState :=
  (** suspended at [await checkFileExists(path, 1000)], which will give
      [exists_]; [rest] are the paths the loop has not reached *)
  | Probing (path : jsstring) (exists_ : bool) (rest : list jsstring)
  | Settled (res : result jsstring).

Record Load := {
  l_request : Request;
  l_probed : list jsstring;
  l_state : LoadState
}.

Inductive CallState :=
  (** suspended at [await loadPromise], for the load it started *)
  | Owner (r : Request) (p : nat)
  (** returned [loadingPromises.get(cacheKey)]: settles as that promise *)
  | Joined (r : Request) (p : nat)
  (** settled; [via] is the load whose result it took, if any *)
  | Done (r : Request) (via : option nat) (res : result jsstring).

Record State := {
  manager : t;
  world : World;
  loads : list Load;
  callStates : list CallState
}.

Definition state0 : State :=
  {| manager := new; world := world0; loads := []; callStates := [] |}.

Inductive Event :=
  (** [get(r)] is called and runs up to its first suspension *)
  | EvGet (r : Request)
  (** the probe that load [p] awaits completes, and the load runs on *)
  | EvProbe (p : nat)
  (** the promise that call [c] awaits has settled, and the call runs on *)
  | EvResume (c : nat)
  | EvClearCache.

(** [_loadWithFallbacks] from the head of its loop with [paths] left, up to
    its next suspension or its return. *)
Definition runLoad (h : Host) (r : Request) (probed paths : list jsstring)
    (am : t) (w : World) : Load * t * World :=
  match paths with
  | path :: rest =>
      let '(exists_, w') := Utils.checkFileExists h path w in
      ({| l_request := r; l_probed := probed ++ [path];
          l_state := Probing path exists_ rest |}, am, w')
  | [] =>
      let am' := with_stats incr_fallbacks am in
      let '(res, w') :=
        Utils.generateFallbackLetterSVG h (char r) (fullStyleOf r) w in
      ({| l_request := r; l_probed := probed; l_state := Settled res |},
       am', w')
  end.

Definition stepGet (h : Host) (r : Request) (s : State) : State :=
  let am := with_stats incr_requested (manager s) in
  let key := cacheKey r in
  match cache am !! key with
  | Some url =>
      {| manager := with_stats incr_cached am; world := world s;
         loads := loads s;
         callStates := callStates s ++ [Done r None (Ok url)] |}
  | None =>
      match loadingPromises am !! key with
      | Some p =>
          {| manager := am; world := world s; loads := loads s;
             callStates := callStates s ++ [Joined r p] |}
      | None =>
          let p := length (loads s) in
          let '(l, am, w) :=
            runLoad h r [] (pathsOf h r) am (newPromise (world s)) in
          {| manager := with_loading (insert key p) am; world := w;
             loads := loads s ++ [l];
             callStates := callStates s ++ [Owner r p] |}
      end
  end.

Definition stepProbe (h : Host) (p : nat) (s : State) : State :=
  match loads s !! p with
  | Some {| l_request := r; l_probed := probed;
            l_state := Probing path exists_ rest |} =>
      if exists_ then
        {| manager := with_stats incr_loaded (manager s); world := world s;
           loads := <[p := {| l_request := r; l_probed := probed;
                              l_state := Settled (Ok path) |}]> (loads s);
           callStates := callStates s |}
      else
        let '(l, am, w) := runLoad h r probed rest (manager s) (world s) in
        {| manager := am; world := w; loads := <[p := l]> (loads s);
           callStates := callStates s |}
  | _ => s
  end.

Definition settledResult (s : State) (p : nat) : option (result jsstring) :=
  match loads s !! p with
  | Some {| l_state := Settled res |} => Some res
  | _ => None
  end.

Definition stepResume (c : nat) (s : State) : State :=
  match callStates s !! c with
  | Some (Owner r p) =>
      match settledResult s p with
      | Some (Ok url) =>
          let am := with_cache (insert (cacheKey r) url) (manager s) in
          let am := with_loading (delete (cacheKey r)) am in
          {| manager := am; world := world s; loads := loads s;
             callStates := <[c := Done r (Some p) (Ok url)]> (callStates s) |}
      | Some (Throw e) =>
          let am := with_loading (delete (cacheKey r)) (manager s) in
          {| manager := am; world := world s; loads := loads s;
             callStates := <[c := Done r (Some p) (Throw e)]> (callStates s) |}
      | None => s
      end
  | Some (Joined r p) =>
      match settledResult s p with
      | Some res =>
          {| manager := manager s; world := world s; loads := loads s;
             callStates := <[c := Done r (Some p) res]> (callStates s) |}
      | None => s
      end
  | _ => s
  end.

Definition step (h : Host) (s : State) (e : Event) : State :=
  match e with
  | EvGet r => stepGet h r s
  | EvProbe p => stepProbe h p s
  | EvResume c => stepResume c s
  | EvClearCache =>
      {| manager := clearCache (manager s); world := world s;
         loads := loads s; callStates := callStates s |}
  end.

Definition run (h : Host) (s : State) (es : list Event) : State :=
  foldl (step h) s es.

Definition isClear (e : Event) : bool :=
  match e with EvClearCache => true | _ => false end.

Definition unsettled (l : Load) : bool :=
  match l_state l with Settled _ => false | Probing _ _ _ => true end.

(** The loads in flight for a cache key. *)
Definition inFlight (s : State) (key : jsstring) : list Load :=
  filter (fun l => unsettled l = true ∧ cacheKey (l_request l) = key) (loads s).

End AssetManager.

(** ** LetterDatabase (database.js) *)

Module LetterDatabase.

(** The fields the modelled methods use.  [pathExistsCache] is one object:
    it holds the probed paths and, under the key [checked], the flag that
    [_checkForAssets] sets. *)
Record t := {
  pathExistsCache : gmap jsstring bool;
  assetsDetected : bool;
  decorativePathFormat : option jsstring
}.

Definition with_cache (f : gmap jsstring bool -> gmap jsstring bool) (db : t)
  : t :=
  {| pathExistsCache := f (pathExistsCache db);
     assetsDetected := assetsDetected db;
     decorativePathFormat := decorativePathFormat db |}.

Definition detected (db : t) : t :=
  {| pathExistsCache := pathExistsCache db;
     assetsDetected := true;
     decorativePathFormat := decorativePathFormat db |}.

Definition with_format (path : jsstring) (db : t) : t :=
  {| pathExistsCache := pathExistsCache db;
     assetsDetected := assetsDetected db;
     decorativePathFormat := Some path |}.

(** The truthiness of [this.pathExistsCache.checked]. *)
Definition checked (h : Host) (db : t) : bool :=
  match pathExistsCache db !! lit "checked" with
  | Some b => b
  | None => bool_decide (is_Some (inherited h (lit "checked")))
  end.

(** The handlers of a probe stay armed after its timeout has answered
    [false]: when the image arrives later, [onload] writes
    [pathExistsCache[path] = true] over that answer.  Nothing else is left
    to do for it: the promise is resolved, and the timeout has passed. *)
Definition lateLoad (path : jsstring) (cache : gmap jsstring bool)
  : gmap jsstring bool :=
  match cache !! path with
  | Some false => <[path := true]> cache
  | _ => cache
  end.

(** The images of [paths] arrive late, one after the other. *)
Definition lateLoadsOf (paths : list jsstring) (cache : gmap jsstring bool)
  : gmap jsstring bool :=
  foldl (fun cache path => lateLoad path cache) cache paths.

(** While the page is idle, between calls that are not made back to back,
    the late images [arrived] arrive. *)
Definition idle (arrived : list jsstring) (db : t) : t :=
  with_cache (lateLoadsOf arrived) db.

(** [pathExists(path)], as the truthiness of what it resolves to.  A probe
    waits for an event of the page, so the late images of earlier probes
    arrive while it is pending, before its own event; a call that answers
    from the cache waits for nothing. *)
Definition pathExists (h : Host) (path : jsstring) (db : t) (w : World)
  : bool * t * World :=
  match pathExistsCache db !! path with
  | Some result => (result, db, w)
  | None =>
      if bool_decide (is_Some (inherited h path)) then (true, db, w)
      else if checked h db && negb (assetsDetected db) then (false, db, w)
      else
        let late := lateLoads h (length (probes w)) in
        let '(exists_, w') := imageProbe h path w in
        (exists_,
         with_cache (fun cache => <[path := exists_]> (lateLoadsOf late cache))
           db,
         w')
  end.

(** A loop over [paths] that leaves at the first path that exists. *)
Fixpoint firstExisting (h : Host) (paths : list jsstring) (db : t) (w : World)
  : option jsstring * t * World :=
  match paths with
  | [] => (None, db, w)
  | path :: rest =>
      let '(exists_, db', w') := pathExists h path db w in
      if exists_ then (Some path, db', w') else firstExisting h rest db' w'
  end.

Definition basicPaths : list jsstring :=
  [ lit "assets/Alphabet/cities/NYC/Alphabet/A/sans-upper/01.jpg";
    lit "assets/Alphabet/cities/NYC/Alphabet/a/sans-lower/01.jpg";
    lit "assets/Alphabet/cities/NYC/Alphabet/A/serif-upper/01.jpg" ].

Definition numberPaths : list jsstring :=
  [ lit "assets/Numbers/1/01.jpg";
    lit "assets/Numbers/0/01.jpg" ].

Definition symbolPaths : list jsstring :=
  [ lit "assets/Symbols/period/01.jpg";
    lit "assets/Symbols/comma/01.jpg" ].

Definition decorativePathVariations : list jsstring :=
  [ lit "assets/Alphabet/cities/NYC/Alphabet/A/Display/Decorative-upper/01.jpg";
    lit "assets/Alphabet/cities/NYC/Alphabet/A/Decorative-upper/01.jpg";
    lit "assets/Alphabet/cities/NYC/Alphabet/A/Display/Decorative/upper/01.jpg";
    lit "assets/Alphabet/cities/NYC/Alphabet/A/display/decorative-upper/01.jpg";
    lit "assets/Alphabet/cities/NYC/Alphabet/Q/Display/Decorative-upper/01.jpg";
    lit "assets/Alphabet/cities/NYC/Alphabet/Q/Decorative-upper/01.jpg" ].

(** One detection loop of [_checkForAssets]. *)
Definition detect (h : Host) (paths : list jsstring)
    (found : jsstring -> t -> t) (db : t) (w : World) : t * World :=
  match firstExisting h paths db w with
  | (Some path, db', w') => (found path (detected db'), w')
  | (None, db', w') => (db', w')
  end.

Definition _checkForAssets (h : Host) (db : t) (w : World) : t * World :=
  let '(db, w) := detect h basicPaths (fun _ db => db) db w in
  let '(db, w) := detect h numberPaths (fun _ db => db) db w in
  let '(db, w) := detect h symbolPaths (fun _ db => db) db w in
  let '(db, w) := detect h decorativePathVariations with_format db w in
  (with_cache (insert (lit "checked") true) db, w).

(** The fields as the constructor sets them, before [_checkForAssets]. *)
Definition fresh : t :=
  {| pathExistsCache := ∅; assetsDetected := false;
     decorativePathFormat := None |}.

(** [new LetterDatabase()], once its asset check has finished. *)
Definition new (h : Host) (w : World) : t * World := _checkForAssets h fresh w.

(** *** String helpers of [getLetterPath] *)

(** [s.split(sep)] for a one-unit separator *)
Fixpoint split (sep : N) (s : jsstring) : list jsstring :=
  match s with
  | [] => [[]]
  | c :: r =>
      if c =? sep then [] :: split sep r
      else
        match split sep r with
        | part :: parts => (c :: part) :: parts
        | [] => [[c]]
        end
  end.

(** [parts.join(sep)] *)
Fixpoint join (sep : jsstring) (parts : list jsstring) : jsstring :=
  match parts with
  | [] => []
  | [part] => part
  | part :: rest => part ++ sep ++ join sep rest
  end.

Fixpoint startsWith (pre s : jsstring) : bool :=
  match pre, s with
  | [], _ => true
  | a :: pre', b :: s' => (a =? b) && startsWith pre' s'
  | _ :: _, [] => false
  end.

(** [s.replace(/(upper|lower)/, by)] for a replacement without [$] *)
Fixpoint replaceCase (by_ : jsstring) (s : jsstring) : jsstring :=
  match s with
  | [] => []
  | c :: r =>
      if startsWith (lit "upper") s then by_ ++ drop 5 s
      else if startsWith (lit "lower") s then by_ ++ drop 5 s
      else c :: replaceCase by_ r
  end.

(** [parts.indexOf(parts.find(part => part === 'A' || part === 'Q'))];
    [None] stands for [-1]. *)
Fixpoint letterIndexOf (parts : list jsstring) : option nat :=
  match parts with
  | [] => None
  | part :: rest =>
      if bool_decide (part = lit "A") || bool_decide (part = lit "Q")
      then Some 0%nat
      else S <$> letterIndexOf rest
  end.

(** [parts.slice(from, -1)] *)
Definition sliceToLast (from : nat) (parts : list jsstring) : list jsstring :=
  take (length parts - 1 - from) (drop from parts).

(** The class of [symbolRegex]: the thirty keys of [symbolMap]. *)
Definition symbolClass : jsstring :=
  lit "!@#$%^&*()+\=[]{}|;':" ++ dq ++ lit ",./<>?_-".

Definition test_symbol (character : jsstring) : bool :=
  test_class symbolClass character.

Definition caseTypeOf (h : Host) (character : jsstring) : jsstring :=
  if bool_decide (character = toUpperCase h character)
  then lit "upper" else lit "lower".

Definition decorativeStylePath (db : t) (caseType : jsstring) : jsstring :=
  let default_ := lit "Display/Decorative-" ++ caseType in
  match decorativePathFormat db with
  | None | Some [] => default_
  | Some format =>
      let pathParts := split 47 format in
      match letterIndexOf pathParts with
      | Some letterIndex =>
          if bool_decide (letterIndex + 1 < length pathParts)%nat then
            let decorativePart :=
              join (lit "/") (sliceToLast (letterIndex + 1) pathParts) in
            replaceCase caseType decorativePart
          else default_
      | None => default_
      end
  end.

(** [getLetterPath(character, styleKey, location, variantIndex)]; [None]
    stands for [null]. *)
Definition getLetterPath (h : Host) (db : t)
    (character styleKey location : jsstring) (variantIndex : N)
  : option jsstring :=
  let idx := padStart 2 48 (toString variantIndex) in
  if test_digit character then
    Some (join (lit "/")
            [lit "assets"; lit "Numbers"; character; idx ++ lit ".jpg"])
  else if test_symbol character then
    let symbolName :=
      match own AssetManager.symbolMap character with
      | Some name => name
      | None => default (lit "symbol") (inherited h character)
      end in
    Some (join (lit "/")
            [lit "assets"; lit "Symbols"; symbolName; idx ++ lit ".jpg"])
  else if test_letter character then
    let letter := toUpperCase h character in
    let caseType :=
      if bool_decide (character = letter) then lit "upper" else lit "lower" in
    let stylePath :=
      if bool_decide (styleKey = lit "sans") then
        Some (lit "sans-" ++ caseType)
      else if bool_decide (styleKey = lit "serif") then
        Some (lit "serif-" ++ caseType)
      else if bool_decide (styleKey = lit "decorative")
              || bool_decide (styleKey = lit "display") then
        Some (decorativeStylePath db caseType)
      else if bool_decide (styleKey = lit "random") then
        Some (lit "sans-" ++ caseType)
      else None in
    match stylePath with
    | Some stylePath =>
        Some (join (lit "/")
                [lit "assets"; lit "Alphabet"; lit "cities"; location;
                 lit "Alphabet"; letter; stylePath; idx ++ lit ".jpg"])
    | None => None
    end
  else None.

(** The three layouts that [tryDecorativePathVariations] tries, in order. *)
Definition pathVariations (h : Host)
    (character caseType location : jsstring) (variantIndex : N)
  : list jsstring :=
  let idx := padStart 2 48 (toString variantIndex) in
  let letter := toUpperCase h character in
  [ join (lit "/")
      [lit "assets"; lit "Alphabet"; lit "cities"; location; lit "Alphabet";
       letter; lit "Display/Decorative-" ++ caseType; idx ++ lit ".jpg"];
    join (lit "/")
      [lit "assets"; lit "Alphabet"; lit "cities"; location; lit "Alphabet";
       letter; lit "Decorative-" ++ caseType; idx ++ lit ".jpg"];
    join (lit "/")
      [lit "assets"; lit "Alphabet"; lit "cities"; location; lit "Alphabet";
       letter; lit "Display"; lit "Decorative"; caseType; idx ++ lit ".jpg"] ].

Definition tryDecorativePathVariations (h : Host)
    (character caseType location : jsstring) (variantIndex : N)
    (db : t) (w : World) : option jsstring * t * World :=
  firstExisting h (pathVariations h character caseType location variantIndex)
    db w.

(** A loop [for (let i = ...)] over the variant numbers [indices] that pushes
    to [found] what [find i] gives. *)
Fixpoint collect (find : N -> t -> World -> option jsstring * t * World)
    (indices : list N) (found : list jsstring) (db : t) (w : World)
  : list jsstring * t * World :=
  match indices with
  | [] => (found, db, w)
  | i :: rest =>
      let '(o, db', w') := find i db w in
      collect find rest
        (match o with Some path => found ++ [path] | None => found end) db' w'
  end.

(** [getLetterPath] for variant [i], then [pathExists] when it is a path. *)
Definition existingLetterPath (h : Host)
    (character styleKey location : jsstring) (i : N) (db : t) (w : World)
  : option jsstring * t * World :=
  match getLetterPath h db character styleKey location i with
  | Some path =>
      match path with
      | [] => (None, db, w)
      | _ =>
          let '(exists_, db', w') := pathExists h path db w in
          (if exists_ then Some path else None, db', w')
      end
  | None => (None, db, w)
  end.

(** The end of [getLetterVariants]: the SVG fallback when nothing was found. *)
Definition finish (h : Host) (character styleKey : jsstring)
    (skipFallback : bool) (found : list jsstring) (db : t) (w : World)
  : result (list jsstring) * t * World :=
  match found with
  | [] =>
      if skipFallback then (Ok [], db, w)
      else
        let fullStyle :=
          if test_letter character
          then styleKey ++ lit "-" ++ caseTypeOf h character
          else styleKey in
        match Utils.generateFallbackLetterSVG h character fullStyle w with
        | (Ok svgUrl, w') => (Ok [svgUrl], db, w')
        | (Throw e, w') => (Throw e, db, w')
        end
  | _ => (Ok found, db, w)
  end.

Definition getLetterVariants (h : Host)
    (character styleKey location : jsstring) (skipFallback : bool)
    (db : t) (w : World) : result (list jsstring) * t * World :=
  if checked h db && negb (assetsDetected db) && negb skipFallback then
    let fullStyle := styleKey ++ lit "-" ++ caseTypeOf h character in
    match Utils.generateFallbackLetterSVG h character fullStyle w with
    | (Ok svgUrl, w') => (Ok [svgUrl], db, w')
    | (Throw e, w') => (Throw e, db, w')
    end
  else
    let isNumber := test_digit character in
    let isSymbol := test_symbol character in
    let regular (db : t) (w : World) :=
      if isNumber || isSymbol then
        match getLetterPath h db character styleKey location 1 with
        | Some (_ :: _) =>
            let '(found, db, w) :=
              collect (existingLetterPath h character styleKey location)
                [1; 2; 3] [] db w in
            finish h character styleKey skipFallback found db w
        | _ => finish h character styleKey skipFallback [] db w
        end
      else
        let '(found, db, w) :=
          collect (existingLetterPath h character styleKey location)
            [1; 2; 3] [] db w in
        finish h character styleKey skipFallback found db w in
    if test_letter character
       && (bool_decide (styleKey = lit "decorative")
           || bool_decide (styleKey = lit "display")) then
      let caseType := caseTypeOf h character in
      let '(found, db, w) :=
        collect (tryDecorativePathVariations h character caseType location)
          [1; 2; 3] [] db w in
      match found with
      | [] => regular db w
      | _ => (Ok found, db, w)
      end
    else regular db w.

End LetterDatabase.

(** ** letterSelector.js *)

Module LetterSelector.

(** [Math.random] as the selector reads it.  Every call of [Math.random] is
    one draw, counted in the world; a draw is read in one of two ways. *)
Record Chance := {
  (** [Math.random() < 0.7] at the [n]-th draw *)
  below70 : nat -> bool;
  (** [Math.floor(Math.random() * len)] at the [n]-th draw *)
  floorTimes : nat -> nat -> nat
}.

Definition variants : list jsstring :=
  [lit "01"; lit "02"; lit "03"; lit "04"; lit "05"].

(** [fontStyles.map(s => s.value)] *)
Definition availableStyles : list jsstring :=
  [lit "sans"; lit "serif"; lit "mono"; lit "script"; lit "decorative"].

Definition primaryStyles : list jsstring := [lit "sans"; lit "serif"].

Definition drawn (w : World) : World :=
  {| probes := probes w; draws := S (draws w); promises := promises w |}.

(** [_random(arr)]; [None] stands for [undefined], the element at an index
    out of range. *)
Definition _random (c : Chance) (arr : list jsstring) (w : World)
  : option jsstring * World :=
  (arr !! floorTimes c (draws w) (length arr), drawn w).

Definition _getRandomStyle (c : Chance) (w : World)
  : option jsstring * World :=
  let usePrimary := below70 c (draws w) in
  let stylePool := if usePrimary then primaryStyles else availableStyles in
  _random c stylePool (drawn w).

(** The object for a letter; [type] is always [letter], [url] is absent in
    the objects built after an exception. *)
Record LetterObj := {
  value : jsstring;
  url : option jsstring;
  style : jsstring;
  isFallback : bool
}.

(** What a call of [_buildLetterObj] comes to: the object it returns, or a
    suspension on the promise of a load that another call has in flight. *)
Inductive Built :=
  | Returned (o : LetterObj)
  | Suspended (p : nat).

(** [char === char.toUpperCase() ? 'upper' : 'lower'] *)
Definition caseOf (h : Host) (char : jsstring) : jsstring :=
  if bool_decide (char = toUpperCase h char) then lit "upper" else lit "lower".

(** A value substituted in a template literal. *)
Definition interpolated (o : option jsstring) : jsstring :=
  default (lit "undefined") o.

(** The loop [while (attempts < maxAttempts)], with [remaining] for
    [maxAttempts - attempts]. *)
Fixpoint attempt (h : Host) (c : Chance) (char requestedStyle : jsstring)
    (city : option jsstring) (remaining attempts : nat)
    (am : AssetManager.t) (w : World) : Built * AssetManager.t * World :=
  match remaining with
  | O =>
      (Returned {| value := char; url := None;
                   style := lit "sans-" ++ caseOf h char;
                   isFallback := true |}, am, w)
  | S remaining' =>
      let isRandom := bool_decide (requestedStyle = lit "random") in
      let '(style, w) :=
        if isRandom then
          let '(o, w) :=
            if bool_decide (attempts = 0%nat) then _getRandomStyle c w
            else _random c primaryStyles w in
          (interpolated o, w)
        else (requestedStyle, w) in
      let charCase := caseOf h char in
      let '(variant, w) := _random c variants w in
      let '(out, am, w) :=
        AssetManager.get h
          {| AssetManager.char := toUpperCase h char;
             AssetManager.style := style;
             AssetManager.charCase := charCase;
             AssetManager.city := city;
             AssetManager.variant := variant |} am w in
      let again := isRandom && (attempts <? 2)%nat in
      match out with
      | AssetManager.Fulfilled url =>
          if negb (LetterDatabase.startsWith (lit "data:image/svg+xml") url)
          then
            (Returned {| value := char; url := Some url;
                         style := style ++ lit "-" ++ charCase;
                         isFallback := false |}, am, w)
          else if again then
            attempt h c char requestedStyle city remaining' (S attempts) am w
          else
            (Returned {| value := char; url := Some url;
                         style := style ++ lit "-" ++ charCase;
                         isFallback := true |}, am, w)
      | AssetManager.Rejected _ =>
          if again then
            attempt h c char requestedStyle city remaining' (S attempts) am w
          else
            (Returned {| value := char; url := None;
                         style := style ++ lit "-" ++ charCase;
                         isFallback := true |}, am, w)
      | AssetManager.Awaits p => (Suspended p, am, w)
      end
  end.

(** [_buildLetterObj(char, requestedStyle, city)] *)
Definition _buildLetterObj (h : Host) (c : Chance)
    (char requestedStyle : jsstring) (city : option jsstring)
    (am : AssetManager.t) (w : World) : Built * AssetManager.t * World :=
  attempt h c char requestedStyle city 3 0 am w.

End LetterSelector.

(** * Properties *)

(** ** Vocabulary of the statements *)

Arguments Utils.generateFallbackLetterSVG : simpl never.
Arguments Utils.fallbackSVG : simpl never.
Arguments Utils.svgText : simpl never.
Arguments Utils.encode : simpl never.
Arguments AssetManager.pathsOf : simpl never.
Arguments AssetManager.cacheKey : simpl never.

(** The world after the probes of [paths] have been issued, in order. *)
Definition addProbes (paths : list jsstring) (w : World) : World :=
  {| probes := probes w ++ paths; draws := draws w; promises := promises w |}.

(** Every probe fails, when the paths are probed in order from tick [n]. *)
Definition allFail (h : Host) (n : nat) (paths : list jsstring) : Prop :=
  ∀ i p, paths !! i = Some p → fileExists h (n + i) p = false.

(** The five variant numbers, as the loops of [_buildFallbackPaths] write
    them. *)
Definition fiveVariants : list jsstring :=
  [lit "01"; lit "02"; lit "03"; lit "04"; lit "05"].

(** The request names one of the five variants ([1] and [01] both do). *)
Definition variantInRange (variant : jsstring) : Prop :=
  padStart 2 48 variant ∈ fiveVariants.

(** A host in which exactly the listed files exist, at all times, and no
    image arrives late. *)
Definition hostWhere (existing : list jsstring) : Host :=
  {| fileExists := λ _ p, bool_decide (p ∈ existing);
     random10000 := λ _, 7;
     inherited := λ _, None;
     unicodeUpper := λ s, s;
     lateLoads := λ _, [] |}.

(** The request of the example: the letter A, sans, upper, NYC, variant 01. *)
Definition requestA : AssetManager.Request :=
  {| AssetManager.char := lit "A";
     AssetManager.style := lit "sans";
     AssetManager.charCase := lit "upper";
     AssetManager.city := Some (lit "NYC");
     AssetManager.variant := Some (lit "01") |}.

(** Counter-wise order on statistics. *)
Definition stats_le (a b : AssetManager.Stats) : Prop :=
  (AssetManager.requested a ≤ AssetManager.requested b
   ∧ AssetManager.loaded a ≤ AssetManager.loaded b
   ∧ AssetManager.failed a ≤ AssetManager.failed b
   ∧ AssetManager.cached a ≤ AssetManager.cached b
   ∧ AssetManager.fallbacks a ≤ AssetManager.fallbacks b)%nat.

(** A code unit that is not a surrogate. *)
Definition plain (c : N) : bool :=
  negb (Utils.isLowSurrogate c) && negb (Utils.isHighSurrogate c).

(** What [encodeURIComponent] writes for a plain unit. *)
Definition unitEnc (c : N) : jsstring :=
  if Utils.uriUnreserved c then [c] else Utils.escapeCodePoint c.

(** The string does not start with a low surrogate. *)
Definition headNotLow (s : jsstring) : Prop :=
  match s with
  | c :: _ => Utils.isLowSurrogate c = false
  | [] => True
  end.

Definition asciiOnly (s : jsstring) : Prop := Forall (λ c, c < 128) s.

Definition asciiColors (c : Utils.Colors) : Prop :=
  asciiOnly (Utils.fill c) ∧ asciiOnly (Utils.background c)
  ∧ asciiOnly (Utils.stroke c).

(** What a piece that encodes is encoded to. *)
Definition encOf (s : jsstring) : jsstring := default [] (Utils.encode s).

(** The world after one draw of [Math.random]. *)
Definition afterDraw (w : World) : World :=
  {| probes := probes w; draws := S (draws w); promises := promises w |}.

(** A character of none of the classes that [getLetterPath] handles. *)
Definition unsupported (character : jsstring) : bool :=
  negb (test_digit character) && negb (LetterDatabase.test_symbol character)
  && negb (test_letter character).

(** Between [w] and [w'] only paths of [paths] were probed, in their order,
    and nothing else changed. *)
Definition probedWithin (paths : list jsstring) (w w' : World) : Prop :=
  ∃ l, w' = addProbes l w ∧ l `sublist_of` paths.

(** A method of [LetterDatabase] left the learned layout and the detection
    flag as they were. *)
Definition keepsFormat (db db' : LetterDatabase.t) : Prop :=
  LetterDatabase.decorativePathFormat db' = LetterDatabase.decorativePathFormat db
  ∧ LetterDatabase.assetsDetected db' = LetterDatabase.assetsDetected db.

(** A load has probed a prefix of its candidate list, in order, and is
    suspended on the last path it probed. *)
Definition loadOk (h : Host) (l : AssetManager.Load) : Prop :=
  match AssetManager.l_state l with
  | AssetManager.Probing path _ rest =>
      (∃ pre, AssetManager.l_probed l = pre ++ [path])
      ∧ AssetManager.l_probed l ++ rest
        = AssetManager.pathsOf h (AssetManager.l_request l)
  | AssetManager.Settled _ =>
      AssetManager.l_probed l
        `prefix_of` AssetManager.pathsOf h (AssetManager.l_request l)
  end.

(** What every interleaving without [clearCache] keeps true. *)
Record consistent (h : Host) (s : AssetManager.State) : Prop := {
  (** a load in flight is the one registered for its key *)
  inv_unsettled : ∀ p l,
    AssetManager.loads s !! p = Some l →
    AssetManager.unsettled l = true →
    AssetManager.loadingPromises (AssetManager.manager s)
      !! AssetManager.cacheKey (AssetManager.l_request l) = Some p;
  (** a call suspended on its own load has that load registered *)
  inv_owner : ∀ c r p,
    AssetManager.callStates s !! c = Some (AssetManager.Owner r p) →
    AssetManager.loadingPromises (AssetManager.manager s)
      !! AssetManager.cacheKey r = Some p;
  inv_owner_unique : ∀ c1 c2 r1 r2 p,
    AssetManager.callStates s !! c1 = Some (AssetManager.Owner r1 p) →
    AssetManager.callStates s !! c2 = Some (AssetManager.Owner r2 p) →
    c1 = c2;
  inv_loading_bound : ∀ k p,
    AssetManager.loadingPromises (AssetManager.manager s) !! k = Some p →
    (p < length (AssetManager.loads s))%nat;
  (** a key is never in both tables *)
  inv_cache : ∀ k url,
    AssetManager.cache (AssetManager.manager s) !! k = Some url →
    AssetManager.loadingPromises (AssetManager.manager s) !! k = None;
  (** a finished call holds what its load settled with *)
  inv_done : ∀ c r p res,
    AssetManager.callStates s !! c
      = Some (AssetManager.Done r (Some p) res) →
    AssetManager.settledResult s p = Some res;
  inv_load : ∀ p l, AssetManager.loads s !! p = Some l → loadOk h l
}.

(** [_loadWithFallbacks] from the head of its loop with [paths] left. *)
Definition loadFrom (h : Host) (r : AssetManager.Request)
    (paths : list jsstring) (am : AssetManager.t) (w : World)
  : result jsstring * AssetManager.t * World :=
  match AssetManager.tryPaths h paths w with
  | (Some path, w') =>
      (Ok path, AssetManager.with_stats AssetManager.incr_loaded am, w')
  | (None, w') =>
      ((Utils.generateFallbackLetterSVG h (AssetManager.char r)
          (AssetManager.fullStyleOf r) w').1,
       AssetManager.with_stats AssetManager.incr_fallbacks am,
       (Utils.generateFallbackLetterSVG h (AssetManager.char r)
          (AssetManager.fullStyleOf r) w').2)
  end.

(** The promise of [get] settled the way [res] says. *)
Definition settlesAs (o : AssetManager.Outcome) (res : result jsstring)
  : Prop :=
  match o, res with
  | AssetManager.Fulfilled url, Ok url' => url = url'
  | AssetManager.Rejected e, Throw e' => e = e'
  | _, _ => False
  end.

(** No load has settled with an exception and no call has finished with
    one; every load is for a well-formed character. *)
Definition noThrow (s : AssetManager.State) : Prop :=
  (∀ p l,
     AssetManager.loads s !! p = Some l →
     Utils.isWellFormed (AssetManager.char (AssetManager.l_request l)) = true
     ∧ ∀ e, AssetManager.l_state l ≠ AssetManager.Settled (Throw e))
  ∧ (∀ c r via e,
       AssetManager.callStates s !! c
       ≠ Some (AssetManager.Done r via (Throw e))).

(** Every [get] of the schedule is for a well-formed character. *)
Definition wellFormedGets (es : list AssetManager.Event) : Prop :=
  ∀ r, AssetManager.EvGet r ∈ es →
       Utils.isWellFormed (AssetManager.char r) = true.


Definition startPaths : list jsstring :=
  LetterDatabase.basicPaths ++ LetterDatabase.numberPaths
  ++ LetterDatabase.symbolPaths ++ LetterDatabase.decorativePathVariations.


(** No member of [Object.prototype] is named like one of the thirteen paths
    or like the flag [checked]: so it is in every browser. *)
Definition plainKeys (h : Host) : Prop :=
  ∀ p, p ∈ lit "checked" :: startPaths → inherited h p = None.

(** ** Vocabulary of the further properties *)

(** [url.startsWith('data:image/svg+xml')], the test by which the callers of
    [get] tell a generated image from a photographed one. *)
Definition isDataUrl (url : jsstring) : bool :=
  LetterDatabase.startsWith (lit "data:image/svg+xml") url.

(** The counters add up: every call was answered from the memo table, by a
    photographed asset or by a generated image; nothing is pending; the memo
    table holds no more entries than loads have finished. *)
Definition balanced (am : AssetManager.t) : Prop :=
  AssetManager.loadingPromises am = ∅
  ∧ AssetManager.requested (AssetManager.stats am)
    = (AssetManager.cached (AssetManager.stats am)
       + AssetManager.loaded (AssetManager.stats am)
       + AssetManager.fallbacks (AssetManager.stats am))%nat
  ∧ (size (AssetManager.cache am)
     ≤ AssetManager.loaded (AssetManager.stats am)
       + AssetManager.fallbacks (AssetManager.stats am))%nat.

(** The call was answered from the memo table. *)
Definition viaCache (c : AssetManager.CallState) : bool :=
  match c with
  | AssetManager.Done _ None _ => true
  | _ => false
  end.

(** The calls answered from the memo table, and the loads that have
    settled. *)
Definition cacheAnswers (s : AssetManager.State) : list AssetManager.CallState :=
  filter (λ c, viaCache c = true) (AssetManager.callStates s).

Definition settledLoads (s : AssetManager.State) : list AssetManager.Load :=
  filter (λ l, AssetManager.unsettled l = false) (AssetManager.loads s).

(** Every call is counted once in [requested], every call answered from the
    memo table once in [cached], every settled load once in [loaded] or in
    [fallbacks]. *)
Definition accounted (s : AssetManager.State) : Prop :=
  let st := AssetManager.stats (AssetManager.manager s) in
  AssetManager.requested st = length (AssetManager.callStates s)
  ∧ AssetManager.cached st = length (cacheAnswers s)
  ∧ (AssetManager.loaded st + AssetManager.fallbacks st)%nat
    = length (settledLoads s)
  ∧ AssetManager.failed st = 0%nat.

(** None of the fields that the key joins with [_] holds a [_] itself. *)
Definition separable (r : AssetManager.Request) : Prop :=
  (95 ∉ AssetManager.char r) ∧ (95 ∉ AssetManager.style r)
  ∧ (95 ∉ AssetManager.charCase r) ∧ (95 ∉ AssetManager.cityOf r).

(** Two requests that [get] destructures to the same five values. *)
Definition sameFields (r1 r2 : AssetManager.Request) : Prop :=
  AssetManager.char r1 = AssetManager.char r2
  ∧ AssetManager.style r1 = AssetManager.style r2
  ∧ AssetManager.charCase r1 = AssetManager.charCase r2
  ∧ AssetManager.cityOf r1 = AssetManager.cityOf r2
  ∧ AssetManager.variantOf r1 = AssetManager.variantOf r2.

(** [url] is the image generated for the character and style of [r], at
    some draw of the filter id. *)
Definition generatedFor (h : Host) (r : AssetManager.Request)
    (url : jsstring) : Prop :=
  ∃ n e,
    Utils.encode
      (Utils.fallbackSVG h (AssetManager.char r) (AssetManager.fullStyleOf r) n)
    = Some e
    ∧ url = Utils.dataUrlPrefix ++ e.

(** Every entry of the memo table belongs to a separable request with that
    key: it is one of its candidates or its generated image. *)
Definition cacheOwned (h : Host) (am : AssetManager.t) : Prop :=
  ∀ k url, AssetManager.cache am !! k = Some url →
    ∃ r, separable r ∧ AssetManager.cacheKey r = k
         ∧ (url ∈ AssetManager.pathsOf h r ∨ generatedFor h r url).

(** ** LetterDatabase: sequences of awaited calls *)

(** The calls one caller makes back to back, each awaited: the continuation
    of an [await] starts the next call, and the page handles no event in
    between.  It handles events while a probe is pending, which
    [pathExists] accounts for, and while it is idle, which
    [LetterDatabase.idle] describes. *)
Inductive DbCall :=
  | DbPathExists (path : jsstring)
  | DbGetLetterVariants (character styleKey location : jsstring)
      (skipFallback : bool)
  | DbCheckForAssets.

Definition dbCall (h : Host) (c : DbCall) (s : LetterDatabase.t * World)
  : LetterDatabase.t * World :=
  match c with
  | DbPathExists path =>
      let '(_, db, w) := LetterDatabase.pathExists h path s.1 s.2 in (db, w)
  | DbGetLetterVariants character styleKey location skipFallback =>
      let '(_, db, w) :=
        LetterDatabase.getLetterVariants h character styleKey location
          skipFallback s.1 s.2 in
      (db, w)
  | DbCheckForAssets => LetterDatabase._checkForAssets h s.1 s.2
  end.

Definition dbCalls (h : Host) (cs : list DbCall)
    (s : LetterDatabase.t * World) : LetterDatabase.t * World :=
  foldl (fun s c => dbCall h c s) s cs.

(** The asset check has finished and has found nothing. *)
Definition offline (h : Host) (db : LetterDatabase.t) : Prop :=
  LetterDatabase.checked h db = true
  ∧ LetterDatabase.assetsDetected db = false.

(** [pathExists] has an answer for [p] without probing, and it is truthy:
    [p in this.pathExistsCache] holds, with a truthy value. *)
Definition confirmed (h : Host) (db : LetterDatabase.t) (p : jsstring)
  : Prop :=
  match LetterDatabase.pathExistsCache db !! p with
  | Some b => b = true
  | None => is_Some (inherited h p)
  end.

(** From [s] to [s'] the probes [issued] were added: no path twice, none
    that had an answer in [s], and every answer of [s] is still there. *)
Definition probedOnce (s s' : LetterDatabase.t * World)
    (issued : list jsstring) : Prop :=
  probes s'.2 = probes s.2 ++ issued
  ∧ NoDup issued
  ∧ (∀ p, p ∈ issued →
       LetterDatabase.pathExistsCache s.1 !! p = None
       ∧ is_Some (LetterDatabase.pathExistsCache s'.1 !! p))
  ∧ (∀ p, is_Some (LetterDatabase.pathExistsCache s.1 !! p) →
       is_Some (LetterDatabase.pathExistsCache s'.1 !! p)).

(** From [s] to [s'] neither the object nor the list of probes changed, if
    [s] is a state after a failed asset check. *)
Definition unchangedWhenOffline (h : Host)
    (s s' : LetterDatabase.t * World) : Prop :=
  offline h s.1 → s'.1 = s.1 ∧ probes s'.2 = probes s.2.

(** Every path that is confirmed in [s] is still confirmed in [s']. *)
Definition keepsConfirmed (h : Host) (s s' : LetterDatabase.t * World)
  : Prop :=
  ∀ p, confirmed h s.1 p → confirmed h s'.1 p.

(** What a detection loop over [paths] has done between [s] and [s']: it
    has probed some of [paths] in their order; where the flag
    [assetsDetected] is still unset, it was unset, every probe has failed
    and [pathExists] had no truthy answer for any of [paths]; where the
    flag is set, it was set or one of [paths] is now confirmed. *)
Definition scanned (h : Host) (paths : list jsstring)
    (s s' : LetterDatabase.t * World) : Prop :=
  keepsConfirmed h s s'
  ∧ (∃ issued,
       s'.2 = addProbes issued s.2
       ∧ issued `sublist_of` paths
       ∧ (LetterDatabase.assetsDetected s'.1 = false →
          LetterDatabase.assetsDetected s.1 = false
          ∧ allFail h (length (probes s.2)) issued
          ∧ ∀ p, p ∈ paths → ¬ confirmed h s.1 p))
  ∧ (LetterDatabase.assetsDetected s'.1 = true →
     LetterDatabase.assetsDetected s.1 = true
     ∨ ∃ p, p ∈ paths ∧ confirmed h s'.1 p).

(** A unit that a URL may hold unescaped, or the [%] of an escape. *)
Definition urlSafe (c : N) : Prop := Utils.uriUnreserved c = true ∨ c = 37.

(** A string of UTF-16 code units. *)
Definition codeUnits (s : jsstring) : Prop := Forall (λ c, c < 65536) s.

(** ** LetterSelector *)

(** [Math.floor(Math.random() * len)] is an index of the array. *)
Definition fair (c : LetterSelector.Chance) : Prop :=
  ∀ n len, (0 < len)%nat → (LetterSelector.floorTimes c n len < len)%nat.

(** [isFallback] says whether the URL of the object is a generated image;
    an object without URL is a fallback. *)
Definition flagged (o : LetterSelector.LetterObj) : Prop :=
  match LetterSelector.url o with
  | Some u => LetterSelector.isFallback o = isDataUrl u
  | None => LetterSelector.isFallback o = true
  end.

(** ** Progress of the interleaved calls *)

(** The probe completions a load may still wait for. *)
Definition probesLeft (l : AssetManager.Load) : nat :=
  match AssetManager.l_state l with
  | AssetManager.Probing _ _ rest => S (length rest)
  | AssetManager.Settled _ => 0
  end.

(** Every load has at most eight probes left, and every unfinished call
    and every entry of [loadingPromises] names a load that exists. *)
Definition live (s : AssetManager.State) : Prop :=
  (∀ p l, AssetManager.loads s !! p = Some l → (probesLeft l ≤ 8)%nat)
  ∧ (∀ c cs, AssetManager.callStates s !! c = Some cs →
       match cs with
       | AssetManager.Owner _ p | AssetManager.Joined _ p =>
           (p < length (AssetManager.loads s))%nat
       | AssetManager.Done _ _ _ => True
       end)
  ∧ (∀ k p,
       AssetManager.loadingPromises (AssetManager.manager s) !! k = Some p →
       (p < length (AssetManager.loads s))%nat).

(** ** The probing loop *)

Section Probing.
Context (h : Host).
Import AssetManager.

Lemma addProbes_nil w : addProbes [] w = w.
Proof. destruct w; unfold addProbes; simpl. by rewrite app_nil_r. Qed.

Lemma addProbes_app l1 l2 w :
  addProbes l2 (addProbes l1 w) = addProbes (l1 ++ l2) w.
Proof. unfold addProbes; simpl. by rewrite app_assoc. Qed.

Lemma allFail_cons n p paths :
  allFail h n (p :: paths) ↔
  fileExists h n p = false ∧ allFail h (S n) paths.
Proof.
  unfold allFail; split.
  - intros H; split.
    + specialize (H 0%nat p eq_refl). by rewrite Nat.add_0_r in H.
    + intros i q Hq. specialize (H (S i) q Hq).
      by replace (S n + i)%nat with (n + S i)%nat by lia.
  - intros [H0 H] [|i] q Hq; simpl in Hq.
    + inversion Hq; subst. by rewrite Nat.add_0_r.
    + replace (n + S i)%nat with (S n + i)%nat by lia. by apply H.
Qed.

Lemma tryPaths_app l1 l2 w :
  tryPaths h (l1 ++ l2) w =
  match tryPaths h l1 w with
  | (Some p, w') => (Some p, w')
  | (None, w') => tryPaths h l2 w'
  end.
Proof.
  revert w; induction l1 as [|p l1 IH]; intros w; simpl; [done|].
  destruct (fileExists h (length (probes w)) p); [done|]. apply IH.
Qed.

Lemma tryPaths_none paths w :
  allFail h (length (probes w)) paths →
  tryPaths h paths w = (None, addProbes paths w).
Proof.
  revert w; induction paths as [|p paths IH]; intros w Hf; simpl.
  - by rewrite addProbes_nil.
  - apply allFail_cons in Hf as [-> Hf].
    rewrite IH; simpl.
    + unfold addProbes; simpl. by rewrite <- app_assoc.
    + by rewrite length_app, Nat.add_1_r.
Qed.

Lemma tryPaths_found pre p post w :
  allFail h (length (probes w)) pre →
  fileExists h (length (probes w) + length pre) p = true →
  tryPaths h (pre ++ p :: post) w = (Some p, addProbes (pre ++ [p]) w).
Proof.
  intros Hf Hp. rewrite tryPaths_app, (tryPaths_none _ _ Hf). simpl.
  rewrite length_app, Hp. unfold addProbes; simpl. by rewrite <- app_assoc.
Qed.

(** What the loop returns determines what it probed and what it saw. *)
Lemma tryPaths_inv paths w o w' :
  tryPaths h paths w = (o, w') →
  match o with
  | Some p =>
      ∃ pre post, paths = pre ++ p :: post
        ∧ allFail h (length (probes w)) pre
        ∧ fileExists h (length (probes w) + length pre) p = true
        ∧ w' = addProbes (pre ++ [p]) w
  | None => allFail h (length (probes w)) paths ∧ w' = addProbes paths w
  end.
Proof.
  revert w; induction paths as [|p paths IH]; intros w; simpl.
  - intros [= <- <-]. split; [by intros i p Hi | by rewrite addProbes_nil].
  - destruct (fileExists h (length (probes w)) p) eqn:Hp.
    + intros [= <- <-]. exists [], paths. repeat split; simpl.
      * by intros i q Hi.
      * by rewrite Nat.add_0_r.
    + intros Ht. apply IH in Ht. simpl in Ht.
      rewrite length_app, Nat.add_1_r in Ht.
      destruct o as [q|].
      * destruct Ht as (pre & post & -> & Hf & Hq & ->).
        exists (p :: pre), post. repeat split.
        -- by apply allFail_cons.
        -- simpl. by rewrite Nat.add_succ_r.
        -- unfold addProbes; simpl. by rewrite <- app_assoc.
      * destruct Ht as [Hf ->]. split; [by apply allFail_cons|].
        unfold addProbes; simpl. by rewrite <- app_assoc.
Qed.

End Probing.

(** ** The candidate list *)

Section Candidates.
Context (h : Host).
Import AssetManager.

Lemma otherVariants_filter mk pv :
  otherVariants mk pv = map mk (filter (λ v, v ≠ pv) fiveVariants).
Proof.
  unfold otherVariants, fiveVariants.
  cbv [flat_map].
  change (padStart 2 48 (toString 1)) with (lit "01").
  change (padStart 2 48 (toString 2)) with (lit "02").
  change (padStart 2 48 (toString 3)) with (lit "03").
  change (padStart 2 48 (toString 4)) with (lit "04").
  change (padStart 2 48 (toString 5)) with (lit "05").
  rewrite !filter_cons, filter_nil.
  repeat case_bool_decide; repeat case_decide; try done.
Qed.

Lemma fiveVariants_NoDup : NoDup fiveVariants.
Proof. apply (bool_decide_unpack _). by vm_compute. Qed.

Lemma others_length pv :
  pv ∈ fiveVariants → length (filter (λ v, v ≠ pv) fiveVariants) = 4%nat.
Proof.
  unfold fiveVariants. rewrite !elem_of_cons, elem_of_nil.
  intros [->|[->|[->|[->|[->|[]]]]]]; by vm_compute.
Qed.

Lemma others_NoDup pv : NoDup (filter (λ v, v ≠ pv) fiveVariants).
Proof. apply NoDup_filter, fiveVariants_NoDup. Qed.

Lemma letterPath_inj city letter styleCase : Inj (=) (=) (letterPath city letter styleCase).
Proof.
  intros v1 v2 H. unfold letterPath in H.
  repeat apply app_inv_head in H. by apply app_inv_tail in H.
Qed.

Lemma numberPath_inj char : Inj (=) (=) (numberPath char).
Proof.
  intros v1 v2 H. unfold numberPath in H.
  repeat apply app_inv_head in H. by apply app_inv_tail in H.
Qed.

Lemma symbolPath_inj name : Inj (=) (=) (symbolPath name).
Proof.
  intros v1 v2 H. unfold symbolPath in H.
  repeat apply app_inv_head in H. by apply app_inv_tail in H.
Qed.

Lemma cityFallback_not_letterPath city letter styleCase v v' :
  cityFallbackPath city styleCase v ≠ letterPath city letter styleCase v'.
Proof.
  unfold cityFallbackPath, letterPath. intros H.
  do 2 apply app_inv_head in H. by simpl in H.
Qed.

Lemma jpg_not_missing x : x ++ lit ".jpg" ≠ missingPath.
Proof.
  intros H.
  assert (Hs : lit ".jpg" `suffix_of` missingPath) by (by exists x).
  apply (bool_decide_pack _) in Hs. by vm_compute in Hs.
Qed.

(** Every candidate before the global fallback is a [.jpg] location. *)
Lemma styleVariantPaths_jpg char style charCase city variant p :
  p ∈ styleVariantPaths h char style charCase city variant →
  ∃ x, p = x ++ lit ".jpg".
Proof.
  unfold styleVariantPaths.
  destruct (test_letter char); [|destruct (test_digit char)];
    rewrite otherVariants_filter;
    rewrite ?elem_of_app, ?elem_of_cons, ?elem_of_nil, list_elem_of_fmap;
    intros Hp; destruct_or?; try destruct Hp as (v & -> & _); subst;
    try done;
    unfold letterPath, cityFallbackPath, numberPath, symbolPath;
    rewrite ?app_assoc; eauto.
Qed.

Lemma missing_not_styleVariant char style charCase city variant :
  missingPath ∉ styleVariantPaths h char style charCase city variant.
Proof.
  intros [x Hx]%styleVariantPaths_jpg. by eapply jpg_not_missing.
Qed.

Lemma NoDup_cons_map {A} (f : jsstring → A) pv l :
  Inj (=) (=) f → NoDup l → pv ∉ l → NoDup (f pv :: map f l).
Proof.
  intros Hinj Hl Hpv. apply NoDup_cons; split.
  - rewrite list_elem_of_fmap. intros (v & Hv%Hinj & Hin). by subst.
  - by apply NoDup_fmap_2.
Qed.

Lemma pv_not_other pv : pv ∉ filter (λ v, v ≠ pv) fiveVariants.
Proof. rewrite list_elem_of_filter. by intros [? _]. Qed.

Lemma styleVariantPaths_NoDup char style charCase city variant :
  NoDup (styleVariantPaths h char style charCase city variant).
Proof.
  unfold styleVariantPaths.
  destruct (test_letter char); [|destruct (test_digit char)];
    rewrite otherVariants_filter; simpl.
  - set (f := letterPath _ _ _).
    pose proof (NoDup_cons_map f (padStart 2 48 variant) _
                  (letterPath_inj _ _ _) (others_NoDup _) (pv_not_other _))
      as Hnd.
    apply NoDup_cons in Hnd as [Hpv Hnd].
    apply NoDup_cons; split.
    + rewrite elem_of_cons. intros [Heq|Hin]; [|done].
      symmetry in Heq. by apply cityFallback_not_letterPath in Heq.
    + apply NoDup_cons; split; [|done].
      rewrite list_elem_of_fmap. intros (v & Hv & _).
      by apply cityFallback_not_letterPath in Hv.
  - apply NoDup_cons_map;
      [apply numberPath_inj | apply others_NoDup | apply pv_not_other].
  - apply NoDup_cons_map;
      [apply symbolPath_inj | apply others_NoDup | apply pv_not_other].
Qed.

(** No candidate occurs twice. *)
Lemma buildFallbackPaths_NoDup char style charCase city variant :
  NoDup (_buildFallbackPaths h char style charCase city variant).
Proof.
  unfold _buildFallbackPaths. apply NoDup_app; split_and!.
  - apply styleVariantPaths_NoDup.
  - intros p Hp ->%list_elem_of_singleton.
    by apply missing_not_styleVariant in Hp.
  - apply NoDup_singleton.
Qed.

Lemma styleVariantPaths_length char style charCase city variant :
  variantInRange variant →
  length (styleVariantPaths h char style charCase city variant)
  = if test_letter char then 6%nat else 5%nat.
Proof.
  intros Hv. unfold styleVariantPaths.
  destruct (test_letter char); [|destruct (test_digit char)];
    rewrite otherVariants_filter; simpl; rewrite length_map;
    by rewrite (others_length _ Hv).
Qed.

End Candidates.

(** C6: whatever the character, style, case, city and variant, the candidate
    list is non-empty and ends in the global fallback [assets/missing.png];
    that location occurs nowhere else in the list, and the probing loop
    reaches it exactly when every style/variant candidate has failed. *)
Theorem candidates_end_in_global_fallback
    (h : Host) (char style charCase city variant : jsstring) :
  let paths := AssetManager._buildFallbackPaths h char style charCase city variant in
  let styled := AssetManager.styleVariantPaths h char style charCase city variant in
  paths ≠ []
  ∧ last paths = Some (lit "assets/missing.png")
  ∧ paths = styled ++ [lit "assets/missing.png"]
  ∧ (AssetManager.missingPath ∉ styled)
  ∧ ∀ w, AssetManager.tryPaths h paths w =
         match AssetManager.tryPaths h styled w with
         | (Some p, w') => (Some p, w')
         | (None, w') =>
             AssetManager.tryPaths h [lit "assets/missing.png"] w'
         end.
Proof.
  intros paths styled. subst paths styled.
  unfold AssetManager._buildFallbackPaths.
  change AssetManager.missingPath with (lit "assets/missing.png").
  split_and!.
  - intros H. by apply app_eq_nil in H as [_ ?].
  - by rewrite last_snoc.
  - done.
  - apply (missing_not_styleVariant h).
  - intros w. apply tryPaths_app.
Qed.

(** C7: when the request names one of the five variants, the candidates
    before the global fallback number 6 for a letter and 5 for a digit or a
    symbol (any other character). *)
Theorem candidate_count_before_global_fallback
    (h : Host) (char style charCase city variant : jsstring) :
  variantInRange variant →
  ∃ styled,
    AssetManager._buildFallbackPaths h char style charCase city variant
    = styled ++ [lit "assets/missing.png"]
    ∧ (test_letter char = true → length styled = 6%nat)
    ∧ (test_letter char = false → length styled = 5%nat).
Proof.
  intros Hv.
  exists (AssetManager.styleVariantPaths h char style charCase city variant).
  split; [done|].
  rewrite (styleVariantPaths_length h _ _ _ _ _ Hv).
  split; by intros ->.
Qed.

Lemma candidate_count_before_global_fallback_witness :
  variantInRange (lit "3")
  ∧ ∃ styled,
      AssetManager._buildFallbackPaths (hostWhere []) (lit "q") (lit "serif")
        (lit "lower") (lit "NYC") (lit "3")
      = styled ++ [lit "assets/missing.png"]
      ∧ (test_letter (lit "q") = true → length styled = 6%nat)
      ∧ (test_letter (lit "q") = false → length styled = 5%nat).
Proof.
  assert (Hv : variantInRange (lit "3")).
  { apply (bool_decide_unpack _). vm_compute. exact I. }
  split; [exact Hv|].
  apply (candidate_count_before_global_fallback (hostWhere []) (lit "q")
           (lit "serif") (lit "lower") (lit "NYC") (lit "3") Hv).
Defined.

(** ** [get], sequentially *)

Section SequentialGet.
Context (h : Host).
Import AssetManager.

Lemma loadWithFallbacks_cases r am w :
  (∃ path w', tryPaths h (pathsOf h r) w = (Some path, w')
     ∧ _loadWithFallbacks h r am w
       = (Ok path, with_stats incr_loaded am, w'))
  ∨ (∃ w', tryPaths h (pathsOf h r) w = (None, w')
     ∧ _loadWithFallbacks h r am w
       = ((Utils.generateFallbackLetterSVG h (char r) (fullStyleOf r) w').1,
          with_stats incr_fallbacks am,
          (Utils.generateFallbackLetterSVG h (char r) (fullStyleOf r) w').2)).
Proof.
  unfold _loadWithFallbacks.
  destruct (tryPaths h (pathsOf h r) w) as [[path|] w'] eqn:Ht.
  - left. by exists path, w'.
  - right. exists w'. split; [done|].
    by destruct (Utils.generateFallbackLetterSVG _ _ _ _).
Qed.

(** A call that finds the key in neither table starts a load and, in a
    sequential run, stores what the load gives. *)
Lemma get_miss r am w :
  cache am !! cacheKey r = None →
  loadingPromises am !! cacheKey r = None →
  get h r am w =
  match _loadWithFallbacks h r (with_stats incr_requested am) (newPromise w)
  with
  | (Ok url, am1, w1) =>
      (Fulfilled url,
       {| cache := <[cacheKey r := url]> (cache am);
          loadingPromises := loadingPromises am;
          stats := stats am1 |}, w1)
  | (Throw e, am1, w1) =>
      (Rejected e,
       {| cache := cache am; loadingPromises := loadingPromises am;
          stats := stats am1 |}, w1)
  end.
Proof.
  intros Hc Hl. unfold get. simpl. rewrite Hc, Hl.
  destruct (loadWithFallbacks_cases r (with_stats incr_requested am)
              (newPromise w)) as [(path & w' & _ & ->)|(w' & _ & ->)].
  - unfold with_loading, with_cache; simpl.
    by rewrite delete_insert_eq, delete_id.
  - destruct (Utils.generateFallbackLetterSVG _ _ _ _) as [[url|e] w1];
      unfold with_loading, with_cache; simpl;
      by rewrite delete_insert_eq, delete_id.
Qed.

Lemma get_hit r am w url :
  cache am !! cacheKey r = Some url →
  get h r am w
  = (Fulfilled url, with_stats incr_cached (with_stats incr_requested am), w).
Proof. intros Hc. unfold get. simpl. by rewrite Hc. Qed.

(** Whatever [get] fulfils with is in the memo table afterwards. *)
Lemma get_fulfilled_cached r am w url am1 w1 :
  get h r am w = (Fulfilled url, am1, w1) →
  cache am1 !! cacheKey r = Some url.
Proof.
  destruct (cache am !! cacheKey r) as [u|] eqn:Hc.
  - rewrite (get_hit _ _ _ _ Hc). by intros [= <- <- <-].
  - destruct (loadingPromises am !! cacheKey r) as [p|] eqn:Hl.
    + unfold get. simpl. by rewrite Hc, Hl.
    + rewrite (get_miss _ _ _ Hc Hl).
      destruct (_loadWithFallbacks _ _ _ _) as [[[u|e] am'] w']; [|done].
      intros [= <- <- <-]. simpl. apply lookup_insert_eq.
Qed.

Lemma stats_le_refl s : stats_le s s.
Proof. unfold stats_le. lia. Qed.

Lemma stats_le_trans a b c : stats_le a b → stats_le b c → stats_le a c.
Proof. unfold stats_le. lia. Qed.

Lemma get_stats r am w :
  stats_le (stats am) (stats (get h r am w).1.2)
  ∧ failed (stats (get h r am w).1.2) = failed (stats am).
Proof.
  destruct (cache am !! cacheKey r) as [u|] eqn:Hc.
  { rewrite (get_hit _ _ _ _ Hc). unfold stats_le. simpl. lia. }
  destruct (loadingPromises am !! cacheKey r) as [p|] eqn:Hl.
  { unfold get. simpl. rewrite Hc, Hl. unfold stats_le. simpl. lia. }
  rewrite (get_miss _ _ _ Hc Hl).
  destruct (loadWithFallbacks_cases r (with_stats incr_requested am)
              (newPromise w)) as [(path & w' & _ & ->)|(w' & _ & ->)].
  - unfold stats_le. simpl. lia.
  - destruct (Utils.generateFallbackLetterSVG _ _ _ _) as [[url|e] w1];
      unfold stats_le; simpl; lia.
Qed.

Lemma call_stats c s :
  stats_le (stats s.1) (stats (call h c s).1)
  ∧ failed (stats (call h c s).1) = failed (stats s.1).
Proof.
  destruct s as [am w], c as [r|]; simpl.
  - pose proof (get_stats r am w) as Hg.
    by destruct (get h r am w) as [[o am'] w'].
  - split; [apply stats_le_refl | done].
Qed.

Lemma calls_stats cs s :
  stats_le (stats s.1) (stats (calls h cs s).1)
  ∧ failed (stats (calls h cs s).1) = failed (stats s.1).
Proof.
  revert s; induction cs as [|c cs IH]; intros s; simpl.
  - split; [apply stats_le_refl | done].
  - destruct (IH (call h c s)) as [Hle Hf].
    destruct (call_stats c s) as [Hle' Hf'].
    split; [by eapply stats_le_trans | congruence].
Qed.

End SequentialGet.

Section OrderedProbing.
Context (h : Host).
Import AssetManager.

(** On a miss, [get] returns the first candidate whose probe succeeds, having
    probed exactly the candidates up to it, in order. *)
Lemma get_miss_found r am w pre p post :
  cache am !! cacheKey r = None →
  loadingPromises am !! cacheKey r = None →
  pathsOf h r = pre ++ p :: post →
  allFail h (length (probes w)) pre →
  fileExists h (length (probes w) + length pre) p = true →
  get h r am w
  = (Fulfilled p,
     {| cache := <[cacheKey r := p]> (cache am);
        loadingPromises := loadingPromises am;
        stats := incr_loaded (incr_requested (stats am)) |},
     addProbes (pre ++ [p]) (newPromise w)).
Proof.
  intros Hc Hl Hp Hf Hx. rewrite (get_miss h _ _ _ Hc Hl).
  unfold _loadWithFallbacks. rewrite Hp.
  by rewrite (tryPaths_found h pre p post (newPromise w) Hf Hx).
Qed.

Lemma letter_paths r :
  test_letter (char r) = true →
  pathsOf h r
  = [ letterPath (cityOf r) (toUpperCase h (char r))
        (style r ++ lit "-" ++ charCase r) (padStart 2 48 (variantOf r));
      cityFallbackPath (cityOf r) (style r ++ lit "-" ++ charCase r)
        (padStart 2 48 (variantOf r)) ]
    ++ map (letterPath (cityOf r) (toUpperCase h (char r))
              (style r ++ lit "-" ++ charCase r))
         (filter (λ v, v ≠ padStart 2 48 (variantOf r)) fiveVariants)
    ++ [missingPath].
Proof.
  intros Hl. unfold pathsOf, _buildFallbackPaths, styleVariantPaths.
  rewrite Hl, otherVariants_filter. by rewrite <- app_assoc.
Qed.

End OrderedProbing.

(** C4: for a letter, the candidates are the primary city path, the city
    fallback path, then the same letter, style and case at each of the other
    four variants in ascending order, then the global fallback; on a miss
    [get] probes the candidates in that order and returns the first one whose
    probe succeeds, counting it in [loaded].  In particular, where only
    [assets/Alphabet/cities/NYC/fallback/sans-upper/01.jpg] exists, the
    request (A, sans, upper, NYC, 01) gives exactly that path after probing
    the primary path and it, and [loaded] grows by one. *)
Theorem letter_candidates_probed_in_order
    (h : Host) (r : AssetManager.Request) :
  test_letter (AssetManager.char r) = true →
  variantInRange (AssetManager.variantOf r) →
  let city := AssetManager.cityOf r in
  let letter := toUpperCase h (AssetManager.char r) in
  let styleCase :=
    AssetManager.style r ++ lit "-" ++ AssetManager.charCase r in
  let requested := padStart 2 48 (AssetManager.variantOf r) in
  let others := filter (λ v, v ≠ requested) fiveVariants in
  length others = 4%nat
  ∧ AssetManager.pathsOf h r
    = [ AssetManager.letterPath city letter styleCase requested;
        AssetManager.cityFallbackPath city styleCase requested ]
      ++ map (AssetManager.letterPath city letter styleCase) others
      ++ [lit "assets/missing.png"]
  ∧ (∀ am w pre p post,
       AssetManager.cache am !! AssetManager.cacheKey r = None →
       AssetManager.loadingPromises am !! AssetManager.cacheKey r = None →
       AssetManager.pathsOf h r = pre ++ p :: post →
       allFail h (length (probes w)) pre →
       fileExists h (length (probes w) + length pre) p = true →
       ∃ am' w',
         AssetManager.get h r am w = (AssetManager.Fulfilled p, am', w')
         ∧ probes w' = probes w ++ pre ++ [p]
         ∧ AssetManager.loaded (AssetManager.stats am')
           = S (AssetManager.loaded (AssetManager.stats am)))
  ∧ (∀ am w,
       AssetManager.cache am !! AssetManager.cacheKey requestA = None →
       AssetManager.loadingPromises am !! AssetManager.cacheKey requestA
         = None →
       let only :=
         lit "assets/Alphabet/cities/NYC/fallback/sans-upper/01.jpg" in
       ∃ am' w',
         AssetManager.get (hostWhere [only]) requestA am w
         = (AssetManager.Fulfilled only, am', w')
         ∧ probes w'
           = probes w
             ++ [lit "assets/Alphabet/cities/NYC/Alphabet/A/sans-upper/01.jpg";
                 only]
         ∧ AssetManager.loaded (AssetManager.stats am')
           = S (AssetManager.loaded (AssetManager.stats am))).
Proof.
  intros Hl Hv city letter styleCase requested others.
  split_and!.
  - by apply others_length.
  - by apply letter_paths.
  - intros am w pre p post Hc Hlp Hp Hf Hx.
    do 2 eexists. rewrite (get_miss_found h r am w pre p post); try done.
  - intros am w Hc Hlp only.
    do 2 eexists.
    rewrite (get_miss_found (hostWhere [only]) requestA am w
               [lit "assets/Alphabet/cities/NYC/Alphabet/A/sans-upper/01.jpg"]
               only
               (map (AssetManager.letterPath (lit "NYC") (lit "A")
                       (lit "sans-upper"))
                    [lit "02"; lit "03"; lit "04"; lit "05"]
                ++ [lit "assets/missing.png"])); try done.
    intros [|i] q; simpl; [|done]. intros [= <-]. by vm_compute.
Qed.

Lemma letter_candidates_probed_in_order_witness :
  test_letter (lit "A") = true
  ∧ variantInRange (lit "01")
  ∧ AssetManager.pathsOf (hostWhere []) requestA
    = [ lit "assets/Alphabet/cities/NYC/Alphabet/A/sans-upper/01.jpg";
        lit "assets/Alphabet/cities/NYC/fallback/sans-upper/01.jpg";
        lit "assets/Alphabet/cities/NYC/Alphabet/A/sans-upper/02.jpg";
        lit "assets/Alphabet/cities/NYC/Alphabet/A/sans-upper/03.jpg";
        lit "assets/Alphabet/cities/NYC/Alphabet/A/sans-upper/04.jpg";
        lit "assets/Alphabet/cities/NYC/Alphabet/A/sans-upper/05.jpg";
        lit "assets/missing.png" ].
Proof.
  assert (Hl : test_letter (AssetManager.char requestA) = true)
    by reflexivity.
  assert (Hv : variantInRange (AssetManager.variantOf requestA)).
  { apply (bool_decide_unpack _). vm_compute. exact I. }
  split; [exact Hl|]. split; [exact Hv|].
  destruct (letter_candidates_probed_in_order (hostWhere []) requestA Hl Hv)
    as (_ & Hp & _).
  rewrite Hp. vm_compute. reflexivity.
Defined.

(** ** Statistics under interleaving *)

Section InterleavedStats.
Context (h : Host).
Import AssetManager.

Lemma runLoad_stats r probed paths am w :
  stats_le (stats am) (stats (runLoad h r probed paths am w).1.2)
  ∧ failed (stats (runLoad h r probed paths am w).1.2) = failed (stats am).
Proof.
  unfold runLoad. destruct paths as [|path rest].
  - destruct (Utils.generateFallbackLetterSVG _ _ _ _) as [res w'].
    unfold stats_le; simpl. lia.
  - simpl. split; [apply stats_le_refl | done].
Qed.

Lemma step_stats s e :
  stats_le (stats (manager s)) (stats (manager (step h s e)))
  ∧ failed (stats (manager (step h s e))) = failed (stats (manager s)).
Proof.
  destruct e as [r|p|c|]; simpl.
  - unfold stepGet. simpl.
    destruct (cache (manager s) !! cacheKey r) as [url|].
    { unfold stats_le; simpl. lia. }
    destruct (loadingPromises (manager s) !! cacheKey r) as [p|].
    { unfold stats_le; simpl. lia. }
    pose proof (runLoad_stats r [] (pathsOf h r)
                  (with_stats incr_requested (manager s))
                  (newPromise (world s))) as [Hle Hf].
    destruct (runLoad _ _ _ _ _ _) as [[l am] w]. simpl in *.
    split; [|done]. eapply stats_le_trans; [|exact Hle].
    unfold stats_le; simpl. lia.
  - unfold stepProbe.
    destruct (loads s !! p) as [[r probed [path [] rest|res]]|];
      try (split; [apply stats_le_refl | done]).
    + unfold stats_le; simpl. lia.
    + pose proof (runLoad_stats r probed rest (manager s) (world s)) as Hr.
      by destruct (runLoad _ _ _ _ _ _) as [[l am] w].
  - unfold stepResume.
    destruct (callStates s !! c) as [[r p|r p|r via res]|];
      try (split; [apply stats_le_refl | done]);
      destruct (settledResult s p) as [[url|e]|];
      split; try apply stats_le_refl; done.
  - split; [apply stats_le_refl | done].
Qed.

Lemma run_stats es s :
  stats_le (stats (manager s)) (stats (manager (run h s es)))
  ∧ failed (stats (manager (run h s es))) = failed (stats (manager s)).
Proof.
  revert s; induction es as [|e es IH]; intros s; simpl.
  - split; [apply stats_le_refl | done].
  - destruct (IH (step h s e)) as [Hle Hf].
    destruct (step_stats s e) as [Hle' Hf'].
    split; [by eapply stats_le_trans | congruence].
Qed.

End InterleavedStats.

(** C8, as the code has it: every counter is non-decreasing over every
    sequence of [get] and [clearCache] calls, awaited one by one or
    interleaved, and nothing resets a counter: [clearCache] empties the two
    tables and leaves the statistics as they are. *)
Theorem stats_never_decrease_nor_reset (h : Host) :
  (∀ cs am w,
     stats_le (AssetManager.stats am)
       (AssetManager.stats (AssetManager.calls h cs (am, w)).1))
  ∧ (∀ es s,
       stats_le (AssetManager.stats (AssetManager.manager s))
         (AssetManager.stats
            (AssetManager.manager (AssetManager.run h s es))))
  ∧ (∀ am,
       AssetManager.stats (AssetManager.clearCache am) = AssetManager.stats am
       ∧ AssetManager.cache (AssetManager.clearCache am) = ∅
       ∧ AssetManager.loadingPromises (AssetManager.clearCache am) = ∅).
Proof.
  split_and!.
  - intros cs am w. apply (calls_stats h cs (am, w)).
  - intros es s. apply run_stats.
  - done.
Qed.

(** C8, as stated, fails: after one [get] and an explicit [clearCache] the
    counters are not back at their initial values ([requested] and [loaded]
    are still 1). *)
Lemma clearCache_does_not_reset_stats :
  let h := hostWhere [lit "assets/Alphabet/cities/NYC/Alphabet/A/sans-upper/01.jpg"] in
  let after :=
    AssetManager.calls h
      [AssetManager.CallGet requestA; AssetManager.CallClearCache]
      (AssetManager.new, world0) in
  AssetManager.stats after.1 ≠ AssetManager.stats AssetManager.new
  ∧ AssetManager.requested (AssetManager.stats after.1) = 1%nat
  ∧ AssetManager.loaded (AssetManager.stats after.1) = 1%nat.
Proof. by vm_compute. Qed.

(** C10: no operation touches [failed]: after every sequence of [get] and
    [clearCache] calls on a new manager, awaited one by one or interleaved,
    the snapshot of [getStats] has [failed] equal to 0. *)
Theorem failed_is_always_zero (h : Host) :
  (∀ cs w,
     AssetManager.s_failed
       (AssetManager.getStats
          (AssetManager.calls h cs (AssetManager.new, w)).1) = 0%nat)
  ∧ (∀ es,
       AssetManager.s_failed
         (AssetManager.getStats
            (AssetManager.manager
               (AssetManager.run h AssetManager.state0 es))) = 0%nat).
Proof.
  split.
  - intros cs w. simpl.
    by destruct (calls_stats h cs (AssetManager.new, w)) as [_ ->].
  - intros es. simpl.
    by destruct (run_stats h es AssetManager.state0) as [_ ->].
Qed.

(** ** [encodeURIComponent] and the fallback image *)

Section Encoding.
Import Utils.

Lemma encode_cons c rest :
  encode (c :: rest) =
  if uriUnreserved c then cons c <$> encode rest
  else if isLowSurrogate c then None
  else if isHighSurrogate c then
    match rest with
    | d :: rest' =>
        if isLowSurrogate d
        then app (escapeCodePoint (pairCodePoint c d)) <$> encode rest'
        else None
    | [] => None
    end
  else app (escapeCodePoint c) <$> encode rest.
Proof. reflexivity. Qed.

Lemma unreserved_ascii c : uriUnreserved c = true → c < 128.
Proof.
  unfold uriUnreserved, is_lower_unit, is_upper_unit, is_digit_unit, in_range.
  rewrite !orb_true_iff, !andb_true_iff, !N.leb_le, bool_decide_eq_true.
  intros [[[H|H]|H]|H]; try lia.
  revert H. simpl. rewrite !elem_of_cons, elem_of_nil. lia.
Qed.

Lemma ascii_plain c : c < 128 → plain c = true.
Proof.
  intros H. unfold plain, isLowSurrogate, isHighSurrogate, in_range.
  rewrite andb_true_iff, !negb_true_iff, !andb_false_iff, !N.leb_gt. lia.
Qed.

Lemma plain_inv c :
  plain c = true → isLowSurrogate c = false ∧ isHighSurrogate c = false.
Proof.
  unfold plain. rewrite andb_true_iff, !negb_true_iff. tauto.
Qed.

Lemma encode_plain c rest :
  plain c = true → encode (c :: rest) = app (unitEnc c) <$> encode rest.
Proof.
  intros [Hl Hh]%plain_inv. rewrite encode_cons, Hl, Hh. unfold unitEnc.
  destruct (uriUnreserved c); [|done]. by destruct (encode rest).
Qed.

Lemma fmap_app_fmap (x y : jsstring) (o : option jsstring) :
  app x <$> (app y <$> o) = app (x ++ y) <$> o.
Proof. destruct o; simpl; [|done]. by rewrite app_assoc. Qed.

Lemma fmap_cons_fmap (c : N) (y : jsstring) (o : option jsstring) :
  cons c <$> (app y <$> o) = app (c :: y) <$> o.
Proof. by destruct o. Qed.

(** A string that encodes is encoded piecewise before whatever follows. *)
Lemma encode_app_Some_le n a ea b :
  (length a ≤ n)%nat →
  encode a = Some ea → encode (a ++ b) = app ea <$> encode b.
Proof.
  revert a ea; induction n as [|n IH]; intros a ea Hn Ha.
  - destruct a; [|simpl in Hn; lia]. injection Ha as <-.
    rewrite app_nil_l. by destruct (encode b).
  - destruct a as [|c rest].
    { injection Ha as <-. rewrite app_nil_l. by destruct (encode b). }
    simpl in Hn. rewrite encode_cons in Ha.
    rewrite <- app_comm_cons, encode_cons.
    destruct (uriUnreserved c).
    { destruct (encode rest) as [er|] eqn:Hr; [|done].
      injection Ha as <-.
      rewrite (IH rest er) by (done || lia). apply fmap_cons_fmap. }
    destruct (isLowSurrogate c); [done|].
    destruct (isHighSurrogate c).
    + destruct rest as [|d rest']; [done|].
      rewrite <- app_comm_cons.
      destruct (isLowSurrogate d); [|done].
      destruct (encode rest') as [er|] eqn:Hr; [|done].
      injection Ha as <-. simpl in Hn.
      rewrite (IH rest' er) by (done || lia). apply fmap_app_fmap.
    + destruct (encode rest) as [er|] eqn:Hr; [|done].
      injection Ha as <-.
      rewrite (IH rest er) by (done || lia). apply fmap_app_fmap.
Qed.

Lemma encode_app_Some a ea b :
  encode a = Some ea → encode (a ++ b) = app ea <$> encode b.
Proof. by apply (encode_app_Some_le (length a)). Qed.

(** A string that does not encode spoils whatever it is put in front of,
    unless that starts with the low surrogate its last unit was missing. *)
Lemma encode_app_None_le n a b :
  (length a ≤ n)%nat →
  encode a = None → headNotLow b → encode (a ++ b) = None.
Proof.
  revert a; induction n as [|n IH]; intros a Hn Ha Hb.
  - destruct a; [done | simpl in Hn; lia].
  - destruct a as [|c rest]; [done|].
    simpl in Hn. rewrite encode_cons in Ha.
    rewrite <- app_comm_cons, encode_cons.
    destruct (uriUnreserved c).
    { destruct (encode rest) as [er|] eqn:Hr; [done|].
      by rewrite (IH rest) by (done || lia). }
    destruct (isLowSurrogate c); [done|].
    destruct (isHighSurrogate c).
    + destruct rest as [|d rest'].
      { destruct b as [|d b']; [done|]. simpl in *. by rewrite Hb. }
      rewrite <- app_comm_cons.
      destruct (isLowSurrogate d); [|done].
      destruct (encode rest') as [er|] eqn:Hr; [done|]. simpl in Hn.
      by rewrite (IH rest') by (done || lia).
    + destruct (encode rest) as [er|] eqn:Hr; [done|].
      by rewrite (IH rest) by (done || lia).
Qed.

Lemma encode_app_None a b :
  encode a = None → headNotLow b → encode (a ++ b) = None.
Proof. by apply (encode_app_None_le (length a)). Qed.

(** [encodeURIComponent] raises exactly on the strings that are not well
    formed. *)
Lemma encode_wellFormed_le n s :
  (length s ≤ n)%nat → is_Some (encode s) ↔ isWellFormed s = true.
Proof.
  revert s; induction n as [|n IH]; intros s Hn.
  - destruct s; [|simpl in Hn; lia]. split; [done | by eexists].
  - destruct s as [|c rest]; [split; [done | by eexists]|].
    simpl in Hn. rewrite encode_cons. simpl.
    destruct (uriUnreserved c) eqn:Hu.
    { apply unreserved_ascii, ascii_plain, plain_inv in Hu as [-> ->].
      rewrite fmap_is_Some. apply IH. lia. }
    destruct (isLowSurrogate c).
    { split; [by intros [? ?] | done]. }
    destruct (isHighSurrogate c).
    + destruct rest as [|d rest']; [split; [by intros [? ?] | done]|].
      destruct (isLowSurrogate d); simpl.
      * rewrite fmap_is_Some. apply IH. simpl in Hn. lia.
      * split; [by intros [? ?] | done].
    + rewrite fmap_is_Some. apply IH. lia.
Qed.

Lemma encode_wellFormed s : is_Some (encode s) ↔ isWellFormed s = true.
Proof. by apply (encode_wellFormed_le (length s)). Qed.

Lemma encode_illFormed s : isWellFormed s = false → encode s = None.
Proof.
  intros H. destruct (encode s) eqn:He; [|done].
  assert (is_Some (encode s)) as Hs%encode_wellFormed by (by rewrite He).
  congruence.
Qed.

(** A sequence of pieces that each encode is encoded piece by piece. *)
Lemma encode_concat segs encs :
  Forall2 (λ s e, encode s = Some e) segs encs →
  encode (concat segs) = Some (concat encs).
Proof.
  induction 1 as [|s e segs encs Hs _ IH]; [done|]. simpl.
  by rewrite (encode_app_Some _ _ _ Hs), IH.
Qed.

Lemma encode_ascii s : asciiOnly s → is_Some (encode s).
Proof.
  induction 1 as [|c s Hc _ IH]; [by eexists|].
  rewrite (encode_plain _ _ (ascii_plain _ Hc)). by rewrite fmap_is_Some.
Qed.

Lemma encode_pieces segs :
  Forall (λ s, is_Some (encode s)) segs →
  encode (concat segs) = Some (concat (map encOf segs)).
Proof.
  intros H. apply encode_concat. induction H as [|s segs [e He] _ IH]; simpl.
  - constructor.
  - constructor; [|done]. unfold encOf. by rewrite He.
Qed.

Lemma uint_digits_ascii d : asciiOnly (lit (NilEmpty.string_of_uint d)).
Proof.
  induction d; simpl; constructor; try done; by vm_compute.
Qed.

Lemma toString_ascii n : asciiOnly (toString n).
Proof.
  unfold toString, NilZero.string_of_uint.
  destruct (N.to_uint n) eqn:Hd; try (rewrite <- Hd; apply uint_digits_ascii).
  repeat constructor.
Qed.

Ltac ascii_literal := apply (bool_decide_unpack _); vm_compute; exact I.

Lemma font_ascii style : asciiOnly (getSystemFontFallbacks style).
Proof.
  unfold getSystemFontFallbacks, asciiOnly.
  repeat case_bool_decide; ascii_literal.
Qed.

Lemma own_Forall {A} (P : A → Prop) tbl k v :
  Forall (λ kv, P kv.2) tbl → own tbl k = Some v → P v.
Proof.
  induction 1 as [|[k' v'] tbl Hkv _ IH]; simpl; [done|].
  case_bool_decide; [by intros [= <-] | done].
Qed.

Lemma mkColors_ascii f b s :
  asciiOnly (lit f) → asciiOnly (lit b) → asciiOnly (lit s) →
  asciiColors (mkColors f b s).
Proof. intros. unfold asciiColors. simpl. by split_and!. Qed.

Lemma selectColors_ascii h char baseStyle :
  asciiColors (selectColors h char baseStyle).
Proof.
  unfold selectColors.
  destruct (test_digit char);
    [apply mkColors_ascii; unfold asciiOnly; ascii_literal|].
  destruct (test_class svgSymbolClass char);
    [apply mkColors_ascii; unfold asciiOnly; ascii_literal|].
  destruct (own styleColorMap baseStyle) as [c|] eqn:Ho.
  - revert Ho. apply own_Forall.
    repeat constructor; simpl; unfold asciiOnly; ascii_literal.
  - destruct (inherited h baseStyle);
      apply mkColors_ascii; unfold asciiOnly; ascii_literal.
Qed.

Lemma filterId_encodes char n :
  is_Some (encode char) → is_Some (encode (filterIdOf char n)).
Proof.
  intros [ec Hc]. unfold filterIdOf.
  destruct (encode_ascii (lit "shadow_")) as [e1 H1];
    [unfold asciiOnly; ascii_literal|].
  destruct (encode_ascii (lit "_" ++ toString n)) as [e2 H2].
  { apply Forall_app; split; [unfold asciiOnly; ascii_literal|].
    apply toString_ascii. }
  rewrite (encode_app_Some _ _ _ H1), (encode_app_Some _ _ _ Hc), H2.
  by eexists.
Qed.

Lemma filterId_spoiled char n :
  encode char = None → encode (filterIdOf char n) = None.
Proof.
  intros Hc. unfold filterIdOf.
  destruct (encode_ascii (lit "shadow_")) as [e1 H1];
    [unfold asciiOnly; ascii_literal|].
  rewrite (encode_app_Some _ _ _ H1).
  by rewrite (encode_app_None char (lit "_" ++ toString n) Hc).
Qed.

Ltac literal_pieces :=
  repeat first
    [ assumption
    | apply Forall_nil_2
    | apply Forall_cons_2;
      [ first [ assumption
              | apply encode_ascii; unfold asciiOnly; ascii_literal ] | ] ].

Lemma svgPieces_encode filterId font char c :
  is_Some (encode filterId) → is_Some (encode char) →
  asciiOnly font → asciiColors c →
  Forall (λ s, is_Some (encode s)) (svgPieces filterId font char c).
Proof.
  intros Hf Hc Hfont%encode_ascii
    (Hfill%encode_ascii & Hbg%encode_ascii & Hst%encode_ascii).
  unfold svgPieces. literal_pieces.
Qed.

(** The image text holds the character as the content of its [text]
    element. *)
Lemma svgText_embeds filterId font char c :
  ∃ a b,
    svgText filterId font char c
    = a ++ lit ">" ++ char ++ lit "</text>" ++ b.
Proof.
  exists (concat (take 91 (svgPieces filterId font char c)) ++ lit "      "),
    (concat (drop 94 (svgPieces filterId font char c))).
  unfold svgText.
  rewrite <- (take_drop 91 (svgPieces filterId font char c)) at 1.
  rewrite concat_app, <- app_assoc. f_equal.
Qed.

(** For a well-formed character the fallback image is encoded, and the
    encoding holds that of the character. *)
Lemma fallbackSVG_encodes h char style n :
  isWellFormed char = true →
  ∃ e ec a b,
    encode (fallbackSVG h char style n) = Some e
    ∧ encode char = Some ec
    ∧ e = a ++ ec ++ b.
Proof.
  intros Hwf%encode_wellFormed. pose proof Hwf as [ec Hec].
  set (pieces := svgPieces (filterIdOf char n) (getSystemFontFallbacks style)
                   char (selectColors h char (baseStyleOf style))).
  assert (Hall : Forall (λ s, is_Some (encode s)) pieces).
  { apply svgPieces_encode; try done.
    - by apply filterId_encodes.
    - apply font_ascii.
    - apply selectColors_ascii. }
  exists (concat (map encOf pieces)), ec,
    (concat (map encOf (take 92 pieces))),
    (concat (map encOf (drop 93 pieces))).
  split_and!; [by apply encode_pieces | done |].
  rewrite <- (take_drop 92 pieces) at 1.
  rewrite map_app, concat_app. f_equal.
  change (drop 92 pieces) with (char :: drop 93 pieces).
  simpl. unfold encOf at 1. by rewrite Hec.
Qed.

(** For a character with an unpaired surrogate it is not. *)
Lemma fallbackSVG_spoiled h char style n :
  isWellFormed char = false → encode (fallbackSVG h char style n) = None.
Proof.
  intros Hill%encode_illFormed.
  unfold fallbackSVG, svgText.
  set (pieces := svgPieces _ _ _ _).
  rewrite <- (take_drop 17 pieces), concat_app.
  assert (Hpre : is_Some (encode (concat (take 17 pieces)))).
  { eexists. apply encode_pieces. subst pieces. unfold svgPieces.
    cbn [take]. literal_pieces. }
  destruct Hpre as [e Hpre]. rewrite (encode_app_Some _ _ _ Hpre).
  change (drop 17 pieces) with (filterIdOf char n :: drop 18 pieces).
  cbn [concat].
  rewrite (encode_app_None (filterIdOf char n)); [done | | done].
  by apply filterId_spoiled.
Qed.

Lemma generate_wellFormed h char style w :
  isWellFormed char = true →
  ∃ e ec a b,
    generateFallbackLetterSVG h char style w
    = (Ok (dataUrlPrefix ++ e), afterDraw w)
    ∧ encode (fallbackSVG h char style (random10000 h (draws w))) = Some e
    ∧ encode char = Some ec
    ∧ e = a ++ ec ++ b.
Proof.
  intros Hwf.
  destruct (fallbackSVG_encodes h char style (random10000 h (draws w)) Hwf)
    as (e & ec & a & b & He & Hec & Hab).
  exists e, ec, a, b. split_and!; try done.
  unfold generateFallbackLetterSVG, encodeURIComponent. by rewrite He.
Qed.

Lemma generate_illFormed h char style w :
  isWellFormed char = false →
  generateFallbackLetterSVG h char style w = (Throw URIError, afterDraw w).
Proof.
  intros Hill. unfold generateFallbackLetterSVG, encodeURIComponent.
  by rewrite (fallbackSVG_spoiled h char style _ Hill).
Qed.

End Encoding.


(** ** LetterDatabase *)

Section LateLoads.
Import LetterDatabase.

(** A late image changes no entry but its own, and that one only from
    [false] to [true]. *)
Lemma lateLoad_cases path cache p :
  lateLoad path cache !! p = cache !! p
  ∨ (p = path ∧ cache !! p = Some false
     ∧ lateLoad path cache !! p = Some true).
Proof.
  unfold lateLoad. destruct (cache !! path) as [[|]|] eqn:Hc; try by left.
  destruct (decide (p = path)) as [->|Hne].
  - right. by rewrite lookup_insert_eq.
  - left. by rewrite lookup_insert_ne.
Qed.

Lemma lateLoadsOf_cases paths cache p :
  lateLoadsOf paths cache !! p = cache !! p
  ∨ (p ∈ paths ∧ cache !! p = Some false
     ∧ lateLoadsOf paths cache !! p = Some true).
Proof.
  unfold lateLoadsOf. revert cache.
  induction paths as [|path rest IH]; intros cache; [by left|].
  cbn [foldl].
  destruct (IH (lateLoad path cache)) as [->|(Hin & Hf & ->)].
  - destruct (lateLoad_cases path cache p) as [->|(-> & Hf & ->)];
      [by left|].
    right. split_and!; [left | done | done].
  - destruct (lateLoad_cases path cache p) as [E|(_ & _ & E)];
      rewrite E in Hf; [|done].
    right. split_and!; [by right | done | done].
Qed.


Lemma lateLoadsOf_true paths cache p :
  cache !! p = Some true → lateLoadsOf paths cache !! p = Some true.
Proof.
  intros Hp. destruct (lateLoadsOf_cases paths cache p) as [->|(_ & Hf & _)];
    congruence.
Qed.

Lemma lateLoadsOf_is_Some paths cache p :
  is_Some (lateLoadsOf paths cache !! p) ↔ is_Some (cache !! p).
Proof.
  destruct (lateLoadsOf_cases paths cache p) as [->|(_ & -> & ->)];
    [done|]. split; by eexists.
Qed.


End LateLoads.

Section Database.
Context (h : Host).
Import LetterDatabase.

Lemma keepsFormat_refl db : keepsFormat db db.
Proof. by split. Qed.

Lemma keepsFormat_trans db1 db2 db3 :
  keepsFormat db1 db2 → keepsFormat db2 db3 → keepsFormat db1 db3.
Proof. intros [? ?] [? ?]. split; congruence. Qed.

Lemma probedWithin_refl paths w : probedWithin paths w w.
Proof. exists []. split; [by rewrite addProbes_nil | apply sublist_nil_l]. Qed.

Lemma probedWithin_app l1 l2 w1 w2 w3 :
  probedWithin l1 w1 w2 → probedWithin l2 w2 w3 →
  probedWithin (l1 ++ l2) w1 w3.
Proof.
  intros (a & -> & Ha) (b & -> & Hb). exists (a ++ b).
  split; [by rewrite addProbes_app | by apply sublist_app].
Qed.

Lemma pathExists_frame path db w :
  keepsFormat db (pathExists h path db w).1.2
  ∧ probedWithin [path] w (pathExists h path db w).2.
Proof.
  unfold pathExists.
  destruct (pathExistsCache db !! path);
    [split; [apply keepsFormat_refl | apply probedWithin_refl]|].
  case_bool_decide;
    [split; [apply keepsFormat_refl | apply probedWithin_refl]|].
  destruct (checked h db && negb (assetsDetected db));
    [split; [apply keepsFormat_refl | apply probedWithin_refl]|].
  simpl. split; [done|]. by exists [path].
Qed.

(** The loop that stops at the first existing path probes a prefix of its
    list, skipping what the cache answers, and returns the last path it
    looked at. *)
Lemma firstExisting_frame paths db w :
  keepsFormat db (firstExisting h paths db w).1.2
  ∧ match (firstExisting h paths db w).1.1 with
    | Some p =>
        ∃ pre post, paths = pre ++ p :: post
          ∧ probedWithin (pre ++ [p]) w (firstExisting h paths db w).2
    | None => probedWithin paths w (firstExisting h paths db w).2
    end.
Proof.
  revert db w; induction paths as [|path rest IH]; intros db w; simpl.
  - split; [apply keepsFormat_refl | apply probedWithin_refl].
  - pose proof (pathExists_frame path db w) as [Hk Hp].
    destruct (pathExists h path db w) as [[[] db'] w']; simpl in *.
    + split; [done|]. by exists [], rest.
    + destruct (IH db' w') as [Hk' Hp'].
      split; [by eapply keepsFormat_trans|].
      destruct (firstExisting h rest db' w').1.1 as [p|].
      * destruct Hp' as (pre & post & -> & Hp').
        exists (path :: pre), post. split; [done|].
        by apply (probedWithin_app [path] (pre ++ [p]) w w').
      * by apply (probedWithin_app [path] rest w w').
Qed.




Lemma finish_db character styleKey skipFallback found db w :
  (finish h character styleKey skipFallback found db w).1.2 = db.
Proof.
  unfold finish. destruct found; [|done]. destruct skipFallback; [done|].
  by destruct (Utils.generateFallbackLetterSVG _ _ _ _) as [[u|e] w'].
Qed.


Lemma generate_world char style w :
  (Utils.generateFallbackLetterSVG h char style w).2 = afterDraw w.
Proof.
  unfold Utils.generateFallbackLetterSVG.
  by destruct (Utils.encodeURIComponent _).
Qed.

Lemma unsupported_inv character :
  unsupported character = true →
  test_digit character = false ∧ test_symbol character = false
  ∧ test_letter character = false.
Proof.
  unfold unsupported. rewrite !andb_true_iff, !negb_true_iff. tauto.
Qed.

Lemma getLetterPath_unsupported db character styleKey location i :
  unsupported character = true →
  getLetterPath h db character styleKey location i = None.
Proof.
  intros (Hd & Hs & Hl)%unsupported_inv. unfold getLetterPath.
  by rewrite Hd, Hs, Hl.
Qed.

Lemma collect_unsupported character styleKey location indices found db w :
  unsupported character = true →
  collect (existingLetterPath h character styleKey location) indices found
    db w = (found, db, w).
Proof.
  intros Hu. induction indices as [|i rest IH]; simpl; [done|].
  unfold existingLetterPath at 1.
  by rewrite (getLetterPath_unsupported _ _ _ _ _ Hu).
Qed.

(** For an unsupported character [getLetterVariants] issues no probe: it
    goes to the generated image, or to the empty list when told to skip
    it. *)
Lemma getLetterVariants_unsupported character styleKey location db w :
  unsupported character = true →
  (∃ fullStyle,
     getLetterVariants h character styleKey location false db w
     = (match (Utils.generateFallbackLetterSVG h character fullStyle w).1 with
        | Ok svgUrl => Ok [svgUrl]
        | Throw e => Throw e
        end, db, afterDraw w))
  ∧ getLetterVariants h character styleKey location true db w = (Ok [], db, w).
Proof.
  intros Hu. pose proof Hu as (Hd & Hs & Hl)%unsupported_inv.
  unfold getLetterVariants. rewrite Hd, Hs, Hl.
  rewrite andb_false_l, orb_false_l.
  rewrite !(collect_unsupported _ _ _ _ _ _ _ Hu).
  unfold finish. rewrite Hl. split.
  - destruct (checked h db && negb (assetsDetected db) && negb false);
      [exists (styleKey ++ lit "-" ++ caseTypeOf h character)
      | exists styleKey];
      match goal with
      | |- context [Utils.generateFallbackLetterSVG h ?c ?s ?w] =>
          pose proof (generate_world c s w) as Hw;
          destruct (Utils.generateFallbackLetterSVG h c s w) as [[u|e] w']
      end; cbn [fst snd] in *; by subst.
  - by rewrite andb_false_r.
Qed.









End Database.

(** C9: for a character of an unsupported class (no digit, none of the
    thirty symbols, no letter) the resolver [getLetterPath] gives [null],
    for every style, location and variant; its caller [getLetterVariants]
    then has nothing to probe: it issues no probe and goes straight to the
    generated image, or, told to skip it, returns the empty list. *)
Theorem unsupported_character_goes_straight_to_fallback
    (h : Host) (character : jsstring) :
  unsupported character = true →
  (∀ db styleKey location i,
     LetterDatabase.getLetterPath h db character styleKey location i = None)
  ∧ (∀ db styleKey location w,
       ∃ fullStyle,
         LetterDatabase.getLetterVariants h character styleKey location false
           db w
         = (match
              (Utils.generateFallbackLetterSVG h character fullStyle w).1
            with
            | Ok svgUrl => Ok [svgUrl]
            | Throw e => Throw e
            end, db, afterDraw w))
  ∧ (∀ db styleKey location w,
       LetterDatabase.getLetterVariants h character styleKey location true
         db w = (Ok [], db, w)).
Proof.
  intros Hu. split_and!.
  - intros. by apply getLetterPath_unsupported.
  - intros. by apply getLetterVariants_unsupported.
  - intros. by apply getLetterVariants_unsupported.
Qed.

Lemma unsupported_character_goes_straight_to_fallback_witness :
  let h := hostWhere [] in
  unsupported (lit "~") = true
  ∧ (∀ db styleKey location i,
       LetterDatabase.getLetterPath h db (lit "~") styleKey location i = None)
  ∧ (∀ db styleKey location w,
       ∃ fullStyle,
         LetterDatabase.getLetterVariants h (lit "~") styleKey location false
           db w
         = (match
              (Utils.generateFallbackLetterSVG h (lit "~") fullStyle w).1
            with
            | Ok svgUrl => Ok [svgUrl]
            | Throw e => Throw e
            end, db, afterDraw w))
  ∧ (∀ db styleKey location w,
       LetterDatabase.getLetterVariants h (lit "~") styleKey location true
         db w = (Ok [], db, w)).
Proof.
  intros h.
  assert (Hu : unsupported (lit "~") = true) by reflexivity.
  split; [exact Hu|].
  exact (unsupported_character_goes_straight_to_fallback h (lit "~") Hu).
Defined.

(** ** Interleaved calls *)

Section Interleaving.
Context (h : Host).
Import AssetManager.

Lemma consistent_state0 : consistent h state0.
Proof. split; simpl; intros; by simplify_map_eq. Qed.

Lemma runLoad_shape r probed paths am w :
  let out := runLoad h r probed paths am w in
  l_request out.1.1 = r
  ∧ cache out.1.2 = cache am
  ∧ loadingPromises out.1.2 = loadingPromises am
  ∧ (probed ++ paths = pathsOf h r →
     (paths ≠ [] ∨ ∃ pre path, probed = pre ++ [path]) →
     loadOk h out.1.1)
  ∧ (paths ≠ [] → unsettled out.1.1 = true).
Proof.
  unfold runLoad. destruct paths as [|path rest].
  - destruct (Utils.generateFallbackLetterSVG _ _ _ _) as [res w'].
    cbn. split_and!; try done.
    intros Hp _. unfold loadOk; cbn. by rewrite app_nil_r in Hp; subst.
  - cbn. split_and!; try done.
    intros Hp _. unfold loadOk; cbn. split; [by eexists|].
    by rewrite <- app_assoc.
Qed.

Lemma pathsOf_nonempty r : pathsOf h r ≠ [].
Proof.
  unfold pathsOf, _buildFallbackPaths. intros H.
  by apply app_eq_nil in H as [_ ?].
Qed.

Lemma settledResult_Some s p res :
  settledResult s p = Some res ↔
  ∃ l, loads s !! p = Some l ∧ l_state l = Settled res.
Proof.
  unfold settledResult. split.
  - destruct (loads s !! p) as [[r probed [path e rest|res']]|]; try done.
    intros [= <-]. by eexists.
  - intros (l & -> & Hl). destruct l as [r probed st]; simpl in *. by subst.
Qed.

End Interleaving.

Section InterleavingInvariant.
Context (h : Host).
Import AssetManager.

Lemma stepGet_cases r s :
  (∃ url,
     cache (manager s) !! cacheKey r = Some url
     ∧ stepGet h r s
       = {| manager :=
              with_stats incr_cached (with_stats incr_requested (manager s));
            world := world s; loads := loads s;
            callStates := callStates s ++ [Done r None (Ok url)] |})
  ∨ (∃ p,
       cache (manager s) !! cacheKey r = None
       ∧ loadingPromises (manager s) !! cacheKey r = Some p
       ∧ stepGet h r s
         = {| manager := with_stats incr_requested (manager s);
              world := world s; loads := loads s;
              callStates := callStates s ++ [Joined r p] |})
  ∨ (∃ l am w,
       cache (manager s) !! cacheKey r = None
       ∧ loadingPromises (manager s) !! cacheKey r = None
       ∧ runLoad h r [] (pathsOf h r)
           (with_stats incr_requested (manager s)) (newPromise (world s))
         = (l, am, w)
       ∧ stepGet h r s
         = {| manager := with_loading (insert (cacheKey r) (length (loads s))) am;
              world := w; loads := loads s ++ [l];
              callStates := callStates s ++ [Owner r (length (loads s))] |}).
Proof.
  unfold stepGet. cbn [cache loadingPromises with_stats].
  destruct (cache (manager s) !! cacheKey r) as [url|] eqn:Hc.
  { left. by exists url. }
  destruct (loadingPromises (manager s) !! cacheKey r) as [p|] eqn:Hl.
  { right; left. by exists p. }
  right; right.
  destruct (runLoad h r [] (pathsOf h r) _ _) as [[l am] w] eqn:Hr.
  by exists l, am, w.
Qed.

Lemma settledResult_snoc s s' l p res :
  loads s' = loads s ++ [l] →
  settledResult s p = Some res → settledResult s' p = Some res.
Proof.
  rewrite !settledResult_Some. intros -> (l0 & Hl0 & Hs).
  exists l0. split; [|done]. by apply lookup_app_l_Some.
Qed.

Lemma stepGet_consistent r s :
  consistent h s → consistent h (stepGet h r s).
Proof.
  intros [I1 I2 I3 I4 I5 I6 I7].
  destruct (stepGet_cases r s)
    as [(url & Hc & ->)|[(p & Hc & Hl & ->)|(l & am & w & Hc & Hl & Hr & ->)]].
  - split; cbn; try done.
    + intros c r' p' [[_ H]|[_ H]]%lookup_snoc_Some; [eauto | done].
    + intros c1 c2 r1 r2 p'
        [[_ H1]|[_ H1]]%lookup_snoc_Some [[_ H2]|[_ H2]]%lookup_snoc_Some;
        try done; eauto.
    + intros c r' p' res [[_ H]|[_ H]]%lookup_snoc_Some; [|done].
      apply (I6 _ _ _ _ H).
  - split; cbn; try done.
    + intros c r' p' [[_ H]|[_ H]]%lookup_snoc_Some; [eauto | done].
    + intros c1 c2 r1 r2 p'
        [[_ H1]|[_ H1]]%lookup_snoc_Some [[_ H2]|[_ H2]]%lookup_snoc_Some;
        try done; eauto.
    + intros c r' p' res [[_ H]|[_ H]]%lookup_snoc_Some; [|done].
      apply (I6 _ _ _ _ H).
  - pose proof (runLoad_shape h r [] (pathsOf h r)
                  (with_stats incr_requested (manager s))
                  (newPromise (world s))) as Hs.
    rewrite Hr in Hs. cbn in Hs. destruct Hs as (Hreq & Hca & Hlo & Hok & Hun).
    split; cbn.
    + intros p l' [[_ H]|[-> [= <-]]]%lookup_snoc_Some Hu.
      * rewrite Hlo. cbn. rewrite lookup_insert_ne; [by apply I1|].
        intros Heq. specialize (I1 _ _ H Hu). rewrite <- Heq in I1.
        congruence.
      * rewrite Hreq. apply lookup_insert_eq.
    + intros c r' p' [[_ H]|[_ [= <- <-]]]%lookup_snoc_Some.
      * rewrite Hlo. cbn. rewrite lookup_insert_ne; [by eapply I2|].
        intros Heq. specialize (I2 _ _ _ H). rewrite <- Heq in I2.
        congruence.
      * apply lookup_insert_eq.
    + intros c1 c2 r1 r2 p'
        [[Hb1 H1]|[-> H1]]%lookup_snoc_Some
        [[Hb2 H2]|[-> H2]]%lookup_snoc_Some; try done.
      * eauto.
      * injection H2 as <- <-. apply I2, I4 in H1. lia.
      * injection H1 as <- <-. apply I2, I4 in H2. lia.
    + intros k p'. rewrite Hlo, length_app. cbn.
      destruct (decide (k = cacheKey r)) as [->|Hne].
      * rewrite lookup_insert_eq. intros [= <-]. lia.
      * rewrite lookup_insert_ne by done. intros Hk%I4. lia.
    + intros k url. rewrite Hca, Hlo. cbn. intros Hk.
      rewrite lookup_insert_ne; [by eapply I5|]. congruence.
    + intros c r' p' res [[_ H]|[_ H]]%lookup_snoc_Some; [|done].
      eapply settledResult_snoc; [|by eapply I6]. done.
    + intros p l' [[_ H]|[_ [= <-]]]%lookup_snoc_Some; [by eapply I7|].
      apply Hok; [done | left; apply pathsOf_nonempty].
Qed.

Lemma stepProbe_cases p s :
  (∃ r probed path rest,
     loads s !! p
     = Some {| l_request := r; l_probed := probed;
               l_state := Probing path true rest |}
     ∧ stepProbe h p s
       = {| manager := with_stats incr_loaded (manager s); world := world s;
            loads := <[p := {| l_request := r; l_probed := probed;
                               l_state := Settled (Ok path) |}]> (loads s);
            callStates := callStates s |})
  ∨ (∃ r probed path rest l am w,
       loads s !! p
       = Some {| l_request := r; l_probed := probed;
                 l_state := Probing path false rest |}
       ∧ runLoad h r probed rest (manager s) (world s) = (l, am, w)
       ∧ stepProbe h p s
         = {| manager := am; world := w; loads := <[p := l]> (loads s);
              callStates := callStates s |})
  ∨ stepProbe h p s = s.
Proof.
  unfold stepProbe.
  destruct (loads s !! p) as [[r probed [path [] rest|res]]|] eqn:Hp;
    [left | right; left | by right; right | by right; right].
  - by exists r, probed, path, rest.
  - destruct (runLoad h r probed rest (manager s) (world s))
      as [[l am] w] eqn:Hr.
    by exists r, probed, path, rest, l, am, w.
Qed.

Lemma settledResult_insert s s' p l l' q res :
  loads s !! p = Some l → unsettled l = true →
  loads s' = <[p := l']> (loads s) →
  settledResult s q = Some res → settledResult s' q = Some res.
Proof.
  rewrite !settledResult_Some. intros Hp Hu -> (l0 & Hq & Hs).
  exists l0. split; [|done].
  destruct (decide (p = q)) as [->|Hne].
  - rewrite Hp in Hq. injection Hq as ->.
    unfold unsettled in Hu. by rewrite Hs in Hu.
  - by rewrite list_lookup_insert_ne.
Qed.

Lemma stepProbe_consistent p s :
  consistent h s → consistent h (stepProbe h p s).
Proof.
  intros Hs. pose proof Hs as [I1 I2 I3 I4 I5 I6 I7].
  destruct (stepProbe_cases p s)
    as [(r & probed & path & rest & Hp & ->)
       |[(r & probed & path & rest & l & am & w & Hp & Hr & ->)| ->]];
    [| |done].
  - split; cbn; try done.
    + intros q l' [(-> & <- & _)|[Hne H]]%list_lookup_insert_Some Hu;
        [done | by apply I1].
    + intros k q. rewrite length_insert. apply I4.
    + intros c r' q res H. eapply (settledResult_insert s); eauto.
    + intros q l' [(-> & <- & _)|[Hne H]]%list_lookup_insert_Some;
        [|by eapply I7].
      specialize (I7 _ _ Hp) as [_ Hpaths]. unfold loadOk; cbn in *.
      rewrite <- Hpaths. by apply prefix_app_r.
  - pose proof (runLoad_shape h r probed rest (manager s) (world s)) as Hsh.
    rewrite Hr in Hsh. cbn in Hsh.
    destruct Hsh as (Hreq & Hca & Hlo & Hok & Hun).
    specialize (I7 _ _ Hp) as [[pre Hpre] Hpaths]. cbn in *.
    split; cbn; rewrite ?Hca, ?Hlo; try done.
    + intros q l' [(-> & <- & _)|[Hne H]]%list_lookup_insert_Some Hu;
        [|by apply I1].
      rewrite Hreq. by apply (I1 _ _ Hp).
    + intros k q. rewrite length_insert. apply I4.
    + intros c r' q res H. eapply (settledResult_insert s); eauto.
    + intros q l' [(-> & <- & _)|[Hne H]]%list_lookup_insert_Some;
        [|by eapply (inv_load h s Hs)].
      apply Hok; [done|]. right. by exists pre, path.
Qed.

Lemma stepResume_cases c s :
  (∃ r p url,
     callStates s !! c = Some (Owner r p)
     ∧ settledResult s p = Some (Ok url)
     ∧ stepResume c s
       = {| manager :=
              with_loading (delete (cacheKey r))
                (with_cache (insert (cacheKey r) url) (manager s));
            world := world s; loads := loads s;
            callStates :=
              <[c := Done r (Some p) (Ok url)]> (callStates s) |})
  ∨ (∃ r p e,
       callStates s !! c = Some (Owner r p)
       ∧ settledResult s p = Some (Throw e)
       ∧ stepResume c s
         = {| manager := with_loading (delete (cacheKey r)) (manager s);
              world := world s; loads := loads s;
              callStates :=
                <[c := Done r (Some p) (Throw e)]> (callStates s) |})
  ∨ (∃ r p res,
       callStates s !! c = Some (Joined r p)
       ∧ settledResult s p = Some res
       ∧ stepResume c s
         = {| manager := manager s; world := world s; loads := loads s;
              callStates := <[c := Done r (Some p) res]> (callStates s) |})
  ∨ stepResume c s = s.
Proof.
  unfold stepResume.
  destruct (callStates s !! c) as [[r p|r p|r via res]|] eqn:Hc;
    try (by do 3 right).
  - destruct (settledResult s p) as [[url|e]|] eqn:Hp;
      [left | right; left | by do 3 right].
    + by exists r, p, url.
    + by exists r, p, e.
  - destruct (settledResult s p) as [res|] eqn:Hp; [|by do 3 right].
    right; right; left. by exists r, p, res.
Qed.

Lemma settled_not_unsettled s p res l :
  settledResult s p = Some res → loads s !! p = Some l →
  unsettled l = true → False.
Proof.
  rewrite settledResult_Some. intros (l0 & Hl0 & Hs) Hl Hu.
  rewrite Hl in Hl0. injection Hl0 as <-.
  unfold unsettled in Hu. by rewrite Hs in Hu.
Qed.

(** When the owner of a settled load runs on, no other call and no load in
    flight has its key. *)
Lemma owner_resume_frame s c r p res :
  consistent h s →
  callStates s !! c = Some (Owner r p) →
  settledResult s p = Some res →
  (∀ q l, loads s !! q = Some l → unsettled l = true →
          cacheKey (l_request l) ≠ cacheKey r)
  ∧ (∀ c' r' p', c' ≠ c → callStates s !! c' = Some (Owner r' p') →
                 cacheKey r' ≠ cacheKey r).
Proof.
  intros [I1 I2 I3 I4 I5 I6 I7] Hc Hp. split.
  - intros q l Hq Hu Heq. specialize (I1 _ _ Hq Hu).
    rewrite Heq, (I2 _ _ _ Hc) in I1. injection I1 as ->.
    by eapply settled_not_unsettled.
  - intros c' r' p' Hne Hc' Heq. specialize (I2 _ _ _ Hc') as Hl'.
    rewrite Heq, (I2 _ _ _ Hc) in Hl'. injection Hl' as ->.
    by specialize (I3 _ _ _ _ _ Hc Hc').
Qed.

Lemma stepResume_consistent c s :
  consistent h s → consistent h (stepResume c s).
Proof.
  intros Hs. pose proof Hs as [I1 I2 I3 I4 I5 I6 I7].
  destruct (stepResume_cases c s)
    as [(r & p & url & Hc & Hp & ->)
       |[(r & p & e & Hc & Hp & ->)
        |[(r & p & res & Hc & Hp & ->)| ->]]]; [| | |done].
  - destruct (owner_resume_frame s c r p _ Hs Hc Hp) as [Hloads Hcalls].
    split; cbn.
    + intros q l Hq Hu. rewrite lookup_delete_ne; eauto.
      intros Heq. by eapply Hloads.
    + intros c' r' p' [(_ & [=] & _)|[Hne H]]%list_lookup_insert_Some.
      rewrite lookup_delete_ne; eauto.
      intros Heq. by eapply (Hcalls c').
    + intros c1 c2 r1 r2 q
        [(_ & [=] & _)|[_ H1]]%list_lookup_insert_Some
        [(_ & [=] & _)|[_ H2]]%list_lookup_insert_Some. eauto.
    + intros k q [_ Hk]%lookup_delete_Some. eauto.
    + intros k u. destruct (decide (k = cacheKey r)) as [->|Hne].
      * intros _. apply lookup_delete_eq.
      * rewrite lookup_insert_ne, lookup_delete_ne by done. apply I5.
    + intros c' r' q res
        [(_ & [= <- <- <-] & _)|[_ H]]%list_lookup_insert_Some; [done|].
      by eapply I6.
    + done.
  - destruct (owner_resume_frame s c r p _ Hs Hc Hp) as [Hloads Hcalls].
    split; cbn.
    + intros q l Hq Hu. rewrite lookup_delete_ne; eauto.
      intros Heq. by eapply Hloads.
    + intros c' r' p' [(_ & [=] & _)|[Hne H]]%list_lookup_insert_Some.
      rewrite lookup_delete_ne; eauto.
      intros Heq. by eapply (Hcalls c').
    + intros c1 c2 r1 r2 q
        [(_ & [=] & _)|[_ H1]]%list_lookup_insert_Some
        [(_ & [=] & _)|[_ H2]]%list_lookup_insert_Some. eauto.
    + intros k q [_ Hk]%lookup_delete_Some. eauto.
    + intros k u Hk. destruct (decide (k = cacheKey r)) as [->|Hne].
      * apply lookup_delete_eq.
      * rewrite lookup_delete_ne by done. by eapply I5.
    + intros c' r' q res
        [(_ & [= <- <- <-] & _)|[_ H]]%list_lookup_insert_Some; [done|].
      by eapply I6.
    + done.
  - split; cbn; try done.
    + intros c' r' p' [(_ & [=] & _)|[Hne H]]%list_lookup_insert_Some. eauto.
    + intros c1 c2 r1 r2 q
        [(_ & [=] & _)|[_ H1]]%list_lookup_insert_Some
        [(_ & [=] & _)|[_ H2]]%list_lookup_insert_Some. eauto.
    + intros c' r' q res'
        [(_ & [= <- <- <-] & _)|[_ H]]%list_lookup_insert_Some; [done|].
      by eapply I6.
Qed.

(** Every interleaving without [clearCache] keeps the state consistent. *)
Lemma run_consistent es s :
  forallb (λ e, negb (isClear e)) es = true →
  consistent h s → consistent h (run h s es).
Proof.
  revert s; induction es as [|e es IH]; intros s Hes Hs; [done|].
  simpl in Hes. apply andb_true_iff in Hes as [He Hes].
  simpl. apply IH; [done|].
  destruct e; simpl; try done.
  - by apply stepGet_consistent.
  - by apply stepProbe_consistent.
  - by apply stepResume_consistent.
Qed.

Lemma filter_at_most_one {A} (P : A → Prop) `{∀ x, Decision (P x)}
    (l : list A) :
  (∀ i j x y, l !! i = Some x → l !! j = Some y → P x → P y → i = j) →
  (length (filter P l) ≤ 1)%nat.
Proof.
  induction l as [|a l IH]; intros Huniq; [simpl; lia|].
  rewrite filter_cons. destruct (decide (P a)) as [Ha|Ha].
  - assert (Hnone : filter P l = []).
    { destruct (filter P l) as [|x l'] eqn:Hf; [done|].
      assert (Hx : x ∈ filter P l) by (rewrite Hf; left).
      apply list_elem_of_filter in Hx as [Hpx Hx].
      apply list_elem_of_lookup in Hx as [j Hj].
      by specialize (Huniq 0%nat (S j) a x eq_refl Hj Ha Hpx). }
    rewrite Hnone. simpl. lia.
  - apply IH. intros i j x y Hi Hj Hx Hy.
    specialize (Huniq (S i) (S j) x y Hi Hj Hx Hy). lia.
Qed.

Lemma consistent_inFlight s key :
  consistent h s → (length (inFlight s key) ≤ 1)%nat.
Proof.
  intros [I1 _ _ _ _ _ _]. unfold inFlight. apply filter_at_most_one.
  intros i j x y Hi Hj [Hx Hkx] [Hy Hky].
  pose proof (I1 _ _ Hi Hx) as H1. pose proof (I1 _ _ Hj Hy) as H2.
  rewrite Hkx in H1. rewrite Hky in H2. congruence.
Qed.

Lemma loadOk_probed l :
  loadOk h l →
  l_probed l `prefix_of` pathsOf h (l_request l) ∧ NoDup (l_probed l).
Proof.
  intros Hok.
  assert (Hpre : l_probed l `prefix_of` pathsOf h (l_request l)).
  { unfold loadOk in Hok. destruct (l_state l) as [path e rest|res]; [|done].
    destruct Hok as [_ <-]. by apply prefix_app_r. }
  split; [done|]. destruct Hpre as [k Hk].
  pose proof (buildFallbackPaths_NoDup h (char (l_request l))
                (style (l_request l)) (charCase (l_request l))
                (cityOf (l_request l)) (variantOf (l_request l))) as Hnd.
  fold (pathsOf h (l_request l)) in Hnd. rewrite Hk in Hnd.
  by apply NoDup_app in Hnd as [? _].
Qed.

(** A call for the key of a load in flight joins it: it starts no load and
    issues no probe. *)
Lemma get_joins_load_in_flight s r p l :
  consistent h s →
  loads s !! p = Some l → unsettled l = true →
  cacheKey (l_request l) = cacheKey r →
  stepGet h r s
  = {| manager := with_stats incr_requested (manager s);
       world := world s; loads := loads s;
       callStates := callStates s ++ [Joined r p] |}.
Proof.
  intros [I1 _ _ _ I5 _ _] Hp Hu Hk. specialize (I1 _ _ Hp Hu).
  rewrite Hk in I1.
  destruct (stepGet_cases r s)
    as [(url & Hc & ->)|[(p' & Hc & Hl & ->)|(l' & am & w & Hc & Hl & _)]].
  - apply I5 in Hc. congruence.
  - congruence.
  - congruence.
Qed.

Lemma done_same_result s c1 c2 r1 r2 p res1 res2 :
  consistent h s →
  callStates s !! c1 = Some (Done r1 (Some p) res1) →
  callStates s !! c2 = Some (Done r2 (Some p) res2) →
  res1 = res2.
Proof.
  intros [_ _ _ _ _ I6 _] H1%I6 H2%I6. congruence.
Qed.

(** Every probe the page has issued belongs to one load. *)
Lemma concat_probed_insert (ls : list Load) p l l' extra :
  ls !! p = Some l → l_probed l' = l_probed l ++ extra →
  concat (l_probed <$> <[p := l']> ls)
    ≡ₚ concat (l_probed <$> ls) ++ extra.
Proof.
  intros Hp Hl'.
  rewrite <- (take_drop_middle ls p l Hp) at 2.
  rewrite insert_take_drop by (by eapply lookup_lt_Some).
  rewrite !fmap_app, !fmap_cons, !concat_app. simpl. rewrite Hl'.
  rewrite <- !app_assoc. f_equiv. f_equiv. apply Permutation_app_comm.
Qed.

Lemma runLoad_probes r probed paths am w :
  let out := runLoad h r probed paths am w in
  ∃ extra, l_probed out.1.1 = probed ++ extra
           ∧ probes out.2 = probes w ++ extra.
Proof.
  unfold runLoad. destruct paths as [|path rest].
  - pose proof (generate_world h (char r) (fullStyleOf r) w) as Hw.
    destruct (Utils.generateFallbackLetterSVG _ _ _ _) as [res w'].
    cbn in *. subst. exists []. by rewrite !app_nil_r.
  - cbn. by exists [path].
Qed.

Lemma step_probes_perm s e :
  probes (world s) ≡ₚ concat (l_probed <$> loads s) →
  probes (world (step h s e)) ≡ₚ concat (l_probed <$> loads (step h s e)).
Proof.
  intros Hs. destruct e as [r|p|c|]; simpl; [| | |done].
  - destruct (stepGet_cases r s)
      as [(url & Hc & ->)|[(p & Hc & Hl & ->)|(l & am & w & Hc & Hl & Hr & ->)]];
      try done.
    destruct (runLoad_probes r [] (pathsOf h r)
                (with_stats incr_requested (manager s))
                (newPromise (world s))) as (extra & Hp & Hw).
    rewrite Hr in Hp, Hw. cbn [fst snd world loads] in *.
    rewrite Hw, fmap_app, concat_app. simpl. rewrite Hp. simpl.
    by rewrite app_nil_r, Hs.
  - destruct (stepProbe_cases p s)
      as [(r & probed & path & rest & Hp & ->)
         |[(r & probed & path & rest & l & am & w & Hp & Hr & ->)| ->]];
      [| |done]; cbn.
    + rewrite (concat_probed_insert _ _ _ _ [] Hp); cbn;
        by rewrite app_nil_r.
    + destruct (runLoad_probes r probed rest (manager s) (world s))
        as (extra & Hpe & Hw).
      rewrite Hr in Hpe, Hw. cbn in *.
      rewrite (concat_probed_insert _ _ _ _ extra Hp); [|done].
      by rewrite Hw, Hs.
  - destruct (stepResume_cases c s)
      as [(r & p & url & Hc & Hp & ->)
         |[(r & p & e & Hc & Hp & ->)
          |[(r & p & res & Hc & Hp & ->)| ->]]]; done.
Qed.

Lemma run_probes_perm es s :
  probes (world s) ≡ₚ concat (l_probed <$> loads s) →
  probes (world (run h s es)) ≡ₚ concat (l_probed <$> loads (run h s es)).
Proof.
  revert s; induction es as [|e es IH]; intros s Hs; [done|].
  simpl. by apply IH, step_probes_perm.
Qed.

End InterleavingInvariant.

(** ** Agreement of the two semantics *)

Section Agreement.
Context (h : Host).
Import AssetManager.

Lemma loadWithFallbacks_loadFrom r am w :
  _loadWithFallbacks h r am w = loadFrom h r (pathsOf h r) am w.
Proof.
  unfold _loadWithFallbacks, loadFrom.
  destruct (tryPaths h (pathsOf h r) w) as [[path|] w']; [done|].
  by destruct (Utils.generateFallbackLetterSVG _ _ _ _).
Qed.

Lemma run_cons s e es : run h s (e :: es) = run h (step h s e) es.
Proof. reflexivity. Qed.

Lemma stepProbe_idle p s :
  (∀ l, loads s !! p = Some l → unsettled l = false) →
  stepProbe h p s = s.
Proof.
  intros Hidle. unfold stepProbe.
  destruct (loads s !! p) as [[r probed [path e rest|res]]|]; try done.
  by specialize (Hidle _ eq_refl).
Qed.

Lemma run_probe_idle n p s :
  (∀ l, loads s !! p = Some l → unsettled l = false) →
  run h s (replicate n (EvProbe p)) = s.
Proof.
  intros Hidle. induction n as [|n IH]; [done|].
  simpl. by rewrite stepProbe_idle.
Qed.

(** Driving a suspended load with probe completions gives what the loop of
    [_loadWithFallbacks] gives when it runs without interruption. *)
Lemma run_probing rest : ∀ s p r probed path w0 n,
  loads s !! p
  = Some {| l_request := r; l_probed := probed;
            l_state := Probing path (imageProbe h path w0).1 rest |} →
  world s = (imageProbe h path w0).2 →
  (length rest < n)%nat →
  let s' := run h s (replicate n (EvProbe p)) in
  let out := loadFrom h r (path :: rest) (manager s) w0 in
  manager s' = out.1.2 ∧ world s' = out.2
  ∧ settledResult s' p = Some out.1.1
  ∧ callStates s' = callStates s
  ∧ length (loads s') = length (loads s).
Proof.
  induction rest as [|path2 rest IH];
    intros s p r probed path w0 n Hp Hw Hn;
    (destruct n as [|n]; [simpl in Hn; lia|]);
    pose proof (lookup_lt_Some _ _ _ Hp) as Hlt;
    change (replicate (S n) (EvProbe p))
      with (EvProbe p :: replicate n (EvProbe p));
    rewrite run_cons; cbn [step]; unfold stepProbe, loadFrom;
    cbn [tryPaths]; unfold Utils.checkFileExists;
    destruct (imageProbe h path w0) as [e w1] eqn:Hprobe;
    cbn [fst snd] in Hp, Hw; rewrite Hp; destruct e.
  1, 3: rewrite run_probe_idle;
    [ cbn; rewrite length_insert, Hw; split_and!; try done;
      unfold settledResult; cbn; by rewrite list_lookup_insert_eq
    | cbn; intros l; rewrite list_lookup_insert_eq by done;
      by intros [= <-] ].
  - unfold runLoad. rewrite Hw.
    pose proof (generate_world h (char r) (fullStyleOf r) w1) as Hg.
    destruct (Utils.generateFallbackLetterSVG h (char r) (fullStyleOf r) w1)
      as [res w2] eqn:Hgen. cbn [fst snd] in *.
    rewrite run_probe_idle.
    + cbn. rewrite length_insert. split_and!; try done.
      unfold settledResult; cbn. by rewrite list_lookup_insert_eq.
    + cbn. intros l. rewrite list_lookup_insert_eq by done.
      by intros [= <-].
  - unfold runLoad, Utils.checkFileExists. rewrite Hw.
    destruct (imageProbe h path2 w1) as [e2 w2] eqn:Hprobe2.
    match goal with
    | |- context [run h ?s1 _] =>
        specialize (IH s1 p r (probed ++ [path2]) path2 w1 n)
    end.
    rewrite Hprobe2 in IH. cbn [fst snd loads world manager callStates] in IH.
    rewrite list_lookup_insert_eq, length_insert in IH by done.
    simpl in Hn. specialize (IH eq_refl eq_refl ltac:(lia)).
    unfold loadFrom in IH. cbn [tryPaths] in IH.
    unfold Utils.checkFileExists in IH.
    rewrite Hprobe2 in IH. exact IH.
Qed.

Lemma run_app s es1 es2 : run h s (es1 ++ es2) = run h (run h s es1) es2.
Proof. apply foldl_app. Qed.

Lemma loadFrom_shape r paths w :
  ∃ res f w', ∀ am, loadFrom h r paths am w = (res, with_stats f am, w').
Proof.
  unfold loadFrom. destruct (tryPaths h paths w) as [[path|] w'].
  - by exists (Ok path), incr_loaded, w'.
  - by eexists _, incr_fallbacks, _.
Qed.

(** The sequential [get] is the interleaved one in the schedule where the
    call's own events follow it at once: the call, the completions of its
    probes, its resumption. *)
Lemma get_as_run r s :
  loadingPromises (manager s) !! cacheKey r = None →
  let out := get h r (manager s) (world s) in
  let s' :=
    run h s
      (EvGet r
       :: replicate (length (pathsOf h r)) (EvProbe (length (loads s)))
       ++ [EvResume (length (callStates s))]) in
  manager s' = out.1.2 ∧ world s' = out.2
  ∧ ∃ via res,
      callStates s' !! length (callStates s) = Some (Done r via res)
      ∧ settlesAs out.1.1 res.
Proof.
  intros Hl out s'. subst out s'. rewrite run_cons, run_app. cbn [step].
  destruct (stepGet_cases h r s)
    as [(url & Hc & ->)|[(p & Hc & Hl' & _)|(l & am & w & Hc & _ & Hr & ->)]];
    [| congruence |].
  - rewrite (get_hit h _ _ _ _ Hc).
    rewrite run_probe_idle.
    2:{ cbn. intros l Hlook. apply lookup_lt_Some in Hlook. lia. }
    cbn [run foldl step]. unfold stepResume. cbn [callStates].
    rewrite lookup_app_r, Nat.sub_diag by done. cbn.
    split_and!; try done. exists None, (Ok url).
    by rewrite lookup_app_r, Nat.sub_diag.
  - rewrite (get_miss h _ _ _ Hc Hl), loadWithFallbacks_loadFrom.
    destruct (pathsOf h r) as [|path rest] eqn:Hpaths;
      [by apply pathsOf_nonempty in Hpaths|].
    unfold runLoad, Utils.checkFileExists, imageProbe in Hr.
    injection Hr as <- <- <-.
    set (s1 := {| manager := _; world := _; loads := _; callStates := _ |}).
    assert (Hp1 : loads s1 !! length (loads s)
                  = Some {| l_request := r; l_probed := [] ++ [path];
                            l_state :=
                              Probing path
                                (imageProbe h path (newPromise (world s))).1
                                rest |}).
    { subst s1. cbn [loads]. by rewrite lookup_app_r, Nat.sub_diag. }
    assert (Hw1 : world s1 = (imageProbe h path (newPromise (world s))).2)
      by done.
    destruct (run_probing rest s1 _ _ _ _ _ (length (path :: rest))
                Hp1 Hw1 ltac:(simpl; lia)) as (Hm & Hw & Hset & Hcs & _).
    destruct (loadFrom_shape r (path :: rest) (newPromise (world s)))
      as (res & f & w' & Hshape).
    rewrite Hshape in Hm, Hw, Hset. rewrite Hshape. cbn [fst snd] in *.
    cbn [run foldl step]. unfold stepResume. rewrite Hcs. subst s1.
    cbn [callStates].
    rewrite lookup_app_r, Nat.sub_diag by done. cbn [lookup list_lookup].
    rewrite Hset.
    destruct res as [url|err]; cbn [manager world callStates fst snd];
      rewrite Hm, Hw; unfold with_loading, with_cache, with_stats;
      cbn [cache loadingPromises stats manager];
      rewrite delete_insert_eq, delete_id by done;
      (split_and!; [done | done |]);
      eexists _, _;
      (split;
       [ apply list_lookup_insert_eq; rewrite length_app; simpl; lia
       | done ]).
Qed.

End Agreement.

(** C2, as the code has it: in every interleaving of [get] calls, probe
    completions and resumptions in which [clearCache] is not called, at most
    one load per cache key is in flight; a load probes a duplicate-free
    prefix of its candidate list, every probe issued belongs to one load, a
    call made for the key of a load in flight joins that load without
    starting a probe, and all calls that took the result of one load hold
    the same result. *)
Theorem one_load_in_flight_per_key (h : Host) (es : list AssetManager.Event) :
  forallb (λ e, negb (AssetManager.isClear e)) es = true →
  let s := AssetManager.run h AssetManager.state0 es in
  (∀ key, (length (AssetManager.inFlight s key) ≤ 1)%nat)
  ∧ (∀ p l,
       AssetManager.loads s !! p = Some l →
       AssetManager.l_probed l
         `prefix_of` AssetManager.pathsOf h (AssetManager.l_request l)
       ∧ NoDup (AssetManager.l_probed l))
  ∧ probes (AssetManager.world s)
      ≡ₚ concat (AssetManager.l_probed <$> AssetManager.loads s)
  ∧ (∀ r p l,
       AssetManager.loads s !! p = Some l →
       AssetManager.unsettled l = true →
       AssetManager.cacheKey (AssetManager.l_request l)
       = AssetManager.cacheKey r →
       let s' := AssetManager.step h s (AssetManager.EvGet r) in
       AssetManager.loads s' = AssetManager.loads s
       ∧ AssetManager.world s' = AssetManager.world s
       ∧ AssetManager.callStates s'
         = AssetManager.callStates s ++ [AssetManager.Joined r p])
  ∧ (∀ c1 c2 r1 r2 p res1 res2,
       AssetManager.callStates s !! c1
       = Some (AssetManager.Done r1 (Some p) res1) →
       AssetManager.callStates s !! c2
       = Some (AssetManager.Done r2 (Some p) res2) →
       res1 = res2).
Proof.
  intros Hes s.
  assert (Hs : consistent h s)
    by (apply run_consistent; [done | apply consistent_state0]).
  split_and!.
  - intros key. by apply (consistent_inFlight h).
  - intros p l Hl. apply loadOk_probed. by eapply (inv_load h s Hs).
  - by apply run_probes_perm.
  - intros r p l Hl Hu Hk s'. subst s'. simpl.
    by rewrite (get_joins_load_in_flight h s r p l Hs Hl Hu Hk).
  - intros c1 c2 r1 r2 p res1 res2 H1 H2.
    by apply (done_same_result h s _ _ _ _ _ _ _ Hs H1 H2).
Qed.

Lemma one_load_in_flight_per_key_witness :
  let h := hostWhere [lit "assets/Alphabet/cities/NYC/fallback/sans-upper/01.jpg"] in
  let es :=
    [ AssetManager.EvGet requestA; AssetManager.EvGet requestA;
      AssetManager.EvProbe 0; AssetManager.EvProbe 0;
      AssetManager.EvResume 1; AssetManager.EvResume 0 ] in
  forallb (λ e, negb (AssetManager.isClear e)) es = true
  ∧ ∀ key,
      (length (AssetManager.inFlight
                 (AssetManager.run h AssetManager.state0 es) key) ≤ 1)%nat.
Proof.
  intros h es. split; [reflexivity|].
  apply (one_load_in_flight_per_key h es eq_refl).
Defined.

(** C2, as stated, fails: when [clearCache] is called while a load is in
    flight, the next [get] for the same key starts a second load next to the
    first, and the same candidate is probed twice; if only the second of
    these probes succeeds, the two concurrent calls finish with different
    results, the second with the path and the first with a generated
    image. *)
Lemma clearCache_allows_a_second_load :
  let h :=
    {| fileExists := λ n _, bool_decide (n = 1%nat);
       random10000 := λ _, 7;
       inherited := λ _, None;
       unicodeUpper := λ s, s;
       lateLoads := λ _, [] |} in
  let primary := lit "assets/Alphabet/cities/NYC/Alphabet/A/sans-upper/01.jpg" in
  let s :=
    AssetManager.run h AssetManager.state0
      [ AssetManager.EvGet requestA; AssetManager.EvClearCache;
        AssetManager.EvGet requestA ] in
  let s' :=
    AssetManager.run h s
      ([ AssetManager.EvProbe 1; AssetManager.EvResume 1 ]
       ++ replicate 7 (AssetManager.EvProbe 0) ++ [AssetManager.EvResume 0]) in
  length (AssetManager.inFlight s (AssetManager.cacheKey requestA)) = 2%nat
  ∧ probes (AssetManager.world s) = [primary; primary]
  ∧ match AssetManager.callStates s' with
    | [ AssetManager.Done _ (Some 0%nat) (Ok first);
        AssetManager.Done _ (Some 1%nat) (Ok second) ] =>
        second = primary ∧ take 18 first = lit "data:image/svg+xml"
    | _ => False
    end.
Proof. by vm_compute. Qed.

Section DecorativeLayouts.
Context (h : Host).
Import LetterDatabase.






Lemma plainKeys_hostWhere existing : plainKeys (hostWhere existing).
Proof. by intros p _. Qed.


End DecorativeLayouts.


(** The layout that a new database learns, where two of the six paths
    exist: the earlier one in the order of the check. *)
Example new_learns_the_earlier_of_two_layouts :
  let h :=
    hostWhere
      [ lit "assets/Alphabet/cities/NYC/Alphabet/Q/Display/Decorative-upper/01.jpg";
        lit "assets/Alphabet/cities/NYC/Alphabet/A/Decorative-upper/01.jpg" ] in
  plainKeys h
  ∧ LetterDatabase.decorativePathFormat (LetterDatabase.new h world0).1
    = Some (lit "assets/Alphabet/cities/NYC/Alphabet/A/Decorative-upper/01.jpg").
Proof. intros h. split; [by intros p _|]. vm_compute. reflexivity. Qed.


(** ** Exceptions *)

Section NoThrow.
Context (h : Host).
Import AssetManager.

Lemma runLoad_noThrow r probed paths am w e :
  Utils.isWellFormed (char r) = true →
  l_state (runLoad h r probed paths am w).1.1 ≠ Settled (Throw e).
Proof.
  intros Hwf. unfold runLoad. destruct paths as [|path rest]; [|done].
  destruct (generate_wellFormed h (char r) (fullStyleOf r) w Hwf)
    as (enc & _ & _ & _ & -> & _). done.
Qed.

Lemma settledResult_noThrow s p e :
  noThrow s → settledResult s p ≠ Some (Throw e).
Proof.
  intros [Hloads _] (l & Hl & Hs)%settledResult_Some.
  destruct (Hloads _ _ Hl) as [_ Hne]. by apply (Hne e).
Qed.

Lemma step_noThrow s ev :
  (∀ r, ev = EvGet r → Utils.isWellFormed (char r) = true) →
  noThrow s → noThrow (step h s ev).
Proof.
  intros Hwf Hs. pose proof Hs as [Hloads Hcalls].
  destruct ev as [r|p|c|]; cbn [step]; [| | |done].
  - specialize (Hwf r eq_refl).
    assert (Hsnoc : ∀ x, (∀ r' via e, x ≠ Done r' via (Throw e)) →
              ∀ c r' via e,
                (callStates s ++ [x]) !! c ≠ Some (Done r' via (Throw e))).
    { intros x Hx c r' via e [[_ H]|[_ H]]%lookup_snoc_Some.
      - by eapply Hcalls.
      - by eapply Hx. }
    destruct (stepGet_cases h r s)
      as [(url & Hc & ->)|[(p & Hc & Hl & ->)|(l & am & w & Hc & Hl & Hr & ->)]].
    + split; cbn; [done|]. by apply Hsnoc.
    + split; cbn; [done|]. by apply Hsnoc.
    + split; cbn; [|by apply Hsnoc].
      intros p l' [[_ H]|[_ [= <-]]]%lookup_snoc_Some; [by eapply Hloads|].
      pose proof (runLoad_shape h r [] (pathsOf h r)
                    (with_stats incr_requested (manager s))
                    (newPromise (world s))) as (Hreq & _).
      pose proof (λ e, runLoad_noThrow r [] (pathsOf h r)
                    (with_stats incr_requested (manager s))
                    (newPromise (world s)) e Hwf) as Hne.
      rewrite Hr in Hreq, Hne. cbn in Hreq, Hne. by rewrite Hreq.
  - destruct (stepProbe_cases h p s)
      as [(r & probed & path & rest & Hp & ->)
         |[(r & probed & path & rest & l & am & w & Hp & Hr & ->)| ->]];
      [| |done]; (split; cbn; [|done]);
      destruct (Hloads _ _ Hp) as [Hwfr _]; cbn in Hwfr;
      intros q l' [(-> & <- & _)|[Hne H]]%list_lookup_insert_Some;
      try (by eapply Hloads); [done|].
    pose proof (runLoad_shape h r probed rest (manager s) (world s))
      as (Hreq & _).
    pose proof (λ e, runLoad_noThrow r probed rest (manager s) (world s)
                  e Hwfr) as Hne.
    rewrite Hr in Hreq, Hne. cbn in Hreq, Hne. by rewrite Hreq.
  - destruct (stepResume_cases c s)
      as [(r & p & url & Hc & Hp & ->)
         |[(r & p & e & Hc & Hp & ->)
          |[(r & p & res & Hc & Hp & ->)| ->]]]; [| | |done].
    + split; cbn; [done|].
      intros c' r' via e [(_ & [=] & _)|[_ H]]%list_lookup_insert_Some.
      by eapply Hcalls.
    + by apply settledResult_noThrow in Hp.
    + split; cbn; [done|].
      intros c' r' via e
        [(_ & [= <- <- ->] & _)|[_ H]]%list_lookup_insert_Some;
        [by apply settledResult_noThrow in Hp | by eapply Hcalls].
Qed.

Lemma run_noThrow es s :
  wellFormedGets es → noThrow s → noThrow (run h s es).
Proof.
  revert s; induction es as [|ev es IH]; intros s Hes Hs; [done|].
  cbn. apply IH.
  - intros r Hr. apply Hes. by right.
  - apply step_noThrow; [|done]. intros r ->. apply Hes. by left.
Qed.

Lemma noThrow_state0 : noThrow state0.
Proof. split; cbn; intros; by simplify_eq. Qed.

(** With no load for its key in flight, [get] for a well-formed character
    fulfils. *)
Lemma get_fulfils r am w :
  Utils.isWellFormed (char r) = true →
  loadingPromises am !! cacheKey r = None →
  ∃ url, (get h r am w).1.1 = Fulfilled url.
Proof.
  intros Hwf Hl.
  destruct (cache am !! cacheKey r) as [u|] eqn:Hc.
  { rewrite (get_hit h _ _ _ _ Hc). by eexists. }
  rewrite (get_miss h _ _ _ Hc Hl).
  destruct (loadWithFallbacks_cases h r (with_stats incr_requested am)
              (newPromise w)) as [(path & w' & _ & ->)|(w' & _ & ->)];
    [by eexists|].
  destruct (generate_wellFormed h (char r) (fullStyleOf r) w' Hwf)
    as (e' & _ & _ & _ & -> & _). by eexists.
Qed.

End NoThrow.

(** C1, as the code has it: for a request whose character has no unpaired
    surrogate, [get] fulfils whenever no load for its key is in flight; when
    it finds the key in neither table and the probe of every candidate
    fails, the global fallback included, it fulfils with
    [data:image/svg+xml;charset=utf-8,] followed by the percent-encoding of
    the image text, which holds the character as the content of its [text]
    element, and [fallbacks] grows by one.  In every interleaving in which
    all requested characters are of that kind, no call of [get] ends with an
    exception. *)
Theorem get_degrades_to_generated_image
    (h : Host) (r : AssetManager.Request) :
  Utils.isWellFormed (AssetManager.char r) = true →
  (∀ am w,
     AssetManager.loadingPromises am !! AssetManager.cacheKey r = None →
     ∃ url, (AssetManager.get h r am w).1.1 = AssetManager.Fulfilled url)
  ∧ (∀ es,
       wellFormedGets es →
       ∀ c r' via e,
         AssetManager.callStates (AssetManager.run h AssetManager.state0 es)
           !! c
         ≠ Some (AssetManager.Done r' via (Throw e)))
  ∧ (∀ am w,
       AssetManager.cache am !! AssetManager.cacheKey r = None →
       AssetManager.loadingPromises am !! AssetManager.cacheKey r = None →
       allFail h (length (probes w)) (AssetManager.pathsOf h r) →
       ∃ url am' w' svg encoded,
         AssetManager.get h r am w = (AssetManager.Fulfilled url, am', w')
         ∧ url = lit "data:image/svg+xml" ++ lit ";charset=utf-8," ++ encoded
         ∧ svg = Utils.fallbackSVG h (AssetManager.char r)
                   (AssetManager.fullStyleOf r) (random10000 h (draws w))
         ∧ Utils.encode svg = Some encoded
         ∧ (∃ a b, svg = a ++ lit ">" ++ AssetManager.char r
                           ++ lit "</text>" ++ b)
         ∧ (∃ ec a b, Utils.encode (AssetManager.char r) = Some ec
                      ∧ encoded = a ++ ec ++ b)
         ∧ probes w' = probes w ++ AssetManager.pathsOf h r
         ∧ AssetManager.fallbacks (AssetManager.stats am')
           = S (AssetManager.fallbacks (AssetManager.stats am))
         ∧ AssetManager.cache am' !! AssetManager.cacheKey r = Some url).
Proof.
  intros Hwf. split_and!.
  - intros am w Hl. by apply get_fulfils.
  - intros es Hes.
    by destruct (run_noThrow h es AssetManager.state0 Hes noThrow_state0).
  - intros am w Hc Hl Hf.
    rewrite (get_miss h _ _ _ Hc Hl).
    unfold AssetManager._loadWithFallbacks.
    rewrite (tryPaths_none h _ (AssetManager.newPromise w) Hf).
    destruct (generate_wellFormed h (AssetManager.char r)
                (AssetManager.fullStyleOf r)
                (addProbes (AssetManager.pathsOf h r)
                   (AssetManager.newPromise w)) Hwf)
      as (e & ec & a & b & -> & He & Hec & Hab).
    eexists _, _, _, _, e. split_and!; try done.
    + apply svgText_embeds.
    + by exists ec, a, b.
    + simpl. apply lookup_insert_eq.
Qed.

Lemma get_degrades_to_generated_image_witness :
  let r :=
    {| AssetManager.char := lit "5";
       AssetManager.style := lit "serif";
       AssetManager.charCase := lit "upper";
       AssetManager.city := None;
       AssetManager.variant := None |} in
  Utils.isWellFormed (lit "5") = true
  ∧ ∀ am w,
      AssetManager.loadingPromises am !! AssetManager.cacheKey r = None →
      ∃ url,
        (AssetManager.get (hostWhere []) r am w).1.1
        = AssetManager.Fulfilled url.
Proof.
  intros r. split; [reflexivity|].
  apply (get_degrades_to_generated_image (hostWhere [])
           {| AssetManager.char := lit "5";
              AssetManager.style := lit "serif";
              AssetManager.charCase := lit "upper";
              AssetManager.city := None;
              AssetManager.variant := None |} eq_refl).
Defined.

(** C1, as stated, fails: for the one-unit character U+D800, an unpaired
    surrogate, with no file existing, every probe fails and [get] rejects
    with the [URIError] of [encodeURIComponent]; nothing is stored, and
    [fallbacks] has been counted all the same. *)
Lemma get_rejects_unpaired_surrogate :
  let h := hostWhere [] in
  let r :=
    {| AssetManager.char := [55296];
       AssetManager.style := lit "sans";
       AssetManager.charCase := lit "upper";
       AssetManager.city := Some (lit "NYC");
       AssetManager.variant := Some (lit "01") |} in
  let out := AssetManager.get h r AssetManager.new world0 in
  allFail h 0 (AssetManager.pathsOf h r)
  ∧ out.1.1 = AssetManager.Rejected URIError
  ∧ AssetManager.cache out.1.2 = ∅
  ∧ AssetManager.fallbacks (AssetManager.stats out.1.2) = 1%nat
  ∧ length (probes out.2) = 6%nat.
Proof.
  intros h r out. split; [by intros i p _|].
  by vm_compute.
Qed.

(** ** The second call *)

Section SecondGet.
Context (h : Host).
Import AssetManager.

(** A call that rejects has stored nothing: the next call for the same
    request misses again, probes again, and counts no cache answer. *)
Lemma get_after_rejection r am w e am1 w1 :
  get h r am w = (Rejected e, am1, w1) →
  Utils.isWellFormed (char r) = false
  ∧ cache am1 !! cacheKey r = None
  ∧ ∃ issued,
      issued ≠ []
      ∧ probes (get h r am1 w1).2 = probes w1 ++ issued
      ∧ cached (stats (get h r am1 w1).1.2) = cached (stats am1).
Proof.
  destruct (cache am !! cacheKey r) as [u|] eqn:Hc.
  { by rewrite (get_hit h _ _ _ _ Hc). }
  destruct (loadingPromises am !! cacheKey r) as [p|] eqn:Hl.
  { unfold get. cbn [cache loadingPromises with_stats]. by rewrite Hc, Hl. }
  rewrite (get_miss h _ _ _ Hc Hl).
  destruct (loadWithFallbacks_cases h r (with_stats incr_requested am)
              (newPromise w)) as [(path & w' & _ & ->)|(w' & _ & ->)];
    [done|].
  destruct (Utils.isWellFormed (char r)) eqn:Hwf.
  { destruct (generate_wellFormed h (char r) (fullStyleOf r) w' Hwf)
      as (e' & _ & _ & _ & -> & _). done. }
  rewrite (generate_illFormed h (char r) (fullStyleOf r) w' Hwf).
  cbn [fst snd]. intros Heq. simplify_eq. cbn [cache].
  split; [done|]. split; [done|].
  assert (Hc1 : cache {| cache := cache am;
                         loadingPromises := loadingPromises am;
                         stats := stats (with_stats incr_fallbacks
                                           (with_stats incr_requested am)) |}
                !! cacheKey r = None) by done.
  assert (Hl1 : loadingPromises
                  {| cache := cache am;
                     loadingPromises := loadingPromises am;
                     stats := stats (with_stats incr_fallbacks
                                       (with_stats incr_requested am)) |}
                !! cacheKey r = None) by done.
  rewrite (get_miss h _ _ _ Hc1 Hl1).
  match goal with
  | |- context [_loadWithFallbacks h r ?am2 ?w2] =>
      destruct (loadWithFallbacks_cases h r am2 w2)
        as [(path & w2' & Ht & ->)|(w2' & Ht & ->)]
  end.
  - apply (tryPaths_inv h) in Ht as (pre & post & _ & _ & _ & ->).
    exists (pre ++ [path]). cbn. split_and!; [|done|done].
    intros Hnil. by apply app_eq_nil in Hnil as [_ ?].
  - apply (tryPaths_inv h) in Ht as [_ ->].
    rewrite (generate_illFormed h (char r) (fullStyleOf r) _ Hwf).
    exists (pathsOf h r). cbn.
    split_and!; [apply pathsOf_nonempty | done | done].
Qed.

End SecondGet.

(** C3, as the code has it: once [get r] has fulfilled, as it does for every
    character without unpaired surrogate when no load for the key is in
    flight, the next [get r] returns the same value from the memo table: the
    world is unchanged (no probe is issued, no random number drawn),
    [requested] and [cached] grow by one and the other counters, [loaded]
    among them, stay as they were.  Once [get r] has rejected, nothing is
    stored: the next [get r] probes again, and [cached] stays as it was. *)
Theorem second_get_is_cached
    (h : Host) (r : AssetManager.Request) (am : AssetManager.t) (w : World)
    (o : AssetManager.Outcome) (am1 : AssetManager.t) (w1 : World) :
  AssetManager.get h r am w = (o, am1, w1) →
  (∀ url,
     o = AssetManager.Fulfilled url →
     ∃ am2,
       AssetManager.get h r am1 w1 = (AssetManager.Fulfilled url, am2, w1)
       ∧ AssetManager.cache am2 = AssetManager.cache am1
       ∧ AssetManager.requested (AssetManager.stats am2)
         = S (AssetManager.requested (AssetManager.stats am1))
       ∧ AssetManager.cached (AssetManager.stats am2)
         = S (AssetManager.cached (AssetManager.stats am1))
       ∧ AssetManager.loaded (AssetManager.stats am2)
         = AssetManager.loaded (AssetManager.stats am1)
       ∧ AssetManager.fallbacks (AssetManager.stats am2)
         = AssetManager.fallbacks (AssetManager.stats am1)
       ∧ AssetManager.failed (AssetManager.stats am2)
         = AssetManager.failed (AssetManager.stats am1))
  ∧ (Utils.isWellFormed (AssetManager.char r) = true →
     AssetManager.loadingPromises am !! AssetManager.cacheKey r = None →
     ∃ url, o = AssetManager.Fulfilled url)
  ∧ (∀ e,
       o = AssetManager.Rejected e →
       Utils.isWellFormed (AssetManager.char r) = false
       ∧ AssetManager.cache am1 !! AssetManager.cacheKey r = None
       ∧ ∃ issued,
           issued ≠ []
           ∧ probes (AssetManager.get h r am1 w1).2 = probes w1 ++ issued
           ∧ AssetManager.cached
               (AssetManager.stats (AssetManager.get h r am1 w1).1.2)
             = AssetManager.cached (AssetManager.stats am1)).
Proof.
  intros Hg. split_and!.
  - intros url ->. apply (get_fulfilled_cached h) in Hg.
    eexists. rewrite (get_hit h _ _ _ _ Hg). by split_and!.
  - intros Hwf Hl. destruct (get_fulfils h r am w Hwf Hl) as [url Hu].
    exists url. by rewrite Hg in Hu.
  - intros e ->. by apply (get_after_rejection h r am w e).
Qed.

Lemma second_get_is_cached_witness :
  let h := hostWhere [lit "assets/Alphabet/cities/NYC/Alphabet/A/sans-upper/03.jpg"] in
  let url := lit "assets/Alphabet/cities/NYC/Alphabet/A/sans-upper/03.jpg" in
  let first := AssetManager.get h requestA AssetManager.new world0 in
  first = (AssetManager.Fulfilled url, first.1.2, first.2)
  ∧ ∃ am2,
      AssetManager.get h requestA first.1.2 first.2
      = (AssetManager.Fulfilled url, am2, first.2)
      ∧ AssetManager.cache am2 = AssetManager.cache first.1.2
      ∧ AssetManager.requested (AssetManager.stats am2)
        = S (AssetManager.requested (AssetManager.stats first.1.2))
      ∧ AssetManager.cached (AssetManager.stats am2)
        = S (AssetManager.cached (AssetManager.stats first.1.2))
      ∧ AssetManager.loaded (AssetManager.stats am2)
        = AssetManager.loaded (AssetManager.stats first.1.2)
      ∧ AssetManager.fallbacks (AssetManager.stats am2)
        = AssetManager.fallbacks (AssetManager.stats first.1.2)
      ∧ AssetManager.failed (AssetManager.stats am2)
        = AssetManager.failed (AssetManager.stats first.1.2).
Proof.
  intros h url first.
  assert (Hfirst : first = (AssetManager.Fulfilled url, first.1.2, first.2))
    by (vm_compute; reflexivity).
  split; [exact Hfirst|].
  exact (proj1 (second_get_is_cached h requestA AssetManager.new world0
                  (AssetManager.Fulfilled url) first.1.2 first.2 Hfirst)
           url eq_refl).
Defined.

(** C3, as stated, fails: for the one-unit character U+D800, with no file
    existing, the first [get] rejects and stores nothing; the second [get]
    of the same request probes its six candidates again, and [cached] is
    still 0. *)
Lemma second_get_after_a_rejection_probes_again :
  let h := hostWhere [] in
  let r :=
    {| AssetManager.char := [55296];
       AssetManager.style := lit "sans";
       AssetManager.charCase := lit "upper";
       AssetManager.city := Some (lit "NYC");
       AssetManager.variant := Some (lit "01") |} in
  let first := AssetManager.get h r AssetManager.new world0 in
  let second := AssetManager.get h r first.1.2 first.2 in
  first.1.1 = AssetManager.Rejected URIError
  ∧ AssetManager.cache first.1.2 = ∅
  ∧ length (probes first.2) = 6%nat
  ∧ second.1.1 = AssetManager.Rejected URIError
  ∧ length (probes second.2) = 12%nat
  ∧ drop 6 (probes second.2) = AssetManager.pathsOf h r
  ∧ AssetManager.requested (AssetManager.stats second.1.2) = 2%nat
  ∧ AssetManager.cached (AssetManager.stats second.1.2) = 0%nat
  ∧ AssetManager.fallbacks (AssetManager.stats second.1.2) = 2%nat.
Proof. intros h r first second. by vm_compute. Qed.

(** * Further properties *)

(** ** AssetManager: candidates and single calls *)

(** ** More on the candidate list and on [get] *)

Section CandidateShape.
Context (h : Host).
Import AssetManager.

Lemma others_length_bounds pv :
  (4 ≤ length (filter (λ v, v ≠ pv) fiveVariants) ≤ 5)%nat.
Proof.
  split; [|apply (length_filter _ fiveVariants)].
  unfold fiveVariants. rewrite !filter_cons, filter_nil.
  repeat case_decide; simplify_eq; simpl; lia.
Qed.

Lemma pathsOf_length r : (6 ≤ length (pathsOf h r) ≤ 8)%nat.
Proof.
  unfold pathsOf, _buildFallbackPaths, styleVariantPaths.
  pose proof (others_length_bounds (padStart 2 48 (variantOf r))) as Hb.
  destruct (test_letter (char r)); [|destruct (test_digit (char r))];
    rewrite otherVariants_filter, length_app; simpl;
    rewrite length_map; lia.
Qed.

Lemma candidate_in_assets r p :
  p ∈ pathsOf h r → ∃ x, p = lit "assets/" ++ x.
Proof.
  unfold pathsOf, _buildFallbackPaths, styleVariantPaths.
  destruct (test_letter (char r)); [|destruct (test_digit (char r))];
    rewrite otherVariants_filter;
    rewrite ?elem_of_app, ?elem_of_cons, ?elem_of_nil, list_elem_of_fmap;
    intros Hp; destruct_or?; try destruct Hp as (v & -> & _); subst;
    try done;
    unfold letterPath, cityFallbackPath, numberPath, symbolPath, missingPath;
    by eexists.
Qed.

Lemma candidate_not_data_url r p : p ∈ pathsOf h r → isDataUrl p = false.
Proof. by intros [x ->]%candidate_in_assets. Qed.

Lemma generated_is_data_url e : isDataUrl (Utils.dataUrlPrefix ++ e) = true.
Proof. done. Qed.

End CandidateShape.

(** X1: whatever the request, its candidate list holds between six and eight
    locations, all of them different, all of them under [assets/]; none of
    them can be taken for a generated image. *)
Theorem candidates_are_distinct_asset_paths
    (h : Host) (r : AssetManager.Request) :
  (6 ≤ length (AssetManager.pathsOf h r) ≤ 8)%nat
  ∧ NoDup (AssetManager.pathsOf h r)
  ∧ ∀ p, p ∈ AssetManager.pathsOf h r →
         (∃ x, p = lit "assets/" ++ x) ∧ isDataUrl p = false.
Proof.
  split; [|split].
  - apply pathsOf_length.
  - apply buildFallbackPaths_NoDup.
  - intros p Hp. split; [by eapply candidate_in_assets|].
    by eapply candidate_not_data_url.
Qed.

Section GetShape.
Context (h : Host).
Import AssetManager.

Lemma get_issued r am w :
  ∃ issued,
    probes (get h r am w).2 = probes w ++ issued
    ∧ issued `prefix_of` pathsOf h r
    ∧ (cache am !! cacheKey r ≠ None ∨ loadingPromises am !! cacheKey r ≠ None
       → issued = [])
    ∧ (cache am !! cacheKey r = None →
       loadingPromises am !! cacheKey r = None → issued ≠ []).
Proof.
  destruct (cache am !! cacheKey r) as [u|] eqn:Hc.
  { rewrite (get_hit h _ _ _ _ Hc). exists []. cbn. rewrite app_nil_r.
    split_and!; try done. apply prefix_nil. }
  destruct (loadingPromises am !! cacheKey r) as [p|] eqn:Hl.
  { unfold get. cbn [cache loadingPromises with_stats]. rewrite Hc, Hl.
    exists []. cbn. rewrite app_nil_r. split_and!; try done.
    apply prefix_nil. }
  rewrite (get_miss h _ _ _ Hc Hl).
  destruct (loadWithFallbacks_cases h r (with_stats incr_requested am)
              (newPromise w)) as [(path & w' & Ht & ->)|(w' & Ht & ->)].
  - apply tryPaths_inv in Ht as (pre & post & Hp & _ & _ & ->).
    exists (pre ++ [path]). cbn. split_and!; try done.
    + rewrite Hp. rewrite (cons_middle path pre post), app_assoc.
      by apply prefix_app_r.
    + intros [?|?]; done.
    + intros _ _ Hnil. by apply app_eq_nil in Hnil as [_ ?].
  - apply tryPaths_inv in Ht as [_ ->].
    pose proof (generate_world h (char r) (fullStyleOf r)
                  (addProbes (pathsOf h r) (newPromise w))) as Hw.
    destruct (Utils.generateFallbackLetterSVG _ _ _ _) as [[url|e] w1];
      cbn [fst snd] in *; subst w1; exists (pathsOf h r); cbn;
      (split_and!; [done | done | by intros [?|?]
                   | intros _ _; apply pathsOf_nonempty]).
Qed.

End GetShape.

(** X2: one call of [get] issues at most eight probes, for a prefix of its
    candidate list in order; it issues none when the key is in the memo
    table or a load for it is in flight, and at least one otherwise. *)
Theorem get_probes_a_prefix_of_its_candidates
    (h : Host) (r : AssetManager.Request) (am : AssetManager.t) (w : World) :
  ∃ issued,
    probes (AssetManager.get h r am w).2 = probes w ++ issued
    ∧ issued `prefix_of` AssetManager.pathsOf h r
    ∧ (length issued ≤ 8)%nat
    ∧ (AssetManager.cache am !! AssetManager.cacheKey r ≠ None
       ∨ AssetManager.loadingPromises am !! AssetManager.cacheKey r ≠ None
       → issued = [])
    ∧ (AssetManager.cache am !! AssetManager.cacheKey r = None →
       AssetManager.loadingPromises am !! AssetManager.cacheKey r = None →
       issued ≠ []).
Proof.
  destruct (get_issued h r am w) as (issued & Hp & Hpre & Hhit & Hmiss).
  exists issued. split_and!; try done.
  apply prefix_length in Hpre. pose proof (pathsOf_length h r). lia.
Qed.

Section GetResults.
Context (h : Host).
Import AssetManager.

Lemma get_miss_outcome r am w :
  cache am !! cacheKey r = None →
  loadingPromises am !! cacheKey r = None →
  let out := get h r am w in
  (∃ url, out.1.1 = Fulfilled url
          ∧ url ∈ pathsOf h r ∧ isDataUrl url = false
          ∧ stats out.1.2 = incr_loaded (incr_requested (stats am))
          ∧ cache out.1.2 = <[cacheKey r := url]> (cache am))
  ∨ (∃ url, out.1.1 = Fulfilled url
            ∧ isDataUrl url = true
            ∧ stats out.1.2 = incr_fallbacks (incr_requested (stats am))
            ∧ cache out.1.2 = <[cacheKey r := url]> (cache am))
  ∨ (out.1.1 = Rejected URIError
     ∧ Utils.isWellFormed (char r) = false
     ∧ stats out.1.2 = incr_fallbacks (incr_requested (stats am))
     ∧ cache out.1.2 = cache am).
Proof.
  intros Hc Hl out. subst out. rewrite (get_miss h _ _ _ Hc Hl).
  destruct (loadWithFallbacks_cases h r (with_stats incr_requested am)
              (newPromise w)) as [(path & w' & Ht & ->)|(w' & Ht & ->)].
  - left. exists path. cbn. split_and!; try done.
    + apply tryPaths_inv in Ht as (pre & post & -> & _).
      apply elem_of_app. right. left.
    + apply (candidate_not_data_url h r).
      apply tryPaths_inv in Ht as (pre & post & -> & _).
      apply elem_of_app. right. left.
  - right.
    destruct (Utils.isWellFormed (char r)) eqn:Hwf.
    + destruct (generate_wellFormed h (char r) (fullStyleOf r) w' Hwf)
        as (e & _ & _ & _ & -> & _).
      left. eexists. cbn. split_and!; done.
    + rewrite (generate_illFormed h (char r) (fullStyleOf r) w' Hwf).
      right. cbn. by split_and!.
Qed.

Lemma get_frame r am w :
  loadingPromises (get h r am w).1.2 = loadingPromises am
  ∧ ∀ k, k ≠ cacheKey r → cache (get h r am w).1.2 !! k = cache am !! k.
Proof.
  destruct (cache am !! cacheKey r) as [u|] eqn:Hc.
  { by rewrite (get_hit h _ _ _ _ Hc). }
  destruct (loadingPromises am !! cacheKey r) as [p|] eqn:Hl.
  { unfold get. cbn [cache loadingPromises with_stats]. by rewrite Hc, Hl. }
  destruct (get_miss_outcome r am w Hc Hl)
    as [(url & _ & _ & _ & _ & Hca)|[(url & _ & _ & _ & Hca)
       |(_ & _ & _ & Hca)]];
    (split;
     [ rewrite (get_miss h _ _ _ Hc Hl);
       by destruct (_loadWithFallbacks _ _ _ _) as [[[?|?] ?] ?]
     | intros k Hk; rewrite Hca; by rewrite ?lookup_insert_ne ]).
Qed.

Lemma get_balanced r am w : balanced am → balanced (get h r am w).1.2.
Proof.
  intros (Hl & Hreq & Hsize). unfold balanced.
  destruct (get_frame r am w) as [-> _]. split; [done|].
  destruct (cache am !! cacheKey r) as [u|] eqn:Hc.
  { rewrite (get_hit h _ _ _ _ Hc). cbn. lia. }
  assert (Hlk : loadingPromises am !! cacheKey r = None)
    by (by rewrite Hl).
  destruct (get_miss_outcome r am w Hc Hlk)
    as [(url & _ & _ & _ & -> & ->)|[(url & _ & _ & -> & ->)
       |(_ & _ & -> & ->)]]; cbn;
    rewrite ?map_size_insert_None by done; lia.
Qed.

Lemma calls_balanced cs s : balanced s.1 → balanced (calls h cs s).1.
Proof.
  revert s; induction cs as [|c cs IH]; intros [am w] Hb; [done|].
  cbn. apply IH. destruct c as [r|]; cbn.
  - pose proof (get_balanced r am w Hb) as Hg.
    by destruct (get h r am w) as [[o am'] w'].
  - destruct Hb as (Hl & Hreq & Hsize). unfold balanced. cbn.
    rewrite map_size_empty. split_and!; [done | done | lia].
Qed.

End GetResults.

(** X3: when [get] finds its key in neither table, it ends in one of three
    ways: with one of its candidate locations, which is no data URL, and
    [loaded] counted; with a generated image, a data URL, and [fallbacks]
    counted; or, for a character with an unpaired surrogate only, with the
    [URIError], [fallbacks] counted and nothing stored.  [startsWith
    ('data:image/svg+xml')] therefore tells the first two apart. *)
Theorem get_gives_a_candidate_or_a_data_url
    (h : Host) (r : AssetManager.Request) (am : AssetManager.t) (w : World) :
  AssetManager.cache am !! AssetManager.cacheKey r = None →
  AssetManager.loadingPromises am !! AssetManager.cacheKey r = None →
  let out := AssetManager.get h r am w in
  (∃ url, out.1.1 = AssetManager.Fulfilled url
          ∧ url ∈ AssetManager.pathsOf h r ∧ isDataUrl url = false
          ∧ AssetManager.stats out.1.2
            = AssetManager.incr_loaded
                (AssetManager.incr_requested (AssetManager.stats am))
          ∧ AssetManager.cache out.1.2
            = <[AssetManager.cacheKey r := url]> (AssetManager.cache am))
  ∨ (∃ url, out.1.1 = AssetManager.Fulfilled url
            ∧ isDataUrl url = true
            ∧ AssetManager.stats out.1.2
              = AssetManager.incr_fallbacks
                  (AssetManager.incr_requested (AssetManager.stats am))
            ∧ AssetManager.cache out.1.2
              = <[AssetManager.cacheKey r := url]> (AssetManager.cache am))
  ∨ (out.1.1 = AssetManager.Rejected URIError
     ∧ Utils.isWellFormed (AssetManager.char r) = false
     ∧ AssetManager.stats out.1.2
       = AssetManager.incr_fallbacks
           (AssetManager.incr_requested (AssetManager.stats am))
     ∧ AssetManager.cache out.1.2 = AssetManager.cache am).
Proof. apply get_miss_outcome. Qed.

Lemma get_gives_a_candidate_or_a_data_url_witness :
  let h := hostWhere [lit "assets/Numbers/7/02.jpg"] in
  let r :=
    {| AssetManager.char := lit "7";
       AssetManager.style := lit "mono";
       AssetManager.charCase := lit "upper";
       AssetManager.city := None;
       AssetManager.variant := Some (lit "04") |} in
  let am := AssetManager.new in
  let out := AssetManager.get h r am world0 in
  AssetManager.cache am !! AssetManager.cacheKey r = None
  ∧ AssetManager.loadingPromises am !! AssetManager.cacheKey r = None
  ∧ ((∃ url, out.1.1 = AssetManager.Fulfilled url
             ∧ url ∈ AssetManager.pathsOf h r ∧ isDataUrl url = false
             ∧ AssetManager.stats out.1.2
               = AssetManager.incr_loaded
                   (AssetManager.incr_requested (AssetManager.stats am))
             ∧ AssetManager.cache out.1.2
               = <[AssetManager.cacheKey r := url]> (AssetManager.cache am))
     ∨ (∃ url, out.1.1 = AssetManager.Fulfilled url
               ∧ isDataUrl url = true
               ∧ AssetManager.stats out.1.2
                 = AssetManager.incr_fallbacks
                     (AssetManager.incr_requested (AssetManager.stats am))
               ∧ AssetManager.cache out.1.2
                 = <[AssetManager.cacheKey r := url]> (AssetManager.cache am))
     ∨ (out.1.1 = AssetManager.Rejected URIError
        ∧ Utils.isWellFormed (AssetManager.char r) = false
        ∧ AssetManager.stats out.1.2
          = AssetManager.incr_fallbacks
              (AssetManager.incr_requested (AssetManager.stats am))
        ∧ AssetManager.cache out.1.2 = AssetManager.cache am)).
Proof.
  intros h r am out.
  assert (Hc : AssetManager.cache am !! AssetManager.cacheKey r = None)
    by reflexivity.
  assert (Hl : AssetManager.loadingPromises am !! AssetManager.cacheKey r
               = None) by reflexivity.
  split; [exact Hc|]. split; [exact Hl|].
  exact (get_gives_a_candidate_or_a_data_url h r am world0 Hc Hl).
Defined.

(** X4: requests for other keys never change an entry.  Over a sequence
    of awaited calls of [get], the memo table keeps what it holds, or does
    not hold, for every key that none of the calls asks for, and
    [loadingPromises] is left as it was. *)
Theorem gets_touch_only_the_keys_they_ask_for
    (h : Host) (cs : list AssetManager.Call) (am : AssetManager.t)
    (w : World) (k : jsstring) :
  (∀ r, AssetManager.CallGet r ∈ cs → AssetManager.cacheKey r ≠ k) →
  AssetManager.CallClearCache ∉ cs →
  AssetManager.cache (AssetManager.calls h cs (am, w)).1 !! k
  = AssetManager.cache am !! k
  ∧ AssetManager.loadingPromises (AssetManager.calls h cs (am, w)).1
    = AssetManager.loadingPromises am.
Proof.
  revert am w. induction cs as [|c cs IH]; intros am w Hk Hclear; [done|].
  apply not_elem_of_cons in Hclear as [Hc Hclear].
  destruct c as [r|]; [|done]. cbn.
  destruct (get_frame h r am w) as [Hl Hf].
  specialize (Hf k (λ E, Hk r (list_elem_of_here _ _) (eq_sym E))).
  destruct (AssetManager.get h r am w) as [[o am'] w']. cbn [fst snd] in *.
  destruct (IH am' w') as [H1 H2]; [|done|].
  - intros r' Hr'. apply Hk. by right.
  - split; [etrans; [exact H1 | exact Hf] | etrans; [exact H2 | exact Hl]].
Qed.

Lemma gets_touch_only_the_keys_they_ask_for_witness :
  let h :=
    hostWhere [lit "assets/Alphabet/cities/NYC/Alphabet/A/sans-upper/01.jpg"] in
  let other :=
    {| AssetManager.char := lit "7";
       AssetManager.style := lit "sans";
       AssetManager.charCase := lit "upper";
       AssetManager.city := None;
       AssetManager.variant := None |} in
  let am := (AssetManager.calls h [AssetManager.CallGet requestA]
               (AssetManager.new, world0)).1 in
  let cs := [AssetManager.CallGet other; AssetManager.CallGet other] in
  let k := AssetManager.cacheKey requestA in
  (∀ r, AssetManager.CallGet r ∈ cs → AssetManager.cacheKey r ≠ k)
  ∧ (AssetManager.CallClearCache ∉ cs)
  ∧ AssetManager.cache (AssetManager.calls h cs (am, world0)).1 !! k
    = AssetManager.cache am !! k
  ∧ AssetManager.loadingPromises (AssetManager.calls h cs (am, world0)).1
    = AssetManager.loadingPromises am.
Proof.
  intros h other am cs k.
  assert (Hk : ∀ r, AssetManager.CallGet r ∈ cs →
                    AssetManager.cacheKey r ≠ k).
  { intros r Hr. unfold cs in Hr.
    repeat (apply elem_of_cons in Hr as [Hr|Hr];
            [injection Hr as ->; by vm_compute|]).
    by apply elem_of_nil in Hr. }
  assert (Hclear : AssetManager.CallClearCache ∉ cs).
  { intros H. unfold cs in H.
    repeat (apply elem_of_cons in H as [H|H]; [discriminate H|]).
    by apply elem_of_nil in H. }
  split; [exact Hk|]. split; [exact Hclear|].
  exact (gets_touch_only_the_keys_they_ask_for h cs am world0 k Hk Hclear).
Defined.

(** X5: after every sequence of awaited [get] and [clearCache] calls on a
    new manager, the snapshot of [getStats] adds up: [requested] is the sum
    of [cached], [loaded] and [fallbacks]; [pendingLoads] is 0; [cacheSize]
    is at most [loaded] plus [fallbacks]. *)
Theorem stats_add_up_between_calls
    (h : Host) (cs : list AssetManager.Call) (w : World) :
  let snapshot :=
    AssetManager.getStats
      (AssetManager.calls h cs (AssetManager.new, w)).1 in
  AssetManager.s_requested snapshot
  = (AssetManager.s_cached snapshot + AssetManager.s_loaded snapshot
     + AssetManager.s_fallbacks snapshot)%nat
  ∧ AssetManager.pendingLoads snapshot = 0%nat
  ∧ (AssetManager.cacheSize snapshot
     ≤ AssetManager.s_loaded snapshot
       + AssetManager.s_fallbacks snapshot)%nat.
Proof.
  intros snapshot. subst snapshot.
  destruct (calls_balanced h cs (AssetManager.new, w)) as (Hl & Hreq & Hsize).
  { unfold balanced. cbn. rewrite map_size_empty. by split_and!. }
  cbn. rewrite Hl, map_size_empty. by split_and!.
Qed.

(** ** AssetManager: accounting and the memo table under interleaving *)

Section InterleavedAccounting.
Context (h : Host).
Import AssetManager.

Lemma filter_length_snoc {A} (P : A → Prop) `{∀ x, Decision (P x)} l x :
  length (filter P (l ++ [x]))
  = (length (filter P l) + (if decide (P x) then 1 else 0))%nat.
Proof.
  rewrite filter_app, length_app, filter_cons, filter_nil.
  by destruct (decide (P x)).
Qed.

Lemma filter_length_insert {A} (P : A → Prop) `{∀ x, Decision (P x)}
    l i x y :
  l !! i = Some x →
  (length (filter P (<[i := y]> l)) + (if decide (P x) then 1 else 0)
   = length (filter P l) + (if decide (P y) then 1 else 0))%nat.
Proof.
  intros Hi. rewrite <- (take_drop_middle l i x Hi) at 2.
  rewrite insert_take_drop by (by eapply lookup_lt_Some).
  rewrite !filter_app, !filter_cons, !length_app.
  destruct (decide (P x)), (decide (P y)); simpl; lia.
Qed.

Lemma runLoad_accounted r probed paths am w :
  let out := runLoad h r probed paths am w in
  requested (stats out.1.2) = requested (stats am)
  ∧ cached (stats out.1.2) = cached (stats am)
  ∧ failed (stats out.1.2) = failed (stats am)
  ∧ (loaded (stats out.1.2) + fallbacks (stats out.1.2)
     = loaded (stats am) + fallbacks (stats am)
       + (if decide (unsettled out.1.1 = false) then 1 else 0))%nat.
Proof.
  unfold runLoad. destruct paths as [|path rest].
  - destruct (Utils.generateFallbackLetterSVG _ _ _ _) as [res w'].
    cbn. split_and!; try done.
    destruct (decide _) as [_|Hn]; [lia | by destruct Hn].
  - unfold Utils.checkFileExists.
    destruct (imageProbe h path w) as [e w']. cbn. by split_and!.
Qed.

Lemma step_accounted s e : accounted s → accounted (step h s e).
Proof.
  intros (Hreq & Hca & Hlo & Hf). unfold accounted, cacheAnswers, settledLoads.
  destruct e as [r|p|c|]; cbn [step]; [| | |done].
  - destruct (stepGet_cases h r s)
      as [(url & Hc & ->)|[(p & Hc & Hl & ->)|(l & am & w & Hc & Hl & Hr & ->)]];
      cbn [manager loads callStates stats with_stats with_loading
           requested cached loaded fallbacks failed incr_requested
           incr_cached];
      rewrite ?filter_length_snoc, ?length_app; cbn [length].
    + rewrite decide_True by done.
      unfold cacheAnswers, settledLoads in *. split_and!; try done; lia.
    + rewrite decide_False by done.
      unfold cacheAnswers, settledLoads in *. split_and!; try done; lia.
    + pose proof (runLoad_accounted r [] (pathsOf h r)
                    (with_stats incr_requested (manager s))
                    (newPromise (world s))) as Hrl.
      rewrite Hr in Hrl. cbn in Hrl. destruct Hrl as (-> & -> & -> & ->).
      rewrite decide_False by done.
      unfold cacheAnswers, settledLoads in *. split_and!; try done; lia.
  - destruct (stepProbe_cases h p s)
      as [(r & probed & path & rest & Hp & ->)
         |[(r & probed & path & rest & l & am & w & Hp & Hr & ->)| ->]];
      [| |done];
      cbn [manager loads callStates stats with_stats
           requested cached loaded fallbacks failed incr_loaded].
    + pose proof (filter_length_insert (λ l, unsettled l = false) _ _ _
                    {| l_request := r; l_probed := probed;
                       l_state := Settled (Ok path) |} Hp) as Hins.
      rewrite decide_False, decide_True in Hins by done.
      unfold cacheAnswers, settledLoads in *. split_and!; try done; lia.
    + pose proof (runLoad_accounted r probed rest (manager s) (world s))
        as Hrl.
      rewrite Hr in Hrl. cbn in Hrl. destruct Hrl as (-> & -> & -> & ->).
      pose proof (filter_length_insert (λ l, unsettled l = false) _ _ _
                    l Hp) as Hins.
      cbn beta in Hins.
      rewrite (decide_False (P := unsettled _ = false)) in Hins by done.
      unfold cacheAnswers, settledLoads in *. split_and!; try done; lia.
  - destruct (stepResume_cases c s)
      as [(r & p & url & Hc & Hp & ->)
         |[(r & p & e & Hc & Hp & ->)
          |[(r & p & res & Hc & Hp & ->)| ->]]]; [| | |done];
      cbn [manager loads callStates stats with_cache with_loading];
      rewrite length_insert;
      match goal with
      | |- context [<[c := ?y]> (callStates s)] =>
          pose proof (filter_length_insert (λ c, viaCache c = true) _ _ _
                        y Hc) as Hins
      end;
      rewrite !decide_False in Hins by done;
      unfold cacheAnswers, settledLoads in *; split_and!; try done; lia.
Qed.

Lemma run_accounted es s : accounted s → accounted (run h s es).
Proof.
  revert s; induction es as [|e es IH]; intros s Hs; [done|].
  cbn. by apply IH, step_accounted.
Qed.

(** Without [clearCache], an entry of the memo table stays as it is. *)
Lemma step_cache_stable s e k url :
  consistent h s → isClear e = false →
  cache (manager s) !! k = Some url →
  cache (manager (step h s e)) !! k = Some url.
Proof.
  intros Hs He Hk. pose proof Hs as [I1 I2 I3 I4 I5 I6 I7].
  destruct e as [r|p|c|]; cbn [step]; [| | |done].
  - destruct (stepGet_cases h r s)
      as [(u & Hc & ->)|[(p & Hc & Hl & ->)|(l & am & w & Hc & Hl & Hr & ->)]];
      try done.
    pose proof (runLoad_shape h r [] (pathsOf h r)
                  (with_stats incr_requested (manager s))
                  (newPromise (world s))) as (_ & Hca & _).
    rewrite Hr in Hca. cbn in *. by rewrite Hca.
  - destruct (stepProbe_cases h p s)
      as [(r & probed & path & rest & Hp & ->)
         |[(r & probed & path & rest & l & am & w & Hp & Hr & ->)| ->]];
      try done.
    pose proof (runLoad_shape h r probed rest (manager s) (world s))
      as (_ & Hca & _).
    rewrite Hr in Hca. cbn in *. by rewrite Hca.
  - destruct (stepResume_cases c s)
      as [(r & p & u & Hc & Hp & ->)
         |[(r & p & e & Hc & Hp & ->)
          |[(r & p & res & Hc & Hp & ->)| ->]]]; try done.
    cbn. rewrite lookup_insert_ne; [done|].
    intros <-. apply I5 in Hk. apply I2 in Hc. congruence.
Qed.

Lemma run_cache_stable es s k url :
  forallb (λ e, negb (isClear e)) es = true →
  consistent h s →
  cache (manager s) !! k = Some url →
  cache (manager (run h s es)) !! k = Some url.
Proof.
  revert s; induction es as [|e es IH]; intros s Hes Hs Hk; [done|].
  cbn in Hes. apply andb_true_iff in Hes as [He Hes].
  apply negb_true_iff in He. cbn. apply IH; [done | |].
  - apply (run_consistent h [e]); [|done]. cbn. by rewrite He.
  - by apply step_cache_stable.
Qed.

End InterleavedAccounting.

(** X6: in every interleaving, with or without [clearCache], [requested] is
    the number of [get] calls made, [cached] the number of those answered
    from the memo table, [loaded] plus [fallbacks] the number of loads that
    have settled, and [failed] is 0. *)
Theorem counters_count_calls_and_loads
    (h : Host) (es : list AssetManager.Event) :
  let s := AssetManager.run h AssetManager.state0 es in
  let st := AssetManager.stats (AssetManager.manager s) in
  AssetManager.requested st = length (AssetManager.callStates s)
  ∧ AssetManager.cached st = length (cacheAnswers s)
  ∧ (AssetManager.loaded st + AssetManager.fallbacks st)%nat
    = length (settledLoads s)
  ∧ AssetManager.failed st = 0%nat.
Proof.
  apply (run_accounted h es AssetManager.state0). by split_and!.
Qed.

(** X7: as long as [clearCache] is not called, the memo table is written
    once per key: an entry, once there, keeps its value through every
    further interleaving of calls, probe completions and resumptions. *)
Theorem memo_entries_are_written_once
    (h : Host) (before after : list AssetManager.Event)
    (k url : jsstring) :
  forallb (λ e, negb (AssetManager.isClear e)) (before ++ after) = true →
  AssetManager.cache
    (AssetManager.manager (AssetManager.run h AssetManager.state0 before))
    !! k = Some url →
  AssetManager.cache
    (AssetManager.manager
       (AssetManager.run h AssetManager.state0 (before ++ after)))
    !! k = Some url.
Proof.
  rewrite forallb_app, andb_true_iff. intros [Hb Ha] Hk.
  rewrite run_app. apply run_cache_stable; [done | | done].
  apply run_consistent; [done | apply consistent_state0].
Qed.

Lemma memo_entries_are_written_once_witness :
  let h := hostWhere [lit "assets/Alphabet/cities/NYC/fallback/sans-upper/01.jpg"] in
  let before :=
    [ AssetManager.EvGet requestA; AssetManager.EvProbe 0;
      AssetManager.EvProbe 0; AssetManager.EvResume 0 ] in
  let after := [ AssetManager.EvGet requestA; AssetManager.EvResume 1 ] in
  let k := AssetManager.cacheKey requestA in
  let url := lit "assets/Alphabet/cities/NYC/fallback/sans-upper/01.jpg" in
  forallb (λ e, negb (AssetManager.isClear e)) (before ++ after) = true
  ∧ AssetManager.cache
      (AssetManager.manager (AssetManager.run h AssetManager.state0 before))
      !! k = Some url
  ∧ AssetManager.cache
      (AssetManager.manager
         (AssetManager.run h AssetManager.state0 (before ++ after)))
      !! k = Some url.
Proof.
  intros h before after k url.
  assert (Hes : forallb (λ e, negb (AssetManager.isClear e))
                  (before ++ after) = true) by reflexivity.
  assert (Hk : AssetManager.cache
                 (AssetManager.manager
                    (AssetManager.run h AssetManager.state0 before))
                 !! k = Some url) by (vm_compute; reflexivity).
  split; [exact Hes|]. split; [exact Hk|].
  exact (memo_entries_are_written_once h before after k url Hes Hk).
Defined.

(** ** AssetManager: the cache key *)

Section KeySeparation.
Context (h : Host).
Import AssetManager.

Lemma split_at_separator (sep : N) (a a' x x' : jsstring) :
  sep ∉ a → sep ∉ a' →
  a ++ [sep] ++ x = a' ++ [sep] ++ x' → a = a' ∧ x = x'.
Proof.
  revert a'; induction a as [|c a IH]; intros [|c' a'] Ha Ha' Heq;
    cbn in Heq.
  - by simplify_eq.
  - simplify_eq. destruct Ha'. left.
  - simplify_eq. destruct Ha. left.
  - injection Heq as -> Heq. apply not_elem_of_cons in Ha as [_ Ha].
    apply not_elem_of_cons in Ha' as [_ Ha'].
    by destruct (IH a' Ha Ha' Heq) as [-> ->].
Qed.

Lemma cacheKey_separable r1 r2 :
  separable r1 → separable r2 → cacheKey r1 = cacheKey r2 →
  sameFields r1 r2.
Proof.
  intros (A1 & A2 & A3 & A4) (B1 & B2 & B3 & B4). unfold cacheKey.
  change (lit "_") with [95]. intros Heq.
  apply split_at_separator in Heq as [H1 Heq]; [|done..].
  apply split_at_separator in Heq as [H2 Heq]; [|done..].
  apply split_at_separator in Heq as [H3 Heq]; [|done..].
  apply split_at_separator in Heq as [H4 Heq]; [|done..].
  by split_and!.
Qed.

Lemma sameFields_same_work r1 r2 :
  sameFields r1 r2 →
  cacheKey r1 = cacheKey r2 ∧ pathsOf h r1 = pathsOf h r2
  ∧ fullStyleOf r1 = fullStyleOf r2.
Proof.
  intros (H1 & H2 & H3 & H4 & H5).
  unfold cacheKey, pathsOf, fullStyleOf.
  by rewrite H1, H2, H3, H4, H5.
Qed.

Lemma get_cache_cases r am w :
  let out := get h r am w in
  cache out.1.2 = cache am
  ∨ ∃ url, cache out.1.2 = <[cacheKey r := url]> (cache am)
           ∧ (url ∈ pathsOf h r ∨ generatedFor h r url).
Proof.
  cbn zeta.
  destruct (cache am !! cacheKey r) as [u|] eqn:Hc.
  { rewrite (get_hit h _ _ _ _ Hc). by left. }
  destruct (loadingPromises am !! cacheKey r) as [p|] eqn:Hl.
  { unfold get. cbn [cache loadingPromises with_stats]. rewrite Hc, Hl.
    by left. }
  rewrite (get_miss h _ _ _ Hc Hl).
  destruct (loadWithFallbacks_cases h r (with_stats incr_requested am)
              (newPromise w)) as [(path & w' & Ht & ->)|(w' & Ht & ->)].
  - right. exists path. split; [done|]. left.
    apply tryPaths_inv in Ht as (pre & post & -> & _).
    apply elem_of_app. right. left.
  - destruct (Utils.isWellFormed (char r)) eqn:Hwf.
    + destruct (generate_wellFormed h (char r) (fullStyleOf r) w' Hwf)
        as (e & _ & _ & _ & -> & He & _).
      right. eexists. split; [done|]. right. by eexists _, e.
    + rewrite (generate_illFormed h (char r) (fullStyleOf r) w' Hwf).
      by left.
Qed.

Lemma get_cacheOwned r am w :
  separable r → cacheOwned h am → cacheOwned h (get h r am w).1.2.
Proof.
  intros Hr Ham k url.
  destruct (get_cache_cases r am w) as [->|(u & -> & Hu)]; [apply Ham|].
  destruct (decide (k = cacheKey r)) as [->|Hk].
  - rewrite lookup_insert_eq. intros [= <-]. by exists r.
  - rewrite lookup_insert_ne by done. apply Ham.
Qed.

Lemma calls_cacheOwned cs s :
  (∀ r, CallGet r ∈ cs → separable r) →
  cacheOwned h s.1 → cacheOwned h (calls h cs s).1.
Proof.
  revert s; induction cs as [|c cs IH]; intros [am w] Hcs Hs; [done|].
  cbn. apply IH.
  - intros r Hr. apply Hcs. by right.
  - destruct c as [r|]; cbn.
    + pose proof (get_cacheOwned r am w) as Hg.
      destruct (get h r am w) as [[o am'] w']. apply Hg; [|done].
      apply Hcs. left.
    + by intros k url.
Qed.

Lemma generatedFor_same r1 r2 url :
  sameFields r1 r2 → generatedFor h r1 url → generatedFor h r2 url.
Proof.
  intros Hs (n & e & He & ->).
  destruct (sameFields_same_work r1 r2 Hs) as (_ & _ & Hf).
  destruct Hs as (Hc & _). exists n, e. by rewrite <- Hc, <- Hf.
Qed.

End KeySeparation.

(** X8: when none of [char], [style], [case] and [city] holds an
    underscore, the key of [get] identifies the request: two such requests
    with the same key are destructured to the same five values, hence have
    the same candidate list and the same style for the generated image. *)
Theorem cache_key_identifies_the_request
    (h : Host) (r1 r2 : AssetManager.Request) :
  separable r1 → separable r2 →
  AssetManager.cacheKey r1 = AssetManager.cacheKey r2 →
  sameFields r1 r2
  ∧ AssetManager.pathsOf h r1 = AssetManager.pathsOf h r2
  ∧ AssetManager.fullStyleOf r1 = AssetManager.fullStyleOf r2.
Proof.
  intros H1 H2 Hk. pose proof (cacheKey_separable r1 r2 H1 H2 Hk) as Hs.
  split; [done|]. by destruct (sameFields_same_work h r1 r2 Hs) as (_ & ? & ?).
Qed.

Lemma separable_requestA : separable requestA.
Proof.
  unfold separable. split_and!; vm_compute;
    intros H; repeat (apply elem_of_cons in H as [H|H]; [discriminate H|]);
    by apply elem_of_nil in H.
Qed.

Lemma cache_key_identifies_the_request_witness :
  let h := hostWhere [] in
  let r1 := requestA in
  let r2 :=
    {| AssetManager.char := lit "A";
       AssetManager.style := lit "sans";
       AssetManager.charCase := lit "upper";
       AssetManager.city := None;
       AssetManager.variant := None |} in
  separable r1 ∧ separable r2
  ∧ AssetManager.cacheKey r1 = AssetManager.cacheKey r2
  ∧ sameFields r1 r2
  ∧ AssetManager.pathsOf h r1 = AssetManager.pathsOf h r2
  ∧ AssetManager.fullStyleOf r1 = AssetManager.fullStyleOf r2.
Proof.
  intros h r1 r2.
  assert (H1 : separable r1) by exact separable_requestA.
  assert (H2 : separable r2).
  { unfold separable. split_and!; vm_compute;
      intros H; repeat (apply elem_of_cons in H as [H|H]; [discriminate H|]);
      by apply elem_of_nil in H. }
  assert (Hk : AssetManager.cacheKey r1 = AssetManager.cacheKey r2)
    by reflexivity.
  split; [exact H1|]. split; [exact H2|]. split; [exact Hk|].
  exact (cache_key_identifies_the_request h r1 r2 H1 H2 Hk).
Defined.

(** X9: after any sequence of awaited calls of [get] and [clearCache] on a
    fresh manager, whose requests hold no underscore in [char], [style],
    [case] and [city], a URL that [get] fulfils such a request with is one
    of this request's own candidates or the image generated for its own
    character and style, also when it comes from the memo table. *)
Theorem get_serves_the_requests_own_asset
    (h : Host) (cs : list AssetManager.Call) (w : World)
    (r : AssetManager.Request) (url : jsstring) :
  (∀ r', AssetManager.CallGet r' ∈ cs → separable r') →
  separable r →
  (AssetManager.get h r
     (AssetManager.calls h cs (AssetManager.new, w)).1
     (AssetManager.calls h cs (AssetManager.new, w)).2).1.1
  = AssetManager.Fulfilled url →
  url ∈ AssetManager.pathsOf h r ∨ generatedFor h r url.
Proof.
  intros Hcs Hr Hget.
  assert (Hown : cacheOwned h (AssetManager.calls h cs (AssetManager.new, w)).1).
  { apply calls_cacheOwned; [done|]. by intros k u. }
  destruct (AssetManager.calls h cs (AssetManager.new, w)) as [am w1].
  cbn [fst snd] in *.
  pose proof (get_cacheOwned h r am w1 Hr Hown) as Hafter.
  destruct (AssetManager.get h r am w1) as [[o am2] w2] eqn:Hg.
  cbn [fst snd] in *. subst o.
  apply (get_fulfilled_cached h) in Hg.
  destruct (Hafter _ _ Hg) as (r' & Hr' & Hk & Hu).
  pose proof (cacheKey_separable r' r Hr' Hr Hk) as Hs.
  destruct (sameFields_same_work h r' r Hs) as (_ & Hp & _).
  destruct Hu as [Hu|Hu]; [left; by rewrite <- Hp|right].
  by apply (generatedFor_same h r' r).
Qed.

Lemma get_serves_the_requests_own_asset_witness :
  let h :=
    hostWhere [lit "assets/Alphabet/cities/NYC/fallback/sans-upper/01.jpg"] in
  let cs := [AssetManager.CallGet requestA; AssetManager.CallClearCache;
             AssetManager.CallGet requestA] in
  let url := lit "assets/Alphabet/cities/NYC/fallback/sans-upper/01.jpg" in
  (∀ r', AssetManager.CallGet r' ∈ cs → separable r')
  ∧ separable requestA
  ∧ (AssetManager.get h requestA
       (AssetManager.calls h cs (AssetManager.new, world0)).1
       (AssetManager.calls h cs (AssetManager.new, world0)).2).1.1
    = AssetManager.Fulfilled url
  ∧ (url ∈ AssetManager.pathsOf h requestA ∨ generatedFor h requestA url).
Proof.
  intros h cs url.
  assert (Hcs : ∀ r', AssetManager.CallGet r' ∈ cs → separable r').
  { intros r' Hr'. unfold cs in Hr'.
    repeat (apply elem_of_cons in Hr' as [Hr'|Hr']; [simplify_eq|]);
      try exact separable_requestA.
    by apply elem_of_nil in Hr'. }
  assert (Hget :
    (AssetManager.get h requestA
       (AssetManager.calls h cs (AssetManager.new, world0)).1
       (AssetManager.calls h cs (AssetManager.new, world0)).2).1.1
    = AssetManager.Fulfilled url) by (vm_compute; reflexivity).
  split; [exact Hcs|]. split; [exact separable_requestA|].
  split; [exact Hget|].
  exact (get_serves_the_requests_own_asset h cs world0 requestA url
           Hcs separable_requestA Hget).
Defined.

(** ** LetterDatabase: what every method preserves *)

Section DatabaseThrough.
Context (h : Host).
Import LetterDatabase.
Context (R : t * World → t * World → Prop).
Hypothesis R_refl : ∀ s, R s s.
Hypothesis R_trans : ∀ s1 s2 s3, R s1 s2 → R s2 s3 → R s1 s3.
Hypothesis R_pathExists : ∀ path db w,
  R (db, w) ((pathExists h path db w).1.2, (pathExists h path db w).2).
Hypothesis R_draw : ∀ db w, R (db, w) (db, afterDraw w).
Hypothesis R_detected : ∀ db w, R (db, w) (detected db, w).
Hypothesis R_format : ∀ path db w, R (db, w) (with_format path db, w).
Hypothesis R_checked : ∀ db w,
  R (db, w) (with_cache (insert (lit "checked") true) db, w).

Lemma firstExisting_through paths db w :
  R (db, w)
    ((firstExisting h paths db w).1.2, (firstExisting h paths db w).2).
Proof.
  revert db w; induction paths as [|path rest IH]; intros db w;
    cbn [firstExisting]; [apply R_refl|].
  pose proof (R_pathExists path db w) as Hp.
  destruct (pathExists h path db w) as [[[|] db'] w']; cbn [fst snd] in *;
    [done|].
  eapply R_trans; [exact Hp | apply IH].
Qed.

Lemma collect_through find indices found db w :
  (∀ i db w, R (db, w) ((find i db w).1.2, (find i db w).2)) →
  R (db, w)
    ((collect find indices found db w).1.2,
     (collect find indices found db w).2).
Proof.
  intros Hfind. revert found db w.
  induction indices as [|i rest IH]; intros found db w; cbn [collect].
  - apply R_refl.
  - pose proof (Hfind i db w) as Hk.
    destruct (find i db w) as [[o db'] w']; cbn [fst snd] in *.
    eapply R_trans; [exact Hk | apply IH].
Qed.

Lemma existingLetterPath_through character styleKey location i db w :
  R (db, w)
    ((existingLetterPath h character styleKey location i db w).1.2,
     (existingLetterPath h character styleKey location i db w).2).
Proof.
  unfold existingLetterPath.
  destruct (getLetterPath h db character styleKey location i) as [[|c path]|];
    try apply R_refl.
  pose proof (R_pathExists (c :: path) db w) as Hk.
  by destruct (pathExists h (c :: path) db w) as [[e db'] w'].
Qed.

Lemma finish_through character styleKey skipFallback found db w :
  R (db, w)
    ((finish h character styleKey skipFallback found db w).1.2,
     (finish h character styleKey skipFallback found db w).2).
Proof.
  unfold finish. destruct found; [|apply R_refl].
  destruct skipFallback; [apply R_refl|].
  match goal with
  | |- context [Utils.generateFallbackLetterSVG h ?c ?s ?w] =>
      pose proof (generate_world h c s w) as Hw;
      destruct (Utils.generateFallbackLetterSVG h c s w) as [[u|e] w']
  end; cbn [fst snd] in *; subst w'; apply R_draw.
Qed.

Lemma getLetterVariants_through character styleKey location skipFallback
    db w :
  R (db, w)
    ((getLetterVariants h character styleKey location skipFallback db w).1.2,
     (getLetterVariants h character styleKey location skipFallback db w).2).
Proof.
  unfold getLetterVariants.
  destruct (checked h db && negb (assetsDetected db) && negb skipFallback).
  { match goal with
    | |- context [Utils.generateFallbackLetterSVG h ?c ?s ?w] =>
        pose proof (generate_world h c s w) as Hw;
        destruct (Utils.generateFallbackLetterSVG h c s w) as [[u|e] w']
    end; cbn [fst snd] in *; subst w'; apply R_draw. }
  assert (Hreg : ∀ db1 w1, R (db, w) (db1, w1) →
    R (db, w)
      ((if test_digit character || test_symbol character
        then
          match getLetterPath h db1 character styleKey location 1 with
          | Some (_ :: _) =>
              let '(found, db2, w2) :=
                collect (existingLetterPath h character styleKey location)
                  [1; 2; 3] [] db1 w1 in
              finish h character styleKey skipFallback found db2 w2
          | _ => finish h character styleKey skipFallback [] db1 w1
          end
        else
          let '(found, db2, w2) :=
            collect (existingLetterPath h character styleKey location)
              [1; 2; 3] [] db1 w1 in
          finish h character styleKey skipFallback found db2 w2).1.2,
       (if test_digit character || test_symbol character
        then
          match getLetterPath h db1 character styleKey location 1 with
          | Some (_ :: _) =>
              let '(found, db2, w2) :=
                collect (existingLetterPath h character styleKey location)
                  [1; 2; 3] [] db1 w1 in
              finish h character styleKey skipFallback found db2 w2
          | _ => finish h character styleKey skipFallback [] db1 w1
          end
        else
          let '(found, db2, w2) :=
            collect (existingLetterPath h character styleKey location)
              [1; 2; 3] [] db1 w1 in
          finish h character styleKey skipFallback found db2 w2).2)).
  { intros db1 w1 H1.
    pose proof (collect_through
                  (existingLetterPath h character styleKey location)
                  [1; 2; 3] [] db1 w1
                  (existingLetterPath_through character styleKey location))
      as Hc.
    destruct (collect _ _ _ db1 w1) as [[found db2] w2]; cbn [fst snd] in Hc.
    assert (H2 : R (db, w) (db2, w2)) by (by eapply R_trans).
    destruct (test_digit character || test_symbol character).
    - destruct (getLetterPath h db1 character styleKey location 1)
        as [[|c p]|];
        (eapply R_trans; [|apply finish_through]); done.
    - eapply R_trans; [|apply finish_through]; done. }
  destruct (test_letter character && _).
  - pose proof (collect_through
                  (tryDecorativePathVariations h character
                     (caseTypeOf h character) location)
                  [1; 2; 3] [] db w
                  (λ i db w, firstExisting_through _ db w)) as Hc.
    destruct (collect _ _ _ db w) as [[found db1] w1]; cbn [fst snd] in Hc.
    destruct found; [by apply Hreg | done].
  - apply Hreg, R_refl.
Qed.

Lemma detect_through paths found db w :
  (∀ path db w, R (db, w) (found path db, w)) →
  R (db, w) (detect h paths found db w).
Proof.
  intros Hf. unfold detect.
  pose proof (firstExisting_through paths db w) as Hk.
  destruct (firstExisting h paths db w) as [[[p|] db'] w'];
    cbn [fst snd] in Hk; [|done].
  eapply R_trans; [exact Hk|]. eapply R_trans; [apply R_detected|apply Hf].
Qed.

Lemma checkForAssets_through db w : R (db, w) (_checkForAssets h db w).
Proof.
  unfold _checkForAssets.
  pose proof (detect_through basicPaths (λ _ db, db) db w
                (λ _ db w, R_refl _)) as H1.
  destruct (detect h basicPaths _ db w) as [db1 w1].
  pose proof (detect_through numberPaths (λ _ db, db) db1 w1
                (λ _ db w, R_refl _)) as H2.
  destruct (detect h numberPaths _ db1 w1) as [db2 w2].
  pose proof (detect_through symbolPaths (λ _ db, db) db2 w2
                (λ _ db w, R_refl _)) as H3.
  destruct (detect h symbolPaths _ db2 w2) as [db3 w3].
  pose proof (detect_through decorativePathVariations with_format db3 w3
                R_format) as H4.
  destruct (detect h decorativePathVariations _ db3 w3) as [db4 w4].
  eapply R_trans; [exact H1|]. eapply R_trans; [exact H2|].
  eapply R_trans; [exact H3|]. eapply R_trans; [exact H4|].
  apply R_checked.
Qed.

Lemma dbCalls_through cs s : R s (dbCalls h cs s).
Proof.
  revert s; induction cs as [|c cs IH]; intros [db w]; [apply R_refl|].
  cbn. eapply R_trans; [|apply IH]. destruct c; cbn.
  - pose proof (R_pathExists path db w) as Hp.
    by destruct (pathExists h path db w) as [[e db'] w'].
  - pose proof (getLetterVariants_through character styleKey location
                  skipFallback db w) as Hp.
    by destruct (getLetterVariants _ _ _ _ _ _ _) as [[e db'] w'].
  - apply checkForAssets_through.
Qed.

End DatabaseThrough.

(** ** LetterDatabase: probes *)

Section DatabaseProbes.
Context (h : Host).
Import LetterDatabase.

Lemma probedOnce_refl s : ∃ issued, probedOnce s s issued.
Proof.
  exists []. unfold probedOnce. rewrite app_nil_r.
  split_and!; [done | apply NoDup_nil_2 | | done].
  intros p Hp. by apply elem_of_nil in Hp.
Qed.

Lemma probedOnce_trans s1 s2 s3 :
  (∃ issued, probedOnce s1 s2 issued) →
  (∃ issued, probedOnce s2 s3 issued) →
  ∃ issued, probedOnce s1 s3 issued.
Proof.
  intros (a & Ha1 & Ha2 & Ha3 & Ha4) (b & Hb1 & Hb2 & Hb3 & Hb4).
  exists (a ++ b). unfold probedOnce. split_and!.
  - by rewrite Hb1, Ha1, app_assoc.
  - apply NoDup_app. split_and!; [done | | done].
    intros p Hpa Hpb. destruct (Ha3 p Hpa) as [_ [x Hx]].
    destruct (Hb3 p Hpb) as [Hn _]. congruence.
  - intros p [Hp|Hp]%elem_of_app.
    + destruct (Ha3 p Hp) as [Hn Hs]. split; [done | by apply Hb4].
    + destruct (Hb3 p Hp) as [Hn Hs]. split; [|done].
      destruct (pathExistsCache s1.1 !! p) eqn:E; [|done].
      destruct (Ha4 p) as [x Hx]; [by eexists | congruence].
  - intros p Hp. by apply Hb4, Ha4.
Qed.

Lemma probedOnce_pathExists path db w :
  ∃ issued,
    probedOnce (db, w)
      ((pathExists h path db w).1.2, (pathExists h path db w).2) issued.
Proof.
  unfold pathExists.
  destruct (pathExistsCache db !! path) eqn:Hc; [apply probedOnce_refl|].
  case_bool_decide; [apply probedOnce_refl|].
  destruct (checked h db && negb (assetsDetected db));
    [apply probedOnce_refl|].
  exists [path]. unfold probedOnce, imageProbe, with_cache.
  cbn [fst snd probes pathExistsCache]. split_and!.
  - done.
  - apply NoDup_singleton.
  - intros p ->%list_elem_of_singleton. by rewrite lookup_insert_eq.
  - intros p Hp. destruct (decide (p = path)) as [->|Hne].
    + by rewrite lookup_insert_eq.
    + rewrite lookup_insert_ne by done. by apply lateLoadsOf_is_Some.
Qed.

Lemma probedOnce_same_cache db db' w w' :
  pathExistsCache db' = pathExistsCache db → probes w' = probes w →
  ∃ issued, probedOnce (db, w) (db', w') issued.
Proof.
  intros Hc Hp. exists []. unfold probedOnce. cbn [fst snd].
  rewrite Hc, Hp, app_nil_r.
  split_and!; [done | apply NoDup_nil_2 | | done].
  intros p Hp'. by apply elem_of_nil in Hp'.
Qed.

Lemma probedOnce_checked db w :
  ∃ issued,
    probedOnce (db, w) (with_cache (insert (lit "checked") true) db, w)
      issued.
Proof.
  exists []. unfold probedOnce, with_cache. cbn [fst snd pathExistsCache].
  rewrite app_nil_r. split_and!; [done | apply NoDup_nil_2 | |].
  - intros p Hp'. by apply elem_of_nil in Hp'.
  - intros p [x Hx]. destruct (decide (p = lit "checked")) as [->|Hne].
    + by rewrite lookup_insert_eq.
    + rewrite lookup_insert_ne by done. by eexists.
Qed.

Lemma dbCalls_probedOnce cs s : ∃ issued, probedOnce s (dbCalls h cs s) issued.
Proof.
  apply (dbCalls_through h (λ s s', ∃ issued, probedOnce s s' issued)).
  - apply probedOnce_refl.
  - apply probedOnce_trans.
  - apply probedOnce_pathExists.
  - intros db w. by apply probedOnce_same_cache.
  - intros db w. by apply probedOnce_same_cache.
  - intros path db w. by apply probedOnce_same_cache.
  - apply probedOnce_checked.
Qed.

(** *** After a failed asset check *)

Lemma offline_refl s : unchangedWhenOffline h s s.
Proof. by intros _. Qed.

Lemma offline_trans s1 s2 s3 :
  unchangedWhenOffline h s1 s2 → unchangedWhenOffline h s2 s3 →
  unchangedWhenOffline h s1 s3.
Proof.
  intros H12 H23 Ho. destruct (H12 Ho) as [E1 P1].
  rewrite <- E1 in Ho. destruct (H23 Ho) as [E2 P2].
  split; congruence.
Qed.

Lemma offline_pathExists path db w :
  unchangedWhenOffline h (db, w)
    ((pathExists h path db w).1.2, (pathExists h path db w).2).
Proof.
  intros [Hc Ha]. cbn [fst snd] in *. unfold pathExists.
  destruct (pathExistsCache db !! path); [done|].
  case_bool_decide; [done|]. by rewrite Hc, Ha.
Qed.

Lemma offline_draw db w : unchangedWhenOffline h (db, w) (db, afterDraw w).
Proof. by intros _. Qed.

Lemma offline_getLetterVariants character styleKey location skipFallback
    db w :
  offline h db →
  let out :=
    getLetterVariants h character styleKey location skipFallback db w in
  out.1.2 = db ∧ probes out.2 = probes w.
Proof.
  intros Ho.
  by apply (getLetterVariants_through h (unchangedWhenOffline h)
              offline_refl offline_trans offline_pathExists offline_draw
              character styleKey location skipFallback db w).
Qed.

Lemma offline_dbCalls cs db w :
  offline h db → DbCheckForAssets ∉ cs →
  (dbCalls h cs (db, w)).1 = db ∧ probes (dbCalls h cs (db, w)).2 = probes w.
Proof.
  revert w; induction cs as [|c cs IH]; intros w Ho Hcs; [done|].
  apply not_elem_of_cons in Hcs as [Hc Hcs]. cbn.
  destruct c as [path|character styleKey location skipFallback|]; [| |done];
    cbn.
  - pose proof (offline_pathExists path db w Ho) as Hp.
    destruct (pathExists h path db w) as [[e db'] w']. cbn in Hp.
    destruct Hp as [-> <-]. by apply IH.
  - pose proof (offline_getLetterVariants character styleKey location
                  skipFallback db w Ho) as Hp.
    destruct (getLetterVariants _ _ _ _ _ _ _) as [[e db'] w']. cbn in Hp.
    destruct Hp as [-> <-]. by apply IH.
Qed.

Lemma checkForAssets_checked db w :
  checked h (_checkForAssets h db w).1 = true.
Proof.
  unfold _checkForAssets.
  destruct (detect h basicPaths _ db w) as [db1 w1].
  destruct (detect h numberPaths _ db1 w1) as [db2 w2].
  destruct (detect h symbolPaths _ db2 w2) as [db3 w3].
  destruct (detect h decorativePathVariations _ db3 w3) as [db4 w4].
  unfold checked, with_cache. cbn [fst pathExistsCache].
  by rewrite lookup_insert_eq.
Qed.

Lemma offline_answer character styleKey location db w :
  offline h db →
  (getLetterVariants h character styleKey location false db w).1.1
  = match (Utils.generateFallbackLetterSVG h character
             (styleKey ++ lit "-" ++ caseTypeOf h character) w).1 with
    | Ok svgUrl => Ok [svgUrl]
    | Throw e => Throw e
    end.
Proof.
  intros [Hc Ha]. unfold getLetterVariants. rewrite Hc, Ha.
  cbn [negb andb].
  by destruct (Utils.generateFallbackLetterSVG _ _ _ _) as [[u|e] w'].
Qed.

End DatabaseProbes.

(** X10: over any sequence of awaited calls of [pathExists],
    [getLetterVariants] and [_checkForAssets], from any state of the
    database, no path is probed twice, and no path is probed whose answer
    the object held at the start. *)
Theorem database_probes_no_path_twice
    (h : Host) (cs : list DbCall) (db : LetterDatabase.t) (w : World) :
  ∃ issued,
    probes (dbCalls h cs (db, w)).2 = probes w ++ issued
    ∧ NoDup issued
    ∧ ∀ p, p ∈ issued → LetterDatabase.pathExistsCache db !! p = None.
Proof.
  destruct (dbCalls_probedOnce h cs (db, w)) as (issued & H1 & H2 & H3 & _).
  exists issued. split_and!; [done | done |].
  intros p Hp. by destruct (H3 p Hp).
Qed.

(** X11: when the asset check of the constructor has found none of its
    thirteen files, the database never probes again: every later sequence of
    awaited [pathExists] and [getLetterVariants] calls leaves the object and
    the list of probes as they are, and [getLetterVariants] without
    [skipFallback] answers with what [generateFallbackLetterSVG] gives for
    the character and the style with its case: the one generated image, or
    its exception. *)
Theorem failed_asset_check_stops_probing
    (h : Host) (w0 : World) (cs : list DbCall) (w : World) :
  let db := (LetterDatabase.new h w0).1 in
  LetterDatabase.assetsDetected db = false →
  DbCheckForAssets ∉ cs →
  (dbCalls h cs (db, w)).1 = db
  ∧ probes (dbCalls h cs (db, w)).2 = probes w
  ∧ ∀ character styleKey location w',
      (LetterDatabase.getLetterVariants h character styleKey location false
         db w').1.1
      = match (Utils.generateFallbackLetterSVG h character
                 (styleKey ++ lit "-" ++ LetterDatabase.caseTypeOf h character)
                 w').1 with
        | Ok svgUrl => Ok [svgUrl]
        | Throw e => Throw e
        end.
Proof.
  intros db Ha Hcs.
  assert (Ho : offline h db).
  { split; [apply checkForAssets_checked | done]. }
  destruct (offline_dbCalls h cs db w Ho Hcs) as [H1 H2].
  split_and!; [done | done |].
  intros character styleKey location w'. by apply offline_answer.
Qed.

Lemma failed_asset_check_stops_probing_witness :
  let h := hostWhere [] in
  let cs :=
    [ DbGetLetterVariants (lit "A") (lit "sans") (lit "NYC") false;
      DbPathExists (lit "assets/Numbers/1/02.jpg");
      DbGetLetterVariants (lit "7") (lit "serif") (lit "NYC") true ] in
  let db := (LetterDatabase.new h world0).1 in
  LetterDatabase.assetsDetected db = false
  ∧ (DbCheckForAssets ∉ cs)
  ∧ (dbCalls h cs (db, world0)).1 = db
  ∧ probes (dbCalls h cs (db, world0)).2 = probes world0
  ∧ ∀ character styleKey location w',
      (LetterDatabase.getLetterVariants h character styleKey location false
         db w').1.1
      = match (Utils.generateFallbackLetterSVG h character
                 (styleKey ++ lit "-" ++ LetterDatabase.caseTypeOf h character)
                 w').1 with
        | Ok svgUrl => Ok [svgUrl]
        | Throw e => Throw e
        end.
Proof.
  intros h cs db.
  assert (Ha : LetterDatabase.assetsDetected db = false)
    by (vm_compute; reflexivity).
  assert (Hcs : DbCheckForAssets ∉ cs).
  { intros H. unfold cs in H.
    repeat (apply elem_of_cons in H as [H|H]; [discriminate H|]).
    by apply elem_of_nil in H. }
  split; [exact Ha|]. split; [exact Hcs|].
  exact (failed_asset_check_stops_probing h world0 cs world0 Ha Hcs).
Defined.

(** ** LetterDatabase: results *)

Section DatabaseResults.
Context (h : Host).
Import LetterDatabase.

Lemma keepsConfirmed_refl s : keepsConfirmed h s s.
Proof. by intros p. Qed.

Lemma keepsConfirmed_trans s1 s2 s3 :
  keepsConfirmed h s1 s2 → keepsConfirmed h s2 s3 → keepsConfirmed h s1 s3.
Proof. intros H12 H23 p Hp. by apply H23, H12. Qed.

Lemma keepsConfirmed_pathExists path db w :
  keepsConfirmed h (db, w)
    ((pathExists h path db w).1.2, (pathExists h path db w).2).
Proof.
  unfold pathExists.
  destruct (pathExistsCache db !! path) eqn:Hc; [apply keepsConfirmed_refl|].
  case_bool_decide as Hi; [apply keepsConfirmed_refl|].
  destruct (checked h db && negb (assetsDetected db));
    [apply keepsConfirmed_refl|].
  intros p. unfold confirmed.
  cbn [fst snd imageProbe with_cache pathExistsCache].
  destruct (decide (p = path)) as [->|Hne].
  - by rewrite Hc.
  - rewrite lookup_insert_ne by done.
    by destruct (lateLoadsOf_cases (lateLoads h (length (probes w)))
                   (pathExistsCache db) p) as [->|(_ & -> & ->)].
Qed.

Lemma keepsConfirmed_draw db w :
  keepsConfirmed h (db, w) (db, afterDraw w).
Proof. by intros p. Qed.

Lemma pathExists_confirms path db w :
  (pathExists h path db w).1.1 = true →
  confirmed h (pathExists h path db w).1.2 path.
Proof.
  unfold pathExists, confirmed.
  destruct (pathExistsCache db !! path) as [b|] eqn:Hc.
  { cbn. by rewrite Hc. }
  case_bool_decide as Hi; [cbn; by rewrite Hc|].
  destruct (checked h db && negb (assetsDetected db)); [done|].
  cbn [fst snd imageProbe with_cache pathExistsCache]. intros ->.
  by rewrite lookup_insert_eq.
Qed.

Lemma firstExisting_confirms paths db w p :
  (firstExisting h paths db w).1.1 = Some p →
  confirmed h (firstExisting h paths db w).1.2 p.
Proof.
  revert db w; induction paths as [|path rest IH]; intros db w;
    cbn [firstExisting]; [done|].
  pose proof (pathExists_confirms path db w) as Hp.
  destruct (pathExists h path db w) as [[[|] db'] w']; cbn [fst snd] in *.
  - intros [= <-]. by apply Hp.
  - apply IH.
Qed.

Lemma existingLetterPath_confirms character styleKey location i db w p :
  (existingLetterPath h character styleKey location i db w).1.1 = Some p →
  confirmed h (existingLetterPath h character styleKey location i db w).1.2 p.
Proof.
  unfold existingLetterPath.
  destruct (getLetterPath h db character styleKey location i) as [[|c path]|];
    try done.
  pose proof (pathExists_confirms (c :: path) db w) as Hp.
  destruct (pathExists h (c :: path) db w) as [[[|] db'] w'];
    cbn [fst snd] in *; [|done].
  intros [= <-]. by apply Hp.
Qed.

Lemma collect_confirms find indices found db w :
  (∀ i db w,
     keepsConfirmed h (db, w) ((find i db w).1.2, (find i db w).2)) →
  (∀ i db w p, (find i db w).1.1 = Some p →
               confirmed h (find i db w).1.2 p) →
  Forall (confirmed h db) found →
  Forall (confirmed h (collect find indices found db w).1.2)
    (collect find indices found db w).1.1
  ∧ (length found ≤ length (collect find indices found db w).1.1
     ≤ length found + length indices)%nat.
Proof.
  intros Hkeep Hconf. revert found db w.
  induction indices as [|i rest IH]; intros found db w Hf; cbn [collect].
  - cbn. split; [done | lia].
  - pose proof (Hkeep i db w) as Hk. pose proof (Hconf i db w) as Hc.
    destruct (find i db w) as [[o db'] w']; cbn [fst snd] in *.
    assert (Hf' : Forall (confirmed h db') found).
    { eapply Forall_impl; [exact Hf|]. intros p Hp.
      by apply (Hk p). }
    destruct o as [p|].
    + destruct (IH (found ++ [p]) db' w') as [H1 H2].
      { apply Forall_app. split; [done|]. apply Forall_singleton.
        by apply Hc. }
      split; [done|]. rewrite length_app in H2. cbn in *. lia.
    + destruct (IH found db' w' Hf') as [H1 H2].
      split; [done|]. cbn. lia.
Qed.

(** What [getLetterVariants] may fulfil with. *)
Lemma finish_result character styleKey skipFallback found db w :
  Forall (confirmed h db) found → (length found ≤ 3)%nat →
  match (finish h character styleKey skipFallback found db w).1.1 with
  | Ok l =>
      (length l ≤ 3)%nat ∧ (skipFallback = false → l ≠ [])
      ∧ ((∃ url, l = [url] ∧ isDataUrl url = true)
         ∨ Forall (confirmed h db) l)
  | Throw e => Utils.isWellFormed character = false ∧ skipFallback = false
  end.
Proof.
  intros Hf Hl. unfold finish. destruct found as [|p found].
  - destruct skipFallback.
    { cbn. split_and!; [lia | done | by right]. }
    match goal with
    | |- context [Utils.generateFallbackLetterSVG h ?c ?s ?w] =>
        destruct (Utils.isWellFormed c) eqn:Hwf;
        [ destruct (generate_wellFormed h c s w Hwf)
            as (e & _ & _ & _ & -> & _)
        | rewrite (generate_illFormed h c s w Hwf) ]
    end; cbn [fst].
    + split_and!; [cbn; lia | done |]. left. eexists. split; [done|].
      apply (generated_is_data_url e).
    + done.
  - cbn [fst]. split_and!; [done | done | by right].
Qed.

(** X12: [getLetterVariants] fulfils with at most three URLs, and with at
    least one unless [skipFallback] is set.  They are either the single
    generated image, a data URL, or paths that [pathExists] answers with a
    truthy value, without probing, in the state the call leaves.  It throws
    only without [skipFallback], for a character with an unpaired
    surrogate. *)
Theorem getLetterVariants_gives_existing_paths_or_one_image
    (character styleKey location : jsstring) (skipFallback : bool)
    (db : LetterDatabase.t) (w : World) :
  let out :=
    getLetterVariants h character styleKey location skipFallback db w in
  match out.1.1 with
  | Ok l =>
      (length l ≤ 3)%nat ∧ (skipFallback = false → l ≠ [])
      ∧ ((∃ url, l = [url] ∧ isDataUrl url = true)
         ∨ Forall (confirmed h out.1.2) l)
  | Throw e => Utils.isWellFormed character = false ∧ skipFallback = false
  end.
Proof.
  cbn zeta. unfold getLetterVariants.
  destruct (checked h db && negb (assetsDetected db) && negb skipFallback)
    eqn:Hoff.
  { assert (skipFallback = false) as ->.
    { destruct skipFallback; [|done].
      by rewrite andb_false_r in Hoff. }
    match goal with
    | |- context [Utils.generateFallbackLetterSVG h ?c ?s ?w] =>
        destruct (Utils.isWellFormed c) eqn:Hwf;
        [ destruct (generate_wellFormed h c s w Hwf)
            as (e & _ & _ & _ & -> & _)
        | rewrite (generate_illFormed h c s w Hwf) ]
    end; cbn [fst]; [|done].
    split_and!; [cbn; lia | done |]. left. eexists. split; [done|].
    apply (generated_is_data_url e). }
  assert (Hreg : ∀ db1 w1,
    match
      (if test_digit character || test_symbol character
       then
         match getLetterPath h db1 character styleKey location 1 with
         | Some (_ :: _) =>
             let '(found, db2, w2) :=
               collect (existingLetterPath h character styleKey location)
                 [1; 2; 3] [] db1 w1 in
             finish h character styleKey skipFallback found db2 w2
         | _ => finish h character styleKey skipFallback [] db1 w1
         end
       else
         let '(found, db2, w2) :=
           collect (existingLetterPath h character styleKey location)
             [1; 2; 3] [] db1 w1 in
         finish h character styleKey skipFallback found db2 w2)
    with
    | (Ok l, db3, _) =>
        (length l ≤ 3)%nat ∧ (skipFallback = false → l ≠ [])
        ∧ ((∃ url, l = [url] ∧ isDataUrl url = true)
           ∨ Forall (confirmed h db3) l)
    | (Throw e, _, _) =>
        Utils.isWellFormed character = false ∧ skipFallback = false
    end).
  { intros db1 w1.
    destruct (collect_confirms
                (existingLetterPath h character styleKey location)
                [1; 2; 3] [] db1 w1
                (existingLetterPath_through h (keepsConfirmed h)
                   keepsConfirmed_refl keepsConfirmed_pathExists
                   character styleKey location)
                (existingLetterPath_confirms character styleKey location)
                (Forall_nil_2 _)) as [Hc Hlen].
    destruct (collect _ _ _ db1 w1) as [[found db2] w2]; cbn [fst snd] in *.
    assert (Hfin : ∀ fd dbx wx, Forall (confirmed h dbx) fd →
      (length fd ≤ 3)%nat →
      match finish h character styleKey skipFallback fd dbx wx with
      | (Ok l, db3, _) =>
          (length l ≤ 3)%nat ∧ (skipFallback = false → l ≠ [])
          ∧ ((∃ url, l = [url] ∧ isDataUrl url = true)
             ∨ Forall (confirmed h db3) l)
      | (Throw e, _, _) =>
          Utils.isWellFormed character = false ∧ skipFallback = false
      end).
    { intros fd dbx wx Hfd Hlx.
      pose proof (finish_result character styleKey skipFallback fd dbx wx
                    Hfd Hlx) as Hr.
      pose proof (finish_db h character styleKey skipFallback fd dbx wx)
        as Hd.
      destruct (finish _ _ _ _ _ _ _) as [[[l|e] db3] w3];
        cbn [fst snd] in *; by subst. }
    cbn [length Nat.add] in Hlen.
    destruct (test_digit character || test_symbol character).
    - destruct (getLetterPath h db1 character styleKey location 1)
        as [[|c p]|]; apply Hfin; try done; cbn [length]; lia.
    - apply Hfin; [done | lia]. }
  destruct (test_letter character && _).
  - destruct (collect_confirms
                (tryDecorativePathVariations h character
                   (caseTypeOf h character) location)
                [1; 2; 3] [] db w
                (λ i db w, firstExisting_through h (keepsConfirmed h)
                             keepsConfirmed_refl keepsConfirmed_trans
                             keepsConfirmed_pathExists _ db w)
                (λ i db w p, firstExisting_confirms _ db w p)
                (Forall_nil_2 _)) as [Hc Hlen].
    destruct (collect _ _ _ db w) as [[found db1] w1]; cbn [fst snd] in *.
    destruct found as [|p found].
    + specialize (Hreg db1 w1).
      by destruct (if test_digit character || test_symbol character
                   then _ else _) as [[[l|e] db3] w3].
    + cbn [fst snd]. split_and!; [cbn in *; lia | done | by right].
  - specialize (Hreg db w).
    by destruct (if test_digit character || test_symbol character
                 then _ else _) as [[[l|e] db3] w3].
Qed.

End DatabaseResults.

(** ** The two resolvers *)

Section Resolvers.
Context (h : Host).
Import LetterDatabase.

Lemma digit_not_letter c : test_digit c = true → test_letter c = false.
Proof.
  destruct c as [|u [|? ?]]; try done.
  unfold test_digit, test_letter, is_digit_unit, is_lower_unit,
    is_upper_unit, in_range.
  intros [H1 H2]%andb_true_iff.
  apply N.leb_le in H1, H2.
  apply orb_false_iff; split; apply andb_false_iff; left;
    apply N.leb_gt; lia.
Qed.

Lemma symbol_not_alnum c :
  test_symbol c = true → test_letter c = false ∧ test_digit c = false.
Proof.
  destruct c as [|u [|? ?]]; try done.
  unfold test_symbol, test_class. intros Hu%bool_decide_eq_true.
  vm_compute in Hu.
  repeat (apply elem_of_cons in Hu as [->|Hu]; [by vm_compute|]).
  by apply elem_of_nil in Hu.
Qed.

Lemma join_number character idx :
  join (lit "/") [lit "assets"; lit "Numbers"; character; idx ++ lit ".jpg"]
  = AssetManager.numberPath character idx.
Proof.
  unfold AssetManager.numberPath. cbn [join]. reflexivity.
Qed.

Lemma join_symbol name idx :
  join (lit "/") [lit "assets"; lit "Symbols"; name; idx ++ lit ".jpg"]
  = AssetManager.symbolPath name idx.
Proof.
  unfold AssetManager.symbolPath. cbn [join]. reflexivity.
Qed.

Lemma join_letter location letter stylePath idx :
  join (lit "/")
    [lit "assets"; lit "Alphabet"; lit "cities"; location; lit "Alphabet";
     letter; stylePath; idx ++ lit ".jpg"]
  = AssetManager.letterPath location letter stylePath idx.
Proof.
  unfold AssetManager.letterPath. cbn [join]. reflexivity.
Qed.

Lemma mapSymbol_as_lookup c :
  AssetManager._mapSymbolToFolderName h c
  = match own AssetManager.symbolMap c with
    | Some name => name
    | None => default (lit "symbol") (inherited h c)
    end.
Proof.
  unfold AssetManager._mapSymbolToFolderName.
  destruct (own AssetManager.symbolMap c); [done|].
  by destruct (inherited h c).
Qed.

(** X13: the two resolvers name the same file.  Whenever [getLetterPath]
    gives a path for a digit or a symbol, or for a letter in the style sans
    or serif, it is the first candidate that [_buildFallbackPaths] lists for
    the same character, style, city and variant, the case being the one of
    the character. *)
Theorem resolvers_name_the_same_file
    (db : LetterDatabase.t)
    (character styleKey charCase location : jsstring) (i : N)
    (p : jsstring) :
  getLetterPath h db character styleKey location i = Some p →
  test_letter character = false
  ∨ ((styleKey = lit "sans" ∨ styleKey = lit "serif")
     ∧ charCase = caseTypeOf h character) →
  head (AssetManager._buildFallbackPaths h character styleKey charCase
          location (toString i)) = Some p.
Proof.
  unfold getLetterPath, AssetManager._buildFallbackPaths,
    AssetManager.styleVariantPaths.
  destruct (test_digit character) eqn:Hd.
  { rewrite (digit_not_letter _ Hd), join_number. by intros [= <-] _. }
  destruct (test_symbol character) eqn:Hs.
  { destruct (symbol_not_alnum _ Hs) as [-> _].
    rewrite join_symbol, <- mapSymbol_as_lookup. by intros [= <-] _. }
  destruct (test_letter character) eqn:Hl; [|done].
  intros Hp [?|[Hstyle ->]]; [done|]. revert Hp.
  unfold caseTypeOf.
  destruct Hstyle as [-> | ->].
  - rewrite (bool_decide_eq_true_2 (lit "sans" = lit "sans")) by done.
    rewrite join_letter. by intros [= <-].
  - rewrite (bool_decide_eq_false_2 (lit "serif" = lit "sans")) by done.
    rewrite (bool_decide_eq_true_2 (lit "serif" = lit "serif")) by done.
    rewrite join_letter. by intros [= <-].
Qed.

End Resolvers.

Lemma resolvers_name_the_same_file_witness :
  let h := hostWhere [] in
  let p := lit "assets/Alphabet/cities/NYC/Alphabet/G/serif-lower/03.jpg" in
  LetterDatabase.getLetterPath h LetterDatabase.fresh (lit "g") (lit "serif")
    (lit "NYC") 3 = Some p
  ∧ (test_letter (lit "g") = false
     ∨ ((lit "serif" = lit "sans" ∨ lit "serif" = lit "serif")
        ∧ lit "lower" = LetterDatabase.caseTypeOf h (lit "g")))
  ∧ head (AssetManager._buildFallbackPaths h (lit "g") (lit "serif")
            (lit "lower") (lit "NYC") (toString 3)) = Some p.
Proof.
  intros h p.
  assert (H1 : LetterDatabase.getLetterPath h LetterDatabase.fresh (lit "g")
                 (lit "serif") (lit "NYC") 3 = Some p)
    by (vm_compute; reflexivity).
  assert (H2 : test_letter (lit "g") = false
               ∨ ((lit "serif" = lit "sans" ∨ lit "serif" = lit "serif")
                  ∧ lit "lower" = LetterDatabase.caseTypeOf h (lit "g"))).
  { right. split; [by right | by vm_compute]. }
  split; [exact H1|]. split; [exact H2|].
  exact (resolvers_name_the_same_file h LetterDatabase.fresh (lit "g")
           (lit "serif") (lit "lower") (lit "NYC") 3 p H1 H2).
Defined.

(** ** Symbol folders *)

Section SymbolFolders.
Context (h : Host).
Import LetterDatabase.

Lemma folder_names_distinct :
  NoDup (AssetManager.symbolMap.*2)
  ∧ (lit "symbol" ∉ AssetManager.symbolMap.*2)
  ∧ NoDup (AssetManager.symbolMap.*1).
Proof.
  split_and!; compute_done.
Qed.

Lemma own_lookup {A} (tbl : list (jsstring * A)) k v :
  own tbl k = Some v → (k, v) ∈ tbl.
Proof.
  induction tbl as [|[k' v'] tbl IH]; [done|]. cbn.
  case_bool_decide as Hk.
  - intros [= ->]. subst. left.
  - intros Ho. right. by apply IH.
Qed.

Lemma NoDup_snd_inj {A B} (l : list (A * B)) a1 a2 b :
  NoDup (l.*2) → (a1, b) ∈ l → (a2, b) ∈ l → a1 = a2.
Proof.
  induction l as [|[a' b'] l IH]; intros Hnd H1 H2.
  { by apply elem_of_nil in H1. }
  cbn in Hnd. apply NoDup_cons in Hnd as [Hnin Hnd].
  apply elem_of_cons in H1 as [H1|H1]; apply elem_of_cons in H2 as [H2|H2].
  - congruence.
  - simplify_eq. destruct Hnin. apply list_elem_of_fmap. by exists (a2, b').
  - simplify_eq. destruct Hnin. apply list_elem_of_fmap. by exists (a1, b').
  - by apply IH.
Qed.

Lemma symbol_folder_inj c1 c2 :
  test_symbol c1 = true → test_symbol c2 = true →
  AssetManager._mapSymbolToFolderName h c1
  = AssetManager._mapSymbolToFolderName h c2 →
  c1 = c2.
Proof.
  intros H1 H2.
  assert (Hown : ∀ c, test_symbol c = true →
            is_Some (own AssetManager.symbolMap c)).
  { intros [|u [|? ?]]; try done.
    unfold test_symbol, test_class. intros Hu%bool_decide_eq_true.
    vm_compute in Hu.
    repeat (apply elem_of_cons in Hu as [->|Hu]; [by eexists|]).
    by apply elem_of_nil in Hu. }
  destruct (Hown c1 H1) as [n1 E1]. destruct (Hown c2 H2) as [n2 E2].
  unfold AssetManager._mapSymbolToFolderName. rewrite E1, E2. intros ->.
  apply own_lookup in E1, E2.
  destruct folder_names_distinct as (Hnd & _).
  by apply (NoDup_snd_inj AssetManager.symbolMap c1 c2 n2).
Qed.

Lemma symbol_folder_named c :
  test_symbol c = true →
  AssetManager._mapSymbolToFolderName h c ≠ lit "symbol".
Proof.
  destruct c as [|u [|? ?]]; try done.
  unfold test_symbol, test_class. intros Hu%bool_decide_eq_true.
  vm_compute in Hu.
  repeat (apply elem_of_cons in Hu as [->|Hu]; [by vm_compute|]).
  by apply elem_of_nil in Hu.
Qed.

End SymbolFolders.

Section SymbolAssets.
Context (h : Host).
Import AssetManager.

Lemma symbol_folder_no_slash c :
  LetterDatabase.test_symbol c = true → 47 ∉ _mapSymbolToFolderName h c.
Proof.
  destruct c as [|u [|? ?]]; try done.
  unfold LetterDatabase.test_symbol, test_class.
  intros Hu%bool_decide_eq_true. vm_compute in Hu.
  repeat (apply elem_of_cons in Hu as [->|Hu]; [compute_done|]).
  by apply elem_of_nil in Hu.
Qed.

Lemma symbol_candidates c style charCase city variant p :
  LetterDatabase.test_symbol c = true →
  p ∈ styleVariantPaths h c style charCase city variant →
  ∃ v, p = symbolPath (_mapSymbolToFolderName h c) v.
Proof.
  intros Hs. unfold styleVariantPaths.
  destruct (symbol_not_alnum c Hs) as [-> ->].
  rewrite otherVariants_filter, elem_of_app, list_elem_of_singleton,
    list_elem_of_fmap.
  intros [->|(v & -> & _)]; by eexists.
Qed.

Lemma symbolPath_folder n1 n2 v1 v2 :
  47 ∉ n1 → 47 ∉ n2 → symbolPath n1 v1 = symbolPath n2 v2 → n1 = n2.
Proof.
  intros H1 H2. unfold symbolPath. intros Heq%app_inv_head.
  change (lit "/") with [47] in Heq.
  by apply split_at_separator in Heq as [-> _].
Qed.

End SymbolAssets.

(** X14: no two of the thirty symbols share an asset file.  A path among
    the candidates of two symbols, the global fallback apart, has the two
    symbols equal, whatever the styles, cases, cities and variants asked
    for; and the folder of a listed symbol is never the folder [symbol] of
    the unlisted characters. *)
Theorem symbols_share_no_asset_file
    (h : Host) (c1 c2 : jsstring)
    (style1 case1 city1 variant1 style2 case2 city2 variant2 : jsstring)
    (p : jsstring) :
  LetterDatabase.test_symbol c1 = true →
  LetterDatabase.test_symbol c2 = true →
  p ∈ AssetManager.styleVariantPaths h c1 style1 case1 city1 variant1 →
  p ∈ AssetManager.styleVariantPaths h c2 style2 case2 city2 variant2 →
  c1 = c2 ∧ AssetManager._mapSymbolToFolderName h c1 ≠ lit "symbol".
Proof.
  intros H1 H2 Hp1 Hp2. split; [|by apply symbol_folder_named].
  apply (symbol_candidates h) in Hp1 as [v1 ->]; [|done].
  apply (symbol_candidates h) in Hp2 as [v2 Heq]; [|done].
  apply symbolPath_folder in Heq; [|by apply symbol_folder_no_slash..].
  by apply (symbol_folder_inj h).
Qed.

Lemma symbols_share_no_asset_file_witness :
  let h := hostWhere [] in
  let p := lit "assets/Symbols/question/02.jpg" in
  LetterDatabase.test_symbol (lit "?") = true
  ∧ LetterDatabase.test_symbol (lit "?") = true
  ∧ p ∈ AssetManager.styleVariantPaths h (lit "?") (lit "sans") (lit "upper")
          (lit "NYC") (lit "02")
  ∧ p ∈ AssetManager.styleVariantPaths h (lit "?") (lit "mono") (lit "lower")
          (lit "LA") (lit "05")
  ∧ lit "?" = lit "?"
  ∧ AssetManager._mapSymbolToFolderName h (lit "?") ≠ lit "symbol".
Proof.
  intros h p.
  assert (H1 : LetterDatabase.test_symbol (lit "?") = true) by reflexivity.
  assert (Hp1 : p ∈ AssetManager.styleVariantPaths h (lit "?") (lit "sans")
                      (lit "upper") (lit "NYC") (lit "02")) by compute_done.
  assert (Hp2 : p ∈ AssetManager.styleVariantPaths h (lit "?") (lit "mono")
                      (lit "lower") (lit "LA") (lit "05")) by compute_done.
  split; [exact H1|]. split; [exact H1|]. split; [exact Hp1|].
  split; [exact Hp2|].
  exact (symbols_share_no_asset_file h (lit "?") (lit "?") (lit "sans")
           (lit "upper") (lit "NYC") (lit "02") (lit "mono") (lit "lower")
           (lit "LA") (lit "05") p H1 H1 Hp1 Hp2).
Defined.

(** ** LetterDatabase: the asset check *)

Section AssetCheck.
Context (h : Host).
Import LetterDatabase.

Lemma allFail_app n a b :
  allFail h n a → allFail h (n + length a) b → allFail h n (a ++ b).
Proof.
  revert n; induction a as [|x a IH]; intros n Ha Hb.
  - by rewrite Nat.add_0_r in Hb.
  - apply (allFail_cons h) in Ha as [Hx Ha]. cbn [app].
    apply (allFail_cons h). split; [done|]. apply IH; [done|].
    cbn [length] in Hb. by replace (S n + length a)%nat
                          with (n + S (length a))%nat by lia.
Qed.

(** An answer [false] of [pathExists]: the path was not confirmed, and
    either nothing was probed or the probe of the path has failed. *)
Lemma pathExists_false path db w :
  (pathExists h path db w).1.1 = false →
  ¬ confirmed h db path
  ∧ ((pathExists h path db w).2 = w
     ∨ ((pathExists h path db w).2 = addProbes [path] w
        ∧ fileExists h (length (probes w)) path = false)).
Proof.
  unfold pathExists, confirmed.
  destruct (pathExistsCache db !! path) as [b|] eqn:Hc.
  { cbn. intros ->. split; [done | by left]. }
  case_bool_decide as Hi; [done|].
  destruct (checked h db && negb (assetsDetected db)).
  { cbn. intros _. split; [done | by left]. }
  cbn [fst snd imageProbe]. intros Hf. split; [done|]. right. by split.
Qed.

(** A loop that finds nothing has probed in vain, and had no truthy answer
    for any of its paths. *)
Lemma firstExisting_nothing paths db w :
  (firstExisting h paths db w).1.1 = None →
  ∃ issued,
    (firstExisting h paths db w).2 = addProbes issued w
    ∧ issued `sublist_of` paths
    ∧ allFail h (length (probes w)) issued
    ∧ ∀ p, p ∈ paths → ¬ confirmed h db p.
Proof.
  revert db w; induction paths as [|path rest IH]; intros db w.
  { intros _. exists []. rewrite addProbes_nil.
    split_and!; [done | done | by intros i p | ].
    intros p Hp. by apply elem_of_nil in Hp. }
  cbn [firstExisting].
  pose proof (pathExists_false path db w) as Hfalse.
  pose proof (keepsConfirmed_pathExists h path db w) as Hkeep.
  destruct (pathExists h path db w) as [[[|] db'] w']; cbn [fst snd] in *;
    [done|].
  intros Hn. destruct (IH db' w' Hn) as (issued & Hw & Hsub & Hall & Hnc).
  destruct (Hfalse eq_refl) as [Hpath [->|[-> Hprobe]]].
  - exists issued. split_and!; [done | by apply sublist_cons | done |].
    intros p [->|Hp]%elem_of_cons; [done|].
    intros Hcp. apply (Hnc p Hp). by apply (Hkeep p).
  - exists (path :: issued). split_and!.
    + by rewrite Hw, addProbes_app.
    + by apply sublist_skip.
    + apply (allFail_cons h). split; [done|].
      revert Hall. unfold addProbes. cbn [probes]. rewrite length_app.
      cbn [length]. by rewrite Nat.add_1_r.
    + intros p [->|Hp]%elem_of_cons; [done|].
      intros Hcp. apply (Hnc p Hp). by apply (Hkeep p).
Qed.

Lemma firstExisting_some paths db w p :
  (firstExisting h paths db w).1.1 = Some p → p ∈ paths.
Proof.
  revert db w; induction paths as [|path rest IH]; intros db w; [done|].
  cbn [firstExisting].
  destruct (pathExists h path db w) as [[[|] db'] w']; cbn [fst snd].
  - intros [= <-]. left.
  - intros Hp. right. by eapply IH.
Qed.

(** Late images, whenever they arrive, confirm paths and refute none; they
    add no answer and touch neither flag nor layout. *)
Lemma idle_keeps arrived db :
  (∀ p, confirmed h db p → confirmed h (idle arrived db) p)
  ∧ (∀ p, is_Some (pathExistsCache (idle arrived db) !! p)
          ↔ is_Some (pathExistsCache db !! p))
  ∧ assetsDetected (idle arrived db) = assetsDetected db
  ∧ decorativePathFormat (idle arrived db) = decorativePathFormat db.
Proof.
  unfold idle, with_cache. cbn [pathExistsCache assetsDetected
                                decorativePathFormat].
  split_and!; [| |done|done].
  - intros p. unfold confirmed. cbn [pathExistsCache].
    by destruct (lateLoadsOf_cases arrived (pathExistsCache db) p)
      as [->|(_ & -> & ->)].
  - intros p. apply lateLoadsOf_is_Some.
Qed.

Lemma scanned_app l1 l2 s1 s2 s3 :
  scanned h l1 s1 s2 → scanned h l2 s2 s3 → scanned h (l1 ++ l2) s1 s3.
Proof.
  intros (K1 & (i1 & W1 & S1 & N1) & D1) (K2 & (i2 & W2 & S2 & N2) & D2).
  split_and!.
  - by eapply keepsConfirmed_trans.
  - exists (i1 ++ i2). split_and!.
    + by rewrite W2, W1, addProbes_app.
    + by apply sublist_app.
    + intros Hf. destruct (N2 Hf) as (A2 & F2 & C2).
      destruct (N1 A2) as (A1 & F1 & C1). split_and!; [done | |].
      * apply allFail_app; [done|]. revert F2. rewrite W1.
        unfold addProbes. cbn [probes]. by rewrite length_app.
      * intros p [Hp|Hp]%elem_of_app; [by apply C1|].
        intros Hcp. apply (C2 p Hp). by apply (K1 p).
  - intros Ht. destruct (D2 Ht) as [A2|(p & Hp & Hcp)].
    + destruct (D1 A2) as [A1|(p & Hp & Hcp)]; [by left|].
      right. exists p. split; [apply elem_of_app; by left | by apply (K2 p)].
    + right. exists p. split; [apply elem_of_app; by right | done].
Qed.

(** One detection loop. *)
Lemma detect_scanned paths found db w :
  (∀ path db,
     pathExistsCache (found path db) = pathExistsCache db
     ∧ assetsDetected (found path db) = assetsDetected db) →
  scanned h paths (db, w) (detect h paths found db w).
Proof.
  intros Hfound. unfold detect.
  pose proof (firstExisting_through h (keepsConfirmed h)
                (keepsConfirmed_refl h) (keepsConfirmed_trans h)
                (keepsConfirmed_pathExists h) paths db w) as Hkeep.
  pose proof (firstExisting_frame h paths db w) as [[_ Hdet] Hprobed].
  pose proof (firstExisting_confirms h paths db w) as Hconf.
  pose proof (firstExisting_some paths db w) as Hsome.
  pose proof (firstExisting_nothing paths db w) as Hnone.
  destruct (firstExisting h paths db w) as [[[p0|] db'] w'];
    cbn [fst snd] in *.
  - destruct (Hfound p0 (detected db')) as [Hc Ha].
    destruct Hprobed as (pre & post & -> & l & -> & Hl).
    split_and!.
    + intros p Hp. unfold confirmed. cbn [fst]. rewrite Hc.
      by apply (Hkeep p).
    + exists l. cbn [fst snd]. split_and!; [done | |].
      * etrans; [exact Hl|]. rewrite (cons_middle p0 pre post), app_assoc.
        by apply sublist_inserts_r.
      * by rewrite Ha.
    + intros _. right. exists p0. split; [by apply Hsome|].
      unfold confirmed. cbn [fst]. rewrite Hc. by apply Hconf.
  - destruct (Hnone eq_refl) as (issued & -> & Hsub & Hall & Hnc).
    split_and!; [done | |].
    + exists issued. cbn [fst snd]. split_and!; [done | done |].
      intros Hf. split_and!; [congruence | done | done].
    + cbn [fst]. rewrite Hdet. by left.
Qed.

Lemma scanned_flag db w :
  scanned h [] (db, w) (with_cache (insert (lit "checked") true) db, w).
Proof.
  split_and!.
  - intros p. unfold confirmed, with_cache. cbn [fst pathExistsCache].
    destruct (decide (p = lit "checked")) as [->|Hne].
    + by rewrite lookup_insert_eq.
    + by rewrite lookup_insert_ne.
  - exists []. cbn [fst snd]. rewrite addProbes_nil.
    split_and!; [done | done |]. intros Hf.
    split_and!; [done | by intros i p |].
    intros p Hp. by apply elem_of_nil in Hp.
  - intros Ht. by left.
Qed.

Lemma checkForAssets_scanned db w :
  scanned h startPaths (db, w) (_checkForAssets h db w).
Proof.
  unfold _checkForAssets, startPaths.
  pose proof (detect_scanned basicPaths (λ _ db, db) db w
                (λ _ _, conj eq_refl eq_refl)) as H1.
  destruct (detect h basicPaths _ db w) as [db1 w1].
  pose proof (detect_scanned numberPaths (λ _ db, db) db1 w1
                (λ _ _, conj eq_refl eq_refl)) as H2.
  destruct (detect h numberPaths _ db1 w1) as [db2 w2].
  pose proof (detect_scanned symbolPaths (λ _ db, db) db2 w2
                (λ _ _, conj eq_refl eq_refl)) as H3.
  destruct (detect h symbolPaths _ db2 w2) as [db3 w3].
  pose proof (detect_scanned decorativePathVariations with_format db3 w3
                (λ _ _, conj eq_refl eq_refl)) as H4.
  destruct (detect h decorativePathVariations _ db3 w3) as [db4 w4].
  pose proof (scanned_flag db4 w4) as H5.
  pose proof (scanned_app _ _ _ _ _ H1
                (scanned_app _ _ _ _ _ H2
                   (scanned_app _ _ _ _ _ H3
                      (scanned_app _ _ _ _ _ H4 H5)))) as H.
  by rewrite app_nil_r in H.
Qed.

End AssetCheck.

(** X21: what [_checkForAssets] does.  It probes only among its thirteen
    paths, in their order, and sets the flag [checked].  Where it leaves
    [assetsDetected] set, the flag was set before or one of the thirteen
    paths is confirmed; and it leaves the flag set whenever it was set
    before, [pathExists] had a truthy answer for one of the thirteen paths
    at the start, or one of the probes succeeded.  A path that is confirmed
    afterwards need not mean detection: an image that arrives after its
    timeout confirms the path and leaves the flag unset. *)
Theorem asset_check_detects_the_start_files
    (h : Host) (db : LetterDatabase.t) (w : World) :
  let out := LetterDatabase._checkForAssets h db w in
  ∃ issued,
    probes out.2 = probes w ++ issued
    ∧ issued `sublist_of` startPaths
    ∧ (length issued ≤ 13)%nat
    ∧ LetterDatabase.checked h out.1 = true
    ∧ (LetterDatabase.assetsDetected out.1 = true →
       LetterDatabase.assetsDetected db = true
       ∨ ∃ p, p ∈ startPaths ∧ confirmed h out.1 p)
    ∧ (LetterDatabase.assetsDetected db = true
       ∨ (∃ p, p ∈ startPaths ∧ confirmed h db p)
       ∨ (∃ i p, issued !! i = Some p
                 ∧ fileExists h (length (probes w) + i) p = true) →
       LetterDatabase.assetsDetected out.1 = true).
Proof.
  cbn zeta.
  destruct (checkForAssets_scanned h db w)
    as (_ & (issued & Hw & Hsub & Hnone) & Hdet).
  cbn [fst snd] in *. exists issued. split_and!.
  - by rewrite Hw.
  - done.
  - apply sublist_length in Hsub. etrans; [exact Hsub|]. by vm_compute.
  - apply checkForAssets_checked.
  - done.
  - intros Hyes.
    destruct (LetterDatabase.assetsDetected
                (LetterDatabase._checkForAssets h db w).1) eqn:Hflag;
      [done|].
    destruct (Hnone eq_refl) as (A & F & C).
    destruct Hyes as [?|[(p & Hp & Hcp)|(i & p & Hi & Hp)]].
    + congruence.
    + by destruct (C p Hp).
    + rewrite (F i p Hi) in Hp. done.
Qed.

(** The converse of the first implication fails.  The first of the thirteen
    probes is answered by its timeout and all the others fail; the image of
    the first arrives while the second probe is pending: the path is
    confirmed afterwards, and [assetsDetected] is not set. *)
Example late_image_is_not_detected :
  let first := lit "assets/Alphabet/cities/NYC/Alphabet/A/sans-upper/01.jpg" in
  let h :=
    {| fileExists := λ _ _, false;
       random10000 := λ _, 7;
       inherited := λ _, None;
       unicodeUpper := λ s, s;
       lateLoads := λ n, if bool_decide (n = 1%nat) then [first] else [] |} in
  let out := LetterDatabase.new h world0 in
  LetterDatabase.assetsDetected out.1 = false
  ∧ first ∈ startPaths
  ∧ confirmed h out.1 first
  ∧ (LetterDatabase.pathExists h first out.1 out.2).1.1 = true
  ∧ length (probes (LetterDatabase.pathExists h first out.1 out.2).2)
    = length (probes out.2).
Proof.
  intros first h out. split_and!.
  - vm_compute. reflexivity.
  - left.
  - vm_compute. reflexivity.
  - vm_compute. reflexivity.
  - vm_compute. reflexivity.
Qed.

(** ** utils.js: the encoded image *)

Section EncodedAlphabet.
Import Utils.

Lemma hexDigit_safe n : n < 16 → uriUnreserved (hexDigit n) = true.
Proof.
  intros Hn. unfold hexDigit, uriUnreserved, is_lower_unit, is_upper_unit,
    is_digit_unit, in_range.
  destruct (n <? 10) eqn:E.
  - apply N.ltb_lt in E.
    replace ((48 <=? 48 + n) && (48 + n <=? 57)) with true;
      [by rewrite orb_true_r|].
    symmetry. apply andb_true_iff. split; apply N.leb_le; lia.
  - apply N.ltb_ge in E.
    replace ((65 <=? 55 + n) && (55 + n <=? 90)) with true;
      [by rewrite orb_true_r|].
    symmetry. apply andb_true_iff. split; apply N.leb_le; lia.
Qed.

Lemma percent_safe b : b < 256 → Forall urlSafe (percent b).
Proof.
  intros Hb. unfold percent.
  apply Forall_cons_2; [|apply Forall_cons_2; [|apply Forall_cons_2;
    [|apply Forall_nil_2]]].
  - by right.
  - left. apply hexDigit_safe. apply N.Div0.div_lt_upper_bound. lia.
  - left. apply hexDigit_safe. apply N.mod_upper_bound. lia.
Qed.

Lemma utf8_bytes cp : cp < 1114112 → Forall (λ b, b < 256) (utf8 cp).
Proof.
  intros Hcp. unfold utf8.
  destruct (cp <? 128) eqn:E1; [apply N.ltb_lt in E1; repeat constructor; lia|].
  assert (Hm : ∀ x, 128 + x mod 64 < 256).
  { intros x. pose proof (N.mod_upper_bound x 64). lia. }
  destruct (cp <? 2048) eqn:E2.
  { apply N.ltb_lt in E2. repeat constructor; [|apply Hm].
    assert (cp / 64 < 32) by (apply N.Div0.div_lt_upper_bound; lia). lia. }
  destruct (cp <? 65536) eqn:E3.
  { apply N.ltb_lt in E3. repeat constructor; try apply Hm.
    assert (cp / 4096 < 16) by (apply N.Div0.div_lt_upper_bound; lia). lia. }
  repeat constructor; try apply Hm.
  assert (cp / 262144 < 5) by (apply N.Div0.div_lt_upper_bound; lia). lia.
Qed.

Lemma escape_safe cp : cp < 1114112 → Forall urlSafe (escapeCodePoint cp).
Proof.
  intros Hcp. unfold escapeCodePoint.
  pose proof (utf8_bytes cp Hcp) as Hb.
  induction Hb as [|b bs Hb _ IH]; [constructor|].
  cbn [flat_map]. apply Forall_app. split; [by apply percent_safe | done].
Qed.

Lemma pair_range hi lo :
  isHighSurrogate hi = true → isLowSurrogate lo = true →
  pairCodePoint hi lo < 1114112.
Proof.
  unfold isHighSurrogate, isLowSurrogate, in_range, pairCodePoint.
  rewrite !andb_true_iff, !N.leb_le. intros [? ?] [? ?]. nia.
Qed.

Lemma encode_safe_le n s e :
  (length s ≤ n)%nat → codeUnits s → encode s = Some e → Forall urlSafe e.
Proof.
  revert s e; induction n as [|n IH]; intros s e Hn Hs.
  - destruct s; [|cbn in Hn; lia]. by intros [= <-].
  - destruct s as [|c rest]; [by intros [= <-]|].
    cbn in Hn. apply Forall_cons in Hs as [Hc Hrest].
    rewrite encode_cons.
    destruct (uriUnreserved c) eqn:Hu.
    { destruct (encode rest) as [er|] eqn:Her; [|done]. intros [= <-].
      constructor; [by left|]. apply (IH rest); [lia | done | done]. }
    destruct (isLowSurrogate c); [done|].
    destruct (isHighSurrogate c) eqn:Hh.
    + destruct rest as [|d rest']; [done|].
      destruct (isLowSurrogate d) eqn:Hl; [|done].
      apply Forall_cons in Hrest as [_ Hrest'].
      destruct (encode rest') as [er|] eqn:Her; [|done]. intros [= <-].
      apply Forall_app. split.
      * apply escape_safe. by apply pair_range.
      * apply (IH rest'); [cbn in Hn; lia | done | done].
    + destruct (encode rest) as [er|] eqn:Her; [|done]. intros [= <-].
      apply Forall_app. split.
      * apply escape_safe. lia.
      * apply (IH rest); [lia | done | done].
Qed.

Lemma ascii_codeUnits s : asciiOnly s → codeUnits s.
Proof. intros Hs. eapply Forall_impl; [exact Hs|]. intros c Hc. cbn in *. lia. Qed.

Ltac unit_pieces :=
  repeat first
    [ assumption
    | apply Forall_nil_2
    | apply Forall_cons_2;
      [ first [ assumption
              | apply ascii_codeUnits; apply (bool_decide_unpack _);
                vm_compute; exact I ] | ] ].

Lemma svgPieces_codeUnits filterId font char c :
  codeUnits filterId → codeUnits char → asciiOnly font → asciiColors c →
  Forall codeUnits (svgPieces filterId font char c).
Proof.
  intros Hf Hc Hfont%ascii_codeUnits
    (Hfill%ascii_codeUnits & Hbg%ascii_codeUnits & Hst%ascii_codeUnits).
  unfold svgPieces. unit_pieces.
Qed.

Lemma fallbackSVG_codeUnits h char style n :
  codeUnits char → codeUnits (fallbackSVG h char style n).
Proof.
  intros Hc. unfold fallbackSVG, svgText, codeUnits.
  apply Forall_concat. apply svgPieces_codeUnits.
  - unfold filterIdOf. apply Forall_app. split.
    { apply ascii_codeUnits, (bool_decide_unpack _). vm_compute. exact I. }
    apply Forall_app. split; [done|]. apply Forall_app. split.
    { apply ascii_codeUnits, (bool_decide_unpack _). vm_compute. exact I. }
    apply ascii_codeUnits, toString_ascii.
  - done.
  - apply font_ascii.
  - apply selectColors_ascii.
Qed.

Lemma firstSegment_app base rest :
  45 ∉ base → firstSegment 45 (base ++ 45 :: rest) = base.
Proof.
  induction base as [|c base IH]; intros Hb; [done|].
  apply not_elem_of_cons in Hb as [Hc Hb]. cbn.
  destruct (c =? 45) eqn:E; [apply N.eqb_eq in E; congruence|].
  by rewrite IH.
Qed.

Lemma firstSegment_whole base : 45 ∉ base → firstSegment 45 base = base.
Proof.
  induction base as [|c base IH]; intros Hb; [done|].
  apply not_elem_of_cons in Hb as [Hc Hb]. cbn.
  destruct (c =? 45) eqn:E; [apply N.eqb_eq in E; congruence|].
  by rewrite IH.
Qed.

Lemma baseStyleOf_suffix base suffix :
  45 ∉ base → base ≠ [] →
  baseStyleOf (base ++ lit "-" ++ suffix) = base
  ∧ baseStyleOf base = base.
Proof.
  intros Hb Hne. unfold baseStyleOf. change (lit "-" ++ suffix) with (45 :: suffix).
  rewrite firstSegment_app, firstSegment_whole by done.
  by destruct base.
Qed.

End EncodedAlphabet.

(** X15: the data URL that [generateFallbackLetterSVG] returns for a
    character of code units is the prefix [data:image/svg+xml;charset=utf-8,]
    followed by letters, digits, the marks [-_.!~*'()] and [%] only: no
    quote, space, angle bracket or [#] of the image text is left in it. *)
Theorem generated_url_is_url_safe
    (h : Host) (char style : jsstring) (w : World) (url : jsstring) :
  codeUnits char →
  (Utils.generateFallbackLetterSVG h char style w).1 = Ok url →
  ∃ e, url = Utils.dataUrlPrefix ++ e ∧ Forall urlSafe e.
Proof.
  intros Hc. unfold Utils.generateFallbackLetterSVG, Utils.encodeURIComponent.
  destruct (Utils.encode _) as [e|] eqn:He; [|done]. cbn [fst].
  intros [= <-]. exists e. split; [done|].
  eapply (encode_safe_le (length _)); [done | | exact He].
  by apply fallbackSVG_codeUnits.
Qed.

Lemma generated_url_is_url_safe_witness :
  let h := hostWhere [] in
  let out := Utils.generateFallbackLetterSVG h [233] (lit "serif-lower") world0 in
  codeUnits [233]
  ∧ (∃ url, out.1 = Ok url
            ∧ ∃ e, url = Utils.dataUrlPrefix ++ e ∧ Forall urlSafe e).
Proof.
  intros h out.
  assert (Hc : codeUnits [233]).
  { unfold codeUnits. apply (bool_decide_unpack _). vm_compute. exact I. }
  split; [exact Hc|].
  destruct out.1 as [url|e] eqn:Hout.
  - exists url. split; [reflexivity|].
    exact (generated_url_is_url_safe h [233] (lit "serif-lower") world0 url
             Hc Hout).
  - exfalso. revert Hout. subst out. vm_compute. discriminate.
Defined.

(** X16: the generated image does not depend on the case part of the
    style: for a style name without a hyphen, the image for [style-case] is
    the image for the style alone, whatever the case. *)
Theorem generated_image_ignores_the_case
    (h : Host) (char base case1 case2 : jsstring) (n : N) :
  45 ∉ base → base ≠ [] →
  Utils.fallbackSVG h char (base ++ lit "-" ++ case1) n
  = Utils.fallbackSVG h char base n
  ∧ Utils.fallbackSVG h char (base ++ lit "-" ++ case1) n
    = Utils.fallbackSVG h char (base ++ lit "-" ++ case2) n.
Proof.
  intros Hb Hne. unfold Utils.fallbackSVG, Utils.getSystemFontFallbacks.
  destruct (baseStyleOf_suffix base case1 Hb Hne) as [-> E].
  destruct (baseStyleOf_suffix base case2 Hb Hne) as [-> _].
  by rewrite E.
Qed.

Lemma generated_image_ignores_the_case_witness :
  let h := hostWhere [] in
  (45 ∉ lit "mono") ∧ lit "mono" ≠ []
  ∧ Utils.fallbackSVG h (lit "k") (lit "mono" ++ lit "-" ++ lit "upper") 7
    = Utils.fallbackSVG h (lit "k") (lit "mono") 7
  ∧ Utils.fallbackSVG h (lit "k") (lit "mono" ++ lit "-" ++ lit "upper") 7
    = Utils.fallbackSVG h (lit "k") (lit "mono" ++ lit "-" ++ lit "lower") 7.
Proof.
  intros h.
  assert (Hb : 45 ∉ lit "mono") by compute_done.
  assert (Hne : lit "mono" ≠ []) by done.
  split; [exact Hb|]. split; [exact Hne|].
  exact (generated_image_ignores_the_case h (lit "k") (lit "mono")
           (lit "upper") (lit "lower") 7 Hb Hne).
Defined.

(** ** LetterSelector *)

Section Selector.
Context (h : Host) (c : LetterSelector.Chance).
Import AssetManager LetterSelector.

Lemma get_settled r am w :
  loadingPromises am = ∅ →
  let out := get h r am w in
  loadingPromises out.1.2 = ∅
  ∧ requested (stats out.1.2) = S (requested (stats am))
  ∧ ((∃ u, out.1.1 = Fulfilled u) ∨ out.1.1 = Rejected URIError)
  ∧ ∃ issued, probes out.2 = probes w ++ issued
              ∧ (length issued ≤ length (pathsOf h r))%nat.
Proof.
  intros Hl out. subst out.
  destruct (get_frame h r am w) as [Hlp _]. rewrite Hlp.
  split; [done|].
  destruct (get_issued h r am w) as (issued & Hp & Hpre & _).
  assert (Hprobes : ∃ issued, probes (get h r am w).2 = probes w ++ issued
            ∧ (length issued ≤ length (pathsOf h r))%nat).
  { exists issued. split; [done | by apply prefix_length]. }
  destruct (cache am !! cacheKey r) as [u|] eqn:Hc.
  { revert Hprobes. rewrite (get_hit h _ _ _ _ Hc). cbn. intros Hprobes.
    split_and!; [done | by left; eexists | done]. }
  assert (Hlk : loadingPromises am !! cacheKey r = None) by (by rewrite Hl).
  destruct (get_miss_outcome h r am w Hc Hlk)
    as [(u & Ho & _ & _ & Hs & _)|[(u & Ho & _ & Hs & _)|(Ho & _ & Hs & _)]];
    rewrite Hs, Ho; cbn;
    (split_and!; [done | (by left; eexists) || by right | done]).
Qed.

Lemma selector_paths_length char style charCase city o :
  o = None ∨ (∃ v, o = Some v ∧ v ∈ variants) →
  (length (pathsOf h {| AssetManager.char := char;
                        AssetManager.style := style;
                        AssetManager.charCase := charCase;
                        AssetManager.city := city;
                        AssetManager.variant := o |}) ≤ 7)%nat.
Proof.
  intros Ho. unfold pathsOf, _buildFallbackPaths.
  rewrite length_app, styleVariantPaths_length.
  - cbn [length]. destruct (test_letter _); lia.
  - unfold variantInRange, variantOf. cbn [AssetManager.variant].
    destruct Ho as [->|(v & -> & Hv)]; [compute_done|].
    unfold variants in Hv.
    repeat (apply elem_of_cons in Hv as [->|Hv]; [compute_done|]).
    by apply elem_of_nil in Hv.
Qed.

Lemma random_variant w :
  (_random c variants w).1 = None
  ∨ ∃ v, (_random c variants w).1 = Some v ∧ v ∈ variants.
Proof.
  unfold _random. cbn [fst].
  destruct (variants !! _) as [v|] eqn:Hv; [right|by left].
  exists v. split; [done|]. by eapply list_elem_of_lookup_2.
Qed.

Lemma attempt_S char requestedStyle city remaining attempts am w :
  attempt h c char requestedStyle city (S remaining) attempts am w
  = let isRandom := bool_decide (requestedStyle = lit "random") in
    let sw :=
      if isRandom then
        let ow :=
          if bool_decide (attempts = 0%nat) then _getRandomStyle c w
          else _random c primaryStyles w in
        (interpolated ow.1, ow.2)
      else (requestedStyle, w) in
    let charCase := caseOf h char in
    let vw := _random c variants sw.2 in
    let g :=
      get h
        {| AssetManager.char := toUpperCase h char;
           AssetManager.style := sw.1;
           AssetManager.charCase := charCase;
           AssetManager.city := city;
           AssetManager.variant := vw.1 |} am vw.2 in
    let again := isRandom && (attempts <? 2)%nat in
    match g.1.1 with
    | Fulfilled url =>
        if negb (isDataUrl url) then
          (Returned {| value := char; url := Some url;
                       style := sw.1 ++ lit "-" ++ charCase;
                       isFallback := false |}, g.1.2, g.2)
        else if again then
          attempt h c char requestedStyle city remaining (S attempts)
            g.1.2 g.2
        else
          (Returned {| value := char; url := Some url;
                       style := sw.1 ++ lit "-" ++ charCase;
                       isFallback := true |}, g.1.2, g.2)
    | Rejected _ =>
        if again then
          attempt h c char requestedStyle city remaining (S attempts)
            g.1.2 g.2
        else
          (Returned {| value := char; url := None;
                       style := sw.1 ++ lit "-" ++ charCase;
                       isFallback := true |}, g.1.2, g.2)
    | Awaits p => (Suspended p, g.1.2, g.2)
    end.
Proof.
  cbn [attempt]. cbn zeta.
  destruct (bool_decide (requestedStyle = lit "random")).
  - destruct (bool_decide (attempts = 0%nat)).
    + destruct (_getRandomStyle c w) as [o w1]. cbn [fst snd].
      destruct (_random c variants w1) as [v w2]. cbn [fst snd].
      by destruct (get h _ am w2) as [[out am'] w'].
    + destruct (_random c primaryStyles w) as [o w1]. cbn [fst snd].
      destruct (_random c variants w1) as [v w2]. cbn [fst snd].
      by destruct (get h _ am w2) as [[out am'] w'].
  - cbn [fst snd]. destruct (_random c variants w) as [v w2]. cbn [fst snd].
    by destruct (get h _ am w2) as [[out am'] w'].
Qed.

Lemma style_probes isRandom attempts requestedStyle w :
  probes
    (if isRandom : bool then
       (interpolated
          (if bool_decide (attempts = 0%nat) then _getRandomStyle c w
           else _random c primaryStyles w).1,
        (if bool_decide (attempts = 0%nat) then _getRandomStyle c w
         else _random c primaryStyles w).2)
     else (requestedStyle, w)).2
  = probes w.
Proof. destruct isRandom; [|done]. by case_bool_decide. Qed.

Lemma attempt_returns char requestedStyle city remaining attempts am w :
  loadingPromises am = ∅ →
  let out := attempt h c char requestedStyle city remaining attempts am w in
  ∃ o issued,
    out.1.1 = Returned o
    ∧ loadingPromises out.1.2 = ∅
    ∧ value o = char
    ∧ flagged o
    ∧ (requested (stats out.1.2) ≤ requested (stats am) + remaining)%nat
    ∧ (requested (stats am) + Nat.min 1 remaining
       ≤ requested (stats out.1.2))%nat
    ∧ (requestedStyle ≠ lit "random" →
       (requested (stats out.1.2) ≤ S (requested (stats am)))%nat)
    ∧ probes out.2 = probes w ++ issued
    ∧ (length issued ≤ 7 * remaining)%nat
    ∧ (requestedStyle ≠ lit "random" → (length issued ≤ 7)%nat).
Proof.
  revert attempts am w.
  induction remaining as [|remaining IH]; intros attempts am w Hl.
  { cbn. eexists _, []. rewrite app_nil_r.
    split_and!; try done; cbn; lia. }
  cbn zeta. rewrite attempt_S. cbn zeta.
  set (sw := if bool_decide (requestedStyle = lit "random") then _ else _).
  assert (Hsw : probes sw.2 = probes w) by apply style_probes.
  set (vw := _random c variants sw.2).
  assert (Hvw : probes vw.2 = probes w) by (by rewrite <- Hsw).
  set (r := {| AssetManager.char := toUpperCase h char;
               AssetManager.variant := vw.1 |}).
  destruct (get_settled r am vw.2 Hl)
    as (Hl' & Hreq & Hout & issued & Hp & Hlen).
  assert (Hlen7 : (length issued ≤ 7)%nat).
  { etrans; [exact Hlen|]. apply selector_paths_length, random_variant. }
  rewrite Hvw in Hp.
  assert (Hagain : ∀ res,
    res = attempt h c char requestedStyle city remaining (S attempts)
            (get h r am vw.2).1.2 (get h r am vw.2).2 →
    bool_decide (requestedStyle = lit "random") && (attempts <? 2)%nat
    = true →
    ∃ o issued0,
      res.1.1 = Returned o
      ∧ loadingPromises res.1.2 = ∅
      ∧ value o = char
      ∧ flagged o
      ∧ (requested (stats res.1.2) ≤ requested (stats am) + S remaining)%nat
      ∧ (requested (stats am) + Nat.min 1 (S remaining)
         ≤ requested (stats res.1.2))%nat
      ∧ (requestedStyle ≠ lit "random" →
         (requested (stats res.1.2) ≤ S (requested (stats am)))%nat)
      ∧ probes res.2 = probes w ++ issued0
      ∧ (length issued0 ≤ 7 * S remaining)%nat
      ∧ (requestedStyle ≠ lit "random" → (length issued0 ≤ 7)%nat)).
  { intros res -> Hag.
    apply andb_true_iff in Hag as [Hrand%bool_decide_eq_true _].
    destruct (IH (S attempts) _ (get h r am vw.2).2 Hl')
      as (o & issued1 & H1 & H2 & H3 & H4 & H5 & H6 & _ & H8 & H9 & _).
    exists o, (issued ++ issued1). rewrite length_app.
    split_and!; [done | done | done | done | lia | lia
                | by intros Hne | | lia | by intros Hne].
    by rewrite H8, Hp, app_assoc. }
  assert (Hhere : ∀ o,
    value o = char → flagged o →
    ∃ o' issued0,
      (Returned o, (get h r am vw.2).1.2, (get h r am vw.2).2).1.1
      = Returned o'
      ∧ loadingPromises (get h r am vw.2).1.2 = ∅
      ∧ value o' = char
      ∧ flagged o'
      ∧ (requested (stats (get h r am vw.2).1.2)
         ≤ requested (stats am) + S remaining)%nat
      ∧ (requested (stats am) + Nat.min 1 (S remaining)
         ≤ requested (stats (get h r am vw.2).1.2))%nat
      ∧ (requestedStyle ≠ lit "random" →
         (requested (stats (get h r am vw.2).1.2)
          ≤ S (requested (stats am)))%nat)
      ∧ probes (get h r am vw.2).2 = probes w ++ issued0
      ∧ (length issued0 ≤ 7 * S remaining)%nat
      ∧ (requestedStyle ≠ lit "random" → (length issued0 ≤ 7)%nat)).
  { intros o Hv Hf. exists o, issued. split_and!; try done; lia. }
  destruct Hout as [[u Hu]|Hu]; rewrite Hu.
  - destruct (isDataUrl u) eqn:Hdata; cbn [negb].
    + destruct (bool_decide _ && _) eqn:Hag.
      * by apply Hagain.
      * apply Hhere; [done|]. unfold flagged.
        cbn [LetterSelector.url LetterSelector.isFallback]. by rewrite Hdata.
    + apply Hhere; [done|]. unfold flagged.
        cbn [LetterSelector.url LetterSelector.isFallback]. by rewrite Hdata.
  - destruct (bool_decide _ && _) eqn:Hag.
    + by apply Hagain.
    + by apply Hhere.
Qed.

End Selector.

Section SelectorStyle.
Context (h : Host) (c : LetterSelector.Chance).
Import AssetManager LetterSelector.

Lemma fair_random arr w :
  fair c → arr ≠ [] → ∃ x, (_random c arr w).1 = Some x ∧ x ∈ arr.
Proof.
  intros Hf Harr. unfold _random. cbn [fst].
  destruct (lookup_lt_is_Some_2 arr (floorTimes c (draws w) (length arr)))
    as [x Hx].
  { apply Hf. destruct arr; [done | cbn; lia]. }
  exists x. split; [done|]. by eapply list_elem_of_lookup_2.
Qed.

Lemma primary_available st : st ∈ primaryStyles → st ∈ availableStyles.
Proof.
  unfold primaryStyles, availableStyles. rewrite !elem_of_cons, !elem_of_nil.
  tauto.
Qed.

Lemma fair_style attempts w :
  fair c →
  ∃ st,
    interpolated
      (if bool_decide (attempts = 0%nat) then _getRandomStyle c w
       else _random c primaryStyles w).1 = st
    ∧ st ∈ availableStyles
    ∧ ((0 < attempts)%nat → st ∈ primaryStyles).
Proof.
  intros Hf. case_bool_decide as Ha.
  - unfold _getRandomStyle. destruct (below70 c (draws w)).
    + destruct (fair_random primaryStyles (drawn w) Hf) as (x & -> & Hx);
        [done|].
      exists x. split_and!; [done | by apply primary_available | done].
    + destruct (fair_random availableStyles (drawn w) Hf) as (x & -> & Hx);
        [done|].
      exists x. split_and!; [done | done | lia].
  - destruct (fair_random primaryStyles w Hf) as (x & -> & Hx); [done|].
    exists x. split_and!; [done | by apply primary_available | done].
Qed.

Lemma attempt_style char requestedStyle city remaining attempts am w o :
  fair c →
  (attempt h c char requestedStyle city remaining attempts am w).1.1
  = Returned o →
  if bool_decide (requestedStyle = lit "random") then
    ∃ st, style o = st ++ lit "-" ++ caseOf h char
          ∧ st ∈ availableStyles
          ∧ ((0 < attempts)%nat → st ∈ primaryStyles)
  else
    (0 < remaining)%nat → style o = requestedStyle ++ lit "-" ++ caseOf h char.
Proof.
  intros Hf. revert attempts am w.
  induction remaining as [|remaining IH]; intros attempts am w.
  { cbn. intros [= <-]. case_bool_decide; [|lia].
    exists (lit "sans"). cbn. split_and!; [done | compute_done |].
    intros _. compute_done. }
  rewrite attempt_S. cbn zeta.
  destruct (fair_style attempts w Hf) as (st & Hst & Hav & Hprim).
  destruct (bool_decide (requestedStyle = lit "random")) eqn:Hrand;
    cbn [fst snd andb].
  - rewrite Hst.
    match goal with
    | |- context [get h ?r ?am ?w] => destruct (get h r am w) as [[out am'] w']
    end.
    cbn [fst snd].
    destruct out as [u|e|p]; [| |done].
    + destruct (negb (isDataUrl u)).
      { cbn [fst]; intros [= <-]. by exists st. }
      destruct (attempts <? 2)%nat.
      * intros Ho. apply IH in Ho.
        destruct Ho as (st' & H1 & H2 & H3). exists st'.
        split_and!; [done | done |]. intros _. apply H3. lia.
      * cbn [fst]; intros [= <-]. by exists st.
    + destruct (attempts <? 2)%nat.
      * intros Ho. apply IH in Ho.
        destruct Ho as (st' & H1 & H2 & H3). exists st'.
        split_and!; [done | done |]. intros _. apply H3. lia.
      * cbn [fst]; intros [= <-]. by exists st.
  - match goal with
    | |- context [get h ?r ?am ?w] => destruct (get h r am w) as [[out am'] w']
    end.
    cbn [fst snd].
    destruct out as [u|e|p]; [| |done].
    + destruct (negb (isDataUrl u)); by cbn [fst]; intros [= <-] _.
    + by cbn [fst]; intros [= <-] _.
Qed.

End SelectorStyle.

(** X17: when no load is in flight, [_buildLetterObj] returns an object,
    also when [get] rejects: it holds the character as typed, and
    [isFallback] is false exactly when its URL is no generated image; an
    object without URL is flagged as a fallback.  No load is in flight
    afterwards, so the next awaited call returns as well. *)
Theorem buildLetterObj_returns_a_flagged_object
    (h : Host) (c : LetterSelector.Chance)
    (char requestedStyle : jsstring) (city : option jsstring)
    (am : AssetManager.t) (w : World) :
  AssetManager.loadingPromises am = ∅ →
  let out :=
    LetterSelector._buildLetterObj h c char requestedStyle city am w in
  ∃ o, out.1.1 = LetterSelector.Returned o
       ∧ LetterSelector.value o = char
       ∧ match LetterSelector.url o with
         | Some u => LetterSelector.isFallback o = isDataUrl u
         | None => LetterSelector.isFallback o = true
         end
       ∧ AssetManager.loadingPromises out.1.2 = ∅.
Proof.
  intros Hl out.
  destruct (attempt_returns h c char requestedStyle city 3 0 am w Hl)
    as (o & issued & H1 & H2 & H3 & H4 & _).
  by exists o.
Qed.

Lemma buildLetterObj_returns_a_flagged_object_witness :
  let h := hostWhere [] in
  let c := {| LetterSelector.below70 := λ _, true;
              LetterSelector.floorTimes := λ _ _, 0%nat |} in
  let out :=
    LetterSelector._buildLetterObj h c [55357] (lit "random") None
      AssetManager.new world0 in
  AssetManager.loadingPromises AssetManager.new = ∅
  ∧ ∃ o, out.1.1 = LetterSelector.Returned o
         ∧ LetterSelector.value o = [55357]
         ∧ match LetterSelector.url o with
           | Some u => LetterSelector.isFallback o = isDataUrl u
           | None => LetterSelector.isFallback o = true
           end
         ∧ AssetManager.loadingPromises out.1.2 = ∅.
Proof.
  intros h c out.
  assert (Hl : AssetManager.loadingPromises AssetManager.new = ∅)
    by reflexivity.
  split; [exact Hl|].
  exact (buildLetterObj_returns_a_flagged_object h c [55357] (lit "random")
           None AssetManager.new world0 Hl).
Defined.

(** X18: what one call of [_buildLetterObj] costs when no load is in
    flight: it calls [get] once for a named style and one to three times
    for the random style, and it issues at most seven probes per call of
    [get], so at most seven and twenty-one. *)
Theorem buildLetterObj_calls_get_at_most_three_times
    (h : Host) (c : LetterSelector.Chance)
    (char requestedStyle : jsstring) (city : option jsstring)
    (am : AssetManager.t) (w : World) :
  AssetManager.loadingPromises am = ∅ →
  let out :=
    LetterSelector._buildLetterObj h c char requestedStyle city am w in
  let gets :=
    (AssetManager.requested (AssetManager.stats out.1.2)
     - AssetManager.requested (AssetManager.stats am))%nat in
  (1 ≤ gets ≤ 3)%nat
  ∧ (requestedStyle ≠ lit "random" → gets = 1%nat)
  ∧ ∃ issued,
      probes out.2 = probes w ++ issued
      ∧ (length issued ≤ 21)%nat
      ∧ (requestedStyle ≠ lit "random" → (length issued ≤ 7)%nat).
Proof.
  intros Hl out gets. subst gets out.
  destruct (attempt_returns h c char requestedStyle city 3 0 am w Hl)
    as (o & issued & _ & _ & _ & _ & H5 & H6 & H7 & H8 & H9 & H10).
  unfold LetterSelector._buildLetterObj. cbn [Nat.min] in H6.
  split_and!; [lia | lia | intros Hne; specialize (H7 Hne); lia |].
  exists issued. split_and!; [done | lia | done].
Qed.

Lemma buildLetterObj_calls_get_at_most_three_times_witness :
  let h := hostWhere [lit "assets/Alphabet/cities/NYC/Alphabet/B/sans-upper/04.jpg"] in
  let c := {| LetterSelector.below70 := λ _, true;
              LetterSelector.floorTimes := λ _ _, 0%nat |} in
  let out :=
    LetterSelector._buildLetterObj h c (lit "B") (lit "sans") None
      AssetManager.new world0 in
  let gets :=
    (AssetManager.requested (AssetManager.stats out.1.2)
     - AssetManager.requested (AssetManager.stats AssetManager.new))%nat in
  AssetManager.loadingPromises AssetManager.new = ∅
  ∧ (1 ≤ gets ≤ 3)%nat
  ∧ (lit "sans" ≠ lit "random" → gets = 1%nat)
  ∧ ∃ issued,
      probes out.2 = probes world0 ++ issued
      ∧ (length issued ≤ 21)%nat
      ∧ (lit "sans" ≠ lit "random" → (length issued ≤ 7)%nat).
Proof.
  intros h c out gets.
  assert (Hl : AssetManager.loadingPromises AssetManager.new = ∅)
    by reflexivity.
  split; [exact Hl|].
  exact (buildLetterObj_calls_get_at_most_three_times h c (lit "B")
           (lit "sans") None AssetManager.new world0 Hl).
Defined.

(** X19: the style written in the object.  For a named style it is that
    style and the case of the character.  For the random style, when
    [Math.floor(Math.random() * len)] is an index of the array, it is one of
    the five styles of the configuration and the case of the character. *)
Theorem buildLetterObj_style_is_a_configured_style
    (h : Host) (c : LetterSelector.Chance)
    (char requestedStyle : jsstring) (city : option jsstring)
    (am : AssetManager.t) (w : World) (o : LetterSelector.LetterObj) :
  fair c →
  (LetterSelector._buildLetterObj h c char requestedStyle city am w).1.1
  = LetterSelector.Returned o →
  ∃ st, LetterSelector.style o = st ++ lit "-" ++ LetterSelector.caseOf h char
        ∧ if bool_decide (requestedStyle = lit "random")
          then st ∈ LetterSelector.availableStyles
          else st = requestedStyle.
Proof.
  intros Hf Ho.
  pose proof (attempt_style h c char requestedStyle city 3 0 am w o Hf Ho)
    as Hs.
  case_bool_decide.
  - destruct Hs as (st & H1 & H2 & _). by exists st.
  - exists requestedStyle. split; [apply Hs; lia | done].
Qed.

Lemma buildLetterObj_style_is_a_configured_style_witness :
  let h := hostWhere [lit "assets/Alphabet/cities/NYC/Alphabet/B/serif-lower/02.jpg"] in
  let c := {| LetterSelector.below70 := λ n, bool_decide (n = 0%nat);
              LetterSelector.floorTimes := λ n len, (n mod len)%nat |} in
  let o :=
    {| LetterSelector.value := lit "b";
       LetterSelector.url :=
         Some (lit "assets/Alphabet/cities/NYC/Alphabet/B/serif-lower/02.jpg");
       LetterSelector.style := lit "serif-lower";
       LetterSelector.isFallback := false |} in
  fair c
  ∧ (LetterSelector._buildLetterObj h c (lit "b") (lit "random") None
       AssetManager.new world0).1.1 = LetterSelector.Returned o
  ∧ ∃ st, LetterSelector.style o
          = st ++ lit "-" ++ LetterSelector.caseOf h (lit "b")
          ∧ if bool_decide (lit "random" = lit "random")
            then st ∈ LetterSelector.availableStyles
            else st = lit "random".
Proof.
  intros h c o.
  assert (Hf : fair c).
  { intros n len Hlen. cbn. apply Nat.mod_upper_bound. lia. }
  assert (Ho : (LetterSelector._buildLetterObj h c (lit "b") (lit "random")
                  None AssetManager.new world0).1.1
               = LetterSelector.Returned o) by (vm_compute; reflexivity).
  split; [exact Hf|]. split; [exact Ho|].
  exact (buildLetterObj_style_is_a_configured_style h c (lit "b")
           (lit "random") None AssetManager.new world0 o Hf Ho).
Defined.

(** ** AssetManager: progress *)

Section Progress.
Context (h : Host).
Import AssetManager.

Lemma runLoad_left r probed paths am w :
  probesLeft (runLoad h r probed paths am w).1.1 = length paths.
Proof.
  unfold runLoad. destruct paths as [|path rest].
  - by destruct (Utils.generateFallbackLetterSVG _ _ _ _) as [res w'].
  - unfold Utils.checkFileExists. by destruct (imageProbe h path w).
Qed.

Lemma live_state0 : live state0.
Proof. split_and!; [by intros p l | by intros c cs | by intros k p]. Qed.

Lemma live_snoc_call s am w ls cs0 :
  live s →
  (∀ p l, (loads s ++ ls) !! p = Some l → (probesLeft l ≤ 8)%nat) →
  match cs0 with
  | Owner _ p | Joined _ p => (p < length (loads s ++ ls))%nat
  | Done _ _ _ => True
  end →
  (∀ k p, loadingPromises am !! k = Some p →
          (p < length (loads s ++ ls))%nat) →
  live {| manager := am; world := w; loads := loads s ++ ls;
          callStates := callStates s ++ [cs0] |}.
Proof.
  intros (Hshort & Hlink & Hprom) Hls Hcs0 Ham.
  split_and!; [done | | done]. cbn [loads callStates].
  intros c cs [[_ Hcs]|[_ <-]]%lookup_snoc_Some; [|done].
  specialize (Hlink _ _ Hcs). rewrite length_app.
  destruct cs; [lia | lia | done].
Qed.

Lemma live_insert_load s am w p l0 l :
  live s → loads s !! p = Some l0 → (probesLeft l ≤ 8)%nat →
  loadingPromises am = loadingPromises (manager s) →
  live {| manager := am; world := w; loads := <[p := l]> (loads s);
          callStates := callStates s |}.
Proof.
  intros (Hshort & Hlink & Hprom) Hp Hl Ham.
  split_and!; cbn [loads callStates manager].
  - intros q lq [(-> & <- & _)|[_ Hq]]%list_lookup_insert_Some; [done|].
    by eapply Hshort.
  - intros c cs Hcs. rewrite length_insert. by apply (Hlink c).
  - intros k q. rewrite Ham, length_insert. apply Hprom.
Qed.

Lemma live_insert_call s am w c cs0 r via res :
  live s → callStates s !! c = Some cs0 →
  (∀ k p, loadingPromises am !! k = Some p →
          loadingPromises (manager s) !! k = Some p) →
  live {| manager := am; world := w; loads := loads s;
          callStates := <[c := Done r via res]> (callStates s) |}.
Proof.
  intros (Hshort & Hlink & Hprom) Hc Ham.
  split_and!; [done | |]; cbn [loads callStates manager].
  - intros c' cs [(-> & <- & _)|[_ Hq]]%list_lookup_insert_Some; [done|].
    by apply (Hlink c').
  - intros k p Hk. eapply Hprom, Ham, Hk.
Qed.

Lemma step_live s e : live s → live (step h s e).
Proof.
  intros Hs. pose proof Hs as (Hshort & Hlink & Hprom).
  destruct e as [r|p|c|]; cbn [step].
  - destruct (stepGet_cases h r s)
      as [(url & Hc & ->)|[(p & Hc & Hl & ->)|(l & am & w & Hc & Hl & Hr & ->)]].
    + rewrite <- (app_nil_r (loads s)) at 1.
      apply live_snoc_call; [done | | done |].
      * intros p l. rewrite app_nil_r. apply Hshort.
      * intros k p. rewrite app_nil_r. apply Hprom.
    + rewrite <- (app_nil_r (loads s)) at 1.
      apply live_snoc_call; [done | | |].
      * intros q l. rewrite app_nil_r. apply Hshort.
      * rewrite app_nil_r. by eapply Hprom.
      * intros k q. rewrite app_nil_r. apply Hprom.
    + pose proof (runLoad_shape h r [] (pathsOf h r)
                    (with_stats incr_requested (manager s))
                    (newPromise (world s))) as (_ & _ & Hlp & _).
      rewrite Hr in Hlp. cbn [fst snd] in Hlp.
      apply live_snoc_call; [done | | |].
      * intros q lq [[_ Hq]|[_ <-]]%lookup_snoc_Some; [by eapply Hshort|].
        pose proof (runLoad_left r [] (pathsOf h r)
                      (with_stats incr_requested (manager s))
                      (newPromise (world s))) as Hleft.
        rewrite Hr in Hleft. cbn in Hleft. rewrite Hleft.
        pose proof (pathsOf_length h r). lia.
      * rewrite length_app. cbn. lia.
      * intros k q. unfold with_loading. cbn [loadingPromises].
        rewrite length_app. cbn [length].
        intros [[_ <-]|[_ Hk]]%lookup_insert_Some; [lia|].
        rewrite Hlp in Hk. cbn in Hk. apply Hprom in Hk. lia.
  - destruct (stepProbe_cases h p s)
      as [(r & probed & path & rest & Hp & ->)
         |[(r & probed & path & rest & l & am & w & Hp & Hr & ->)| ->]];
      [| |done].
    + eapply live_insert_load; [done | exact Hp | cbn; lia | done].
    + pose proof (runLoad_shape h r probed rest (manager s) (world s))
        as (_ & _ & Hlp & _).
      rewrite Hr in Hlp. cbn [fst snd] in Hlp.
      eapply live_insert_load; [done | exact Hp | | done].
      pose proof (runLoad_left r probed rest (manager s) (world s)) as Hleft.
      rewrite Hr in Hleft. cbn in Hleft. rewrite Hleft.
      specialize (Hshort _ _ Hp). cbn in Hshort. lia.
  - destruct (stepResume_cases c s)
      as [(r & p & url & Hc & Hp & ->)
         |[(r & p & e & Hc & Hp & ->)
          |[(r & p & res & Hc & Hp & ->)| ->]]]; [| | |done];
      (eapply live_insert_call; [done | exact Hc |]);
      intros k q; unfold with_loading, with_cache; cbn [loadingPromises];
      try done; by intros [_ Hk]%lookup_delete_Some.
  - split_and!; [done | done |]. by intros k p.
Qed.

Lemma run_live es s : live s → live (run h s es).
Proof.
  revert s; induction es as [|e es IH]; intros s Hs; [done|].
  cbn. by apply IH, step_live.
Qed.

(** Probe completions settle a load, and touch no call. *)
Lemma probes_settle n : ∀ s p l,
  loads s !! p = Some l → (probesLeft l ≤ n)%nat →
  let s' := run h s (replicate n (EvProbe p)) in
  (∃ l', loads s' !! p = Some l' ∧ unsettled l' = false)
  ∧ callStates s' = callStates s.
Proof.
  induction n as [|n IH]; intros s p l Hp Hn.
  { cbn. split; [|done]. exists l. split; [done|].
    destruct l as [r probed [path e rest|res]]; cbn in *; [lia | done]. }
  pose proof (lookup_lt_Some _ _ _ Hp) as Hlt.
  destruct l as [r probed [path e rest|res]].
  - change (replicate (S n) (EvProbe p))
      with (EvProbe p :: replicate n (EvProbe p)).
    rewrite run_cons. cbn [step]. unfold stepProbe. rewrite Hp.
    cbn in Hn. destruct e.
    + match goal with
      | |- context [run h ?s1 _] =>
          destruct (IH s1 p {| l_request := r; l_probed := probed;
                               l_state := Settled (Ok path) |})
            as [Hl' Hcs]
      end.
      { cbn. by rewrite list_lookup_insert_eq. }
      { cbn. lia. }
      done.
    + pose proof (runLoad_left r probed rest (manager s) (world s)) as Hleft.
      destruct (runLoad h r probed rest (manager s) (world s))
        as [[l2 am2] w2]. cbn [fst] in Hleft.
      match goal with
      | |- context [run h ?s1 _] => destruct (IH s1 p l2) as [Hl' Hcs]
      end.
      { cbn. by rewrite list_lookup_insert_eq. }
      { lia. }
      done.
  - rewrite run_probe_idle.
    + split; [|done]. by eexists.
    + intros l. rewrite Hp. by intros [= <-].
Qed.

Lemma resume_settles c s cs p l :
  callStates s !! c = Some cs →
  match cs with
  | Owner _ q | Joined _ q => q = p
  | Done _ _ _ => True
  end →
  loads s !! p = Some l → unsettled l = false →
  ∃ r via res, callStates (stepResume c s) !! c = Some (Done r via res).
Proof.
  intros Hc Hq Hp Hl. pose proof (lookup_lt_Some _ _ _ Hc) as Hlt.
  assert (Hres : ∃ res, settledResult s p = Some res).
  { unfold settledResult. rewrite Hp.
    destruct l as [r probed [path e rest|res]]; [done | by eexists]. }
  destruct Hres as [res Hres]. unfold stepResume. rewrite Hc.
  destruct cs as [r q|r q|r via res0]; subst.
  - rewrite Hres. destruct res as [url|e]; cbn;
      rewrite list_lookup_insert_eq by done; by eexists _, _, _.
  - rewrite Hres. cbn. rewrite list_lookup_insert_eq by done.
    by eexists _, _, _.
  - by eexists _, _, _.
Qed.

Lemma live_call_settles s c :
  live s → (c < length (callStates s))%nat →
  ∃ es,
    (length es ≤ 9)%nat
    ∧ Forall (λ e, e = EvResume c ∨ ∃ p, e = EvProbe p) es
    ∧ ∃ r via res, callStates (run h s es) !! c = Some (Done r via res).
Proof.
  intros (Hshort & Hlink & _) Hc.
  destruct (lookup_lt_is_Some_2 _ _ Hc) as [cs Hcs].
  pose proof (Hlink _ _ Hcs) as Hp.
  assert (Hwait : ∀ p, (p < length (loads s))%nat →
            match cs with
            | Owner _ q | Joined _ q => q = p
            | Done _ _ _ => True
            end →
            ∃ es,
              (length es ≤ 9)%nat
              ∧ Forall (λ e, e = EvResume c ∨ ∃ p, e = EvProbe p) es
              ∧ ∃ r via res,
                  callStates (run h s es) !! c = Some (Done r via res)).
  { intros p Hlt Hq.
    destruct (lookup_lt_is_Some_2 _ _ Hlt) as [l Hl].
    pose proof (Hshort _ _ Hl) as Hleft.
    destruct (probes_settle (probesLeft l) s p l Hl (le_n _))
      as [(l' & Hl' & Hset) Hsame].
    exists (replicate (probesLeft l) (EvProbe p) ++ [EvResume c]).
    split_and!.
    - rewrite length_app, length_replicate. cbn. lia.
    - apply Forall_app. split.
      + apply Forall_replicate. right. by eexists.
      + apply Forall_singleton. by left.
    - rewrite run_app. cbn.
      apply (resume_settles c _ cs p l'); [by rewrite Hsame | done..]. }
  destruct cs as [r p|r p|r via res].
  - by apply (Hwait p).
  - by apply (Hwait p).
  - exists []. split_and!; [cbn; lia | constructor | by eexists _, _, _].
Qed.

End Progress.

(** X20: every call of [get] settles.  In whatever state an interleaving of
    calls, probe completions, resumptions and [clearCache] has left the
    manager, a call that has been made is settled after at most eight
    probe completions of the load it waits for and its own resumption. *)
Theorem every_call_of_get_settles
    (h : Host) (es : list AssetManager.Event) (c : nat) :
  let s := AssetManager.run h AssetManager.state0 es in
  (c < length (AssetManager.callStates s))%nat →
  ∃ more,
    (length more ≤ 9)%nat
    ∧ Forall (λ e, e = AssetManager.EvResume c
                   ∨ ∃ p, e = AssetManager.EvProbe p) more
    ∧ ∃ r via res,
        AssetManager.callStates (AssetManager.run h s more) !! c
        = Some (AssetManager.Done r via res).
Proof.
  intros s Hc. apply live_call_settles; [|done].
  apply run_live, live_state0.
Qed.

Lemma every_call_of_get_settles_witness :
  let h := hostWhere [] in
  let es := [AssetManager.EvGet requestA; AssetManager.EvClearCache;
             AssetManager.EvGet requestA; AssetManager.EvProbe 0] in
  let s := AssetManager.run h AssetManager.state0 es in
  (1 < length (AssetManager.callStates s))%nat
  ∧ ∃ more,
      (length more ≤ 9)%nat
      ∧ Forall (λ e, e = AssetManager.EvResume 1
                     ∨ ∃ p, e = AssetManager.EvProbe p) more
      ∧ ∃ r via res,
          AssetManager.callStates (AssetManager.run h s more) !! 1%nat
          = Some (AssetManager.Done r via res).
Proof.
  intros h es s.
  assert (Hc : (1 < length (AssetManager.callStates s))%nat)
    by (vm_compute; lia).
  split; [exact Hc|].
  exact (every_call_of_get_settles h es 1 Hc).
Defined.
